(** * SheepGame: the authoritative server simulation

    A shallow embedding of the game server (the fixed-rate game loop, the
    AI controller, the death/respawn lifecycle and the websocket message
    handler) together with the properties of its specification.

    Numbers.  The server computes with JavaScript numbers.  They are
    embedded as real numbers: [Math.sin], [Math.cos], [Math.sqrt] and
    [Math.PI] are the functions of the real-number library, [x ** 2] is
    [x ^ 2], and [Math.atan2] is written out by quadrant.  Rounding, NaN,
    the infinities and the sign of zero are therefore outside this model.

    Randomness.  [Math.random()] is a stream of draws that the server
    consumes in program order; every function that draws threads the
    stream.

    Store.  [players] is a JavaScript object iterated in insertion order,
    embedded as an association list whose keys are pairwise distinct;
    [inputStates] is only ever read and written by key and is a finite
    map. *)

From Stdlib Require Import Reals Lra Psatz List String Bool Arith.
From Stdlib Require Import DecimalString.
From stdpp Require Import base gmap strings.
Import ListNotations.

Set Warnings "-register-all".

Open Scope string_scope.
Open Scope list_scope.
Open Scope R_scope.

(** ** Numbers *)

Definition Rltb (p q : R) : bool := if Rlt_dec p q then true else false.
Definition Rleb (p q : R) : bool := if Rle_dec p q then true else false.
Definition Rgtb (p q : R) : bool := Rltb q p.
Definition Rgeb (p q : R) : bool := Rleb q p.

(** [v || 0] on a number: [0] when [v] is falsy, [v] otherwise. *)
Definition or_zero (v : R) : R := if Req_dec_T v 0 then 0 else v.

(** [Math.atan2(n, m)], by quadrant.  The reals have one zero: for [n = 0]
    and [m < 0] this is [PI], the value JavaScript gives at [n = +0]; at
    [n = -0] JavaScript gives [- PI], the same direction. *)
Definition atan2 (n m : R) : R :=
  if Rltb 0 m then atan (n / m)
  else if Rltb m 0 then
         (if Rleb 0 n then atan (n / m) + PI else atan (n / m) - PI)
  else if Rltb 0 n then PI / 2
  else if Rltb n 0 then - (PI / 2)
  else 0.

(** ** Configuration (src/config.js) *)

Definition TICK_RATE : R := 60.
Definition ACCELERATION : R := 0.05.
Definition MAX_SPEED : R := 1.5.
Definition TURN_ACCELERATION : R := 0.015.
Definition ANGULAR_FRICTION : R := 0.75.
Definition FRICTION : R := 0.95.
Definition SIDEWAYS_FRICTION_MULTIPLIER : R := 3.0.
Definition TILT_RECOVERY_DAMPING : R := 0.95.
Definition TILT_RECOVERY_FORCE : R := 0.01.
Definition GRAVITY : R := 1.
Definition FENCE_RADIUS : R := 100.
Definition TILT_DEATH_DEGREES : R := 60.
Definition RESPAWN_AT_SPAWN : bool := true.
Definition SPAWN_RADIUS : R := 50.
Definition AI_SHEEP_COUNT : nat := 50.

Definition toRadians (deg : R) : R := deg * PI / 180.
Definition TILT_DEATH_RAD : R := toRadians TILT_DEATH_DEGREES.
Definition GROUND_Y : R := 0.6.
Definition RESPAWN_TIME : R := 3.

(** ** Data model *)

Record Vec3 := mkVec3 { x : R; y : R; z : R }.

Inductive Personality := timid | brave | curious | hyper | aggressive.

Definition Personality_eqb (p q : Personality) : bool :=
  match p, q with
  | timid, timid | brave, brave | curious, curious
  | hyper, hyper | aggressive, aggressive => true
  | _, _ => false
  end.

(** The fields that only [createAISheep] gives a record. *)
Record AIState := mkAI {
  aiTimer : R;
  aiTargetAngle : R;
  aiAvoidTimer : R;
  personality : Personality;
  scaredTimer : R
}.

Record Player := mkPlayer {
  position : Vec3;
  spawn : option Vec3;
  rotation : R;
  angularVelocity : R;
  velocityX : R;
  velocityY : R;
  velocityZ : R;
  isDead : bool;
  respawnTimer : R;
  rotationX : R;
  rotationZ : R;
  angularVelocityX : R;
  angularVelocityZ : R;
  ai : option AIState
}.

Record InputState := mkInput { w : bool; a : bool; s : bool; d : bool }.

Definition no_input : InputState := mkInput false false false false.

(** What the server sends to its clients. *)
Record PlayerSnapshot := mkSnapshot {
  snap_id : string;
  snap_position : Vec3;
  snap_rotation : Vec3;
  snap_isDead : bool;
  snap_personality : option Personality
}.

Inductive Message :=
| MsgDeath (id : string) (pos : Vec3)
| MsgState (snapshots : list PlayerSnapshot)
| MsgInit (id : string) (initialPlayerState : Player)
| MsgConnect (snapshot : PlayerSnapshot)
| MsgDisconnect (id : string).

(** ** The stream of [Math.random()] *)

Definition Rng := nat -> R.

Definition rng_tail (g : Rng) : Rng := fun n => g (S n).

Definition random (g : Rng) : R * Rng := (g O, rng_tail g).

Definition valid_rng (g : Rng) : Prop := forall n, 0 <= g n < 1.

(** [g'] is what is left of [g] after some draws. *)
Definition rng_suffix (g' g : Rng) : Prop :=
  exists k : nat, forall n : nat, g' n = g (k + n)%nat.

(** ** Physics integrator: friction and speed clamp *)

(** Lines 162-176: car-like friction on the planar velocity. *)
Definition car_friction (yaw velX velZ : R) : R * R :=
  let forwardX := sin yaw in
  let forwardZ := cos yaw in
  let rightX := cos yaw in
  let rightZ := - sin yaw in
  let forwardSpeed := velX * forwardX + velZ * forwardZ in
  let sidewaysSpeed := velX * rightX + velZ * rightZ in
  let newForwardSpeed := forwardSpeed * FRICTION in
  let newSidewaysSpeed :=
    sidewaysSpeed * (1 - (1 - FRICTION) * SIDEWAYS_FRICTION_MULTIPLIER) in
  (forwardX * newForwardSpeed + rightX * newSidewaysSpeed,
   forwardZ * newForwardSpeed + rightZ * newSidewaysSpeed).

(** Lines 178-188: clamp to [MAX_SPEED], snap a crawl to rest.  Both tests
    read the speed measured before the clamp. *)
Definition clamp_speed (velX velZ : R) : R * R :=
  let speed := sqrt (velX ^ 2 + velZ ^ 2) in
  let '(velX1, velZ1) :=
    if Rgtb speed MAX_SPEED
    then let factor := MAX_SPEED / speed in (velX * factor, velZ * factor)
    else (velX, velZ) in
  if Rltb speed 0.01 then (0, 0) else (velX1, velZ1).

(** The friction step as the specification words it: two dot products, two
    scalings, one recomposition on the same basis. *)
Module FrictionSpec.

Definition dot (p q : R * R) : R := fst p * fst q + snd p * snd q.

Definition scale (k : R) (p : R * R) : R * R := (k * fst p, k * snd p).

Definition add (p q : R * R) : R * R := (fst p + fst q, snd p + snd q).

Definition forward_basis (yaw : R) : R * R := (sin yaw, cos yaw).

Definition right_basis (yaw : R) : R * R := (cos yaw, - sin yaw).

Definition friction : R := 0.95.

Definition sidewaysMultiplier : R := 3.0.

Definition anisotropic_friction (yaw : R) (v : R * R) : R * R :=
  let fwd := dot v (forward_basis yaw) in
  let rgt := dot v (right_basis yaw) in
  let fwd' := fwd * friction in
  let rgt' := rgt * (1 - (1 - friction) * sidewaysMultiplier) in
  add (scale fwd' (forward_basis yaw)) (scale rgt' (right_basis yaw)).

End FrictionSpec.

(** ** Physics integrator: one alive entity (lines 133-243) *)

(** [player.personality === 'timid' && player.scaredTimer > 0]; a record
    without AI fields has no personality and the test is false. *)
Definition isRecentlyScaredTimid (player : Player) : bool :=
  match ai player with
  | Some st => Personality_eqb (personality st) timid && Rgtb (scaredTimer st) 0
  | None => false
  end.

Definition planar_distance (pos : Vec3) : R := sqrt (x pos ^ 2 + z pos ^ 2).

(** The guard of line 199, at the height [posY] reached by the position
    update. *)
Definition scared_jump (player : Player) (posY : R) : bool :=
  isRecentlyScaredTimid player && Rgtb posY GROUND_Y.

Definition integrate (input : InputState) (player : Player) : Player :=
  (* turning (yaw) *)
  let turnDir : R := if s input && negb (w input) then -1 else 1 in
  let av0 := angularVelocity player in
  let av1 := if a input then av0 + TURN_ACCELERATION * turnDir else av0 in
  let av2 := if d input then av1 - TURN_ACCELERATION * turnDir else av1 in
  let av := av2 * ANGULAR_FRICTION in
  let rot := rotation player + av in
  (* forward/backward acceleration *)
  let accX0 := if w input then 0 + sin rot * ACCELERATION else 0 in
  let accZ0 := if w input then 0 + cos rot * ACCELERATION else 0 in
  let accX := if s input then accX0 - sin rot * ACCELERATION * 0.5 else accX0 in
  let accZ := if s input then accZ0 - cos rot * ACCELERATION * 0.5 else accZ0 in
  let velX1 := velocityX player + accX in
  let velZ1 := velocityZ player + accZ in
  (* car-like friction, speed clamp *)
  let '(velX2, velZ2) := car_friction rot velX1 velZ1 in
  let '(velX3, velZ3) := clamp_speed velX2 velZ2 in
  (* gravity, position *)
  let velY1 := velocityY player - GRAVITY / TICK_RATE in
  let pos1 := mkVec3 (x (position player) + velX3)
                     (y (position player) + velY1)
                     (z (position player) + velZ3) in
  (* scared jumping timid sheep *)
  let jumping := scared_jump player (y pos1) in
  let velX4 := if jumping then 0 else velX3 in
  let velZ4 := if jumping then 0 else velZ3 in
  let avX1 := if jumping then - 0.7 else angularVelocityX player in
  let avZ1 := angularVelocityZ player in
  (* ground constraint *)
  let below := Rltb (y pos1) GROUND_Y in
  let pos2 := if below then mkVec3 (x pos1) GROUND_Y (z pos1) else pos1 in
  let velY2 := if below then 0 else velY1 in
  let avX2 := if below then or_zero avX1 * 0.9 else avX1 in
  let avZ2 := if below then or_zero avZ1 * 0.9 else avZ1 in
  (* tilt rotation, restoring force, damping, snap *)
  let rotX1 := or_zero (rotationX player) + or_zero avX2 in
  let rotZ1 := or_zero (rotationZ player) + or_zero avZ2 in
  let avX3 := or_zero avX2 - or_zero rotX1 * TILT_RECOVERY_FORCE in
  let avZ3 := or_zero avZ2 - or_zero rotZ1 * TILT_RECOVERY_FORCE in
  let avX4 := or_zero avX3 * TILT_RECOVERY_DAMPING in
  let avZ4 := or_zero avZ3 * TILT_RECOVERY_DAMPING in
  let avX5 := if Rltb (Rabs (or_zero avX4)) 0.001 then 0 else avX4 in
  let avZ5 := if Rltb (Rabs (or_zero avZ4)) 0.001 then 0 else avZ4 in
  (* leaning into turns *)
  let targetTurningTiltZ := - av * 5 in
  let rotZ2 := rotZ1 * 0.95 + targetTurningTiltZ * 0.05 in
  let rotZ3 :=
    if Rltb (Rabs (or_zero rotZ2)) 0.01 && Rltb (Rabs av) 0.01
       && Rltb (Rabs (or_zero avZ5)) 0.01
    then 0 else rotZ2 in
  let rotX2 :=
    if Rltb (Rabs (or_zero rotX1)) 0.01 && Rltb (Rabs (or_zero avX5)) 0.01
    then 0 else rotX1 in
  mkPlayer pos2 (spawn player) rot av velX4 velY2 velZ4
           (isDead player) (respawnTimer player)
           rotX2 rotZ3 avX5 avZ5 (ai player).

(** ** Lifecycle: the two death checks (lines 245-262) *)

Definition die (id : string) (player : Player) : Player * list Message :=
  (mkPlayer (position player) (spawn player) (rotation player)
            (angularVelocity player)
            (velocityX player) (velocityY player) (velocityZ player)
            true RESPAWN_TIME
            (rotationX player) (rotationZ player)
            (angularVelocityX player) (angularVelocityZ player) (ai player),
   [MsgDeath id (position player)]).

Definition fence_check (id : string) (player : Player) : Player * list Message :=
  let distanceFromCenter := planar_distance (position player) in
  if Rgeb distanceFromCenter FENCE_RADIUS then
    if negb (isDead player) then die id player else (player, [])
  else (player, []).

(** The condition of line 257, without the guard on the ground of line 255. *)
Definition tilt_death_condition (player : Player) : bool :=
  negb (isRecentlyScaredTimid player)
  && (Rgtb (Rabs (or_zero (rotationZ player))) TILT_DEATH_RAD
      || Rgtb (Rabs (or_zero (rotationX player))) TILT_DEATH_RAD)
  && negb (isDead player).

Definition tilt_check (id : string) (player : Player) : Player * list Message :=
  if Rleb (y (position player)) (GROUND_Y + 0.001) then
    if tilt_death_condition player then die id player else (player, [])
  else (player, []).

Definition lifecycle_check (id : string) (player : Player)
  : Player * list Message :=
  let '(player1, deaths1) := fence_check id player in
  let '(player2, deaths2) := tilt_check id player1 in
  (player2, deaths1 ++ deaths2).

(** The body of the first loop for an alive entity. *)
Definition physics_alive (id : string) (input : InputState) (player : Player)
  : Player * list Message :=
  lifecycle_check id (integrate input player).

(** ** Lifecycle: the dead branch (lines 109-131) *)

Definition getRandomSpawn (g : Rng) : Vec3 * Rng :=
  let '(r1, g1) := random g in
  let angle := r1 * PI * 2 in
  let '(r2, g2) := random g1 in
  let radius := r2 * SPAWN_RADIUS in
  (mkVec3 (cos angle * radius) GROUND_Y (sin angle * radius), g2).

Definition respawn_position (player : Player) (g : Rng) : Vec3 * Rng :=
  match RESPAWN_AT_SPAWN, spawn player with
  | true, Some sp => (mkVec3 (x sp) GROUND_Y (z sp), g)
  | _, _ => getRandomSpawn g
  end.

Definition physics_dead (player : Player) (g : Rng) : Player * Rng :=
  let timer := respawnTimer player - 1 / TICK_RATE in
  if Rleb timer 0 then
    let '(pos, g1) := respawn_position player g in
    let '(r, g2) := random g1 in
    (mkPlayer pos (spawn player) (r * PI * 2) 0 0 0 0 false timer 0 0 0 0
              (ai player), g2)
  else
    (mkPlayer (position player) (spawn player) (rotation player)
              (angularVelocity player)
              (velocityX player) (velocityY player) (velocityZ player)
              (isDead player) timer
              (rotationX player) (rotationZ player)
              (angularVelocityX player) (angularVelocityZ player) (ai player),
     g).

(** ** The stores *)

Record World := mkWorld {
  players : list (string * Player);
  inputStates : gmap string InputState
}.

(** [players[id]] *)
Fixpoint get_player (id : string) (ps : list (string * Player)) : option Player :=
  match ps with
  | [] => None
  | (k, p) :: rest => if String.eqb k id then Some p else get_player id rest
  end.

(** [players[id] = player]: an existing key keeps its place, a new one is
    appended. *)
Fixpoint set_player (id : string) (player : Player) (ps : list (string * Player))
  : list (string * Player) :=
  match ps with
  | [] => [(id, player)]
  | (k, p) :: rest =>
      if String.eqb k id then (k, player) :: rest
      else (k, p) :: set_player id player rest
  end.

(** [delete players[id]] *)
Fixpoint delete_player (id : string) (ps : list (string * Player))
  : list (string * Player) :=
  match ps with
  | [] => []
  | (k, p) :: rest =>
      if String.eqb k id then delete_player id rest
      else (k, p) :: delete_player id rest
  end.

Definition ids (ps : list (string * Player)) : list string := map fst ps.

(** ** The first loop of the game loop (lines 107-263) *)

Definition physics_entity (inputs : gmap string InputState) (id : string)
  (player : Player) (g : Rng) : Player * Rng * list Message :=
  if isDead player then
    let '(player', g') := physics_dead player g in (player', g', [])
  else
    let input := default no_input (inputs !! id) in
    let '(player', deaths) := physics_alive id input player in
    (player', g, deaths).

Fixpoint physics_pass (inputs : gmap string InputState)
  (ps : list (string * Player)) (g : Rng)
  : list (string * Player) * Rng * list Message :=
  match ps with
  | [] => ([], g, [])
  | (id, player) :: rest =>
      let '(player', g1, deaths) := physics_entity inputs id player g in
      let '(rest', g2, deaths') := physics_pass inputs rest g1 in
      ((id, player') :: rest', g2, deaths ++ deaths')
  end.

(** ** AI controller (lines 266-369) *)

(** Lines 298-310 and 324-336.  [closestDist] starts at [Infinity], here
    [None]. *)
Fixpoint nearest_scan (id : string) (sheep : Player)
  (others : list (string * Player))
  (closestDist targetAngle : option R) : option R * option R :=
  match others with
  | [] => (closestDist, targetAngle)
  | (otherId, other) :: rest =>
      if String.eqb otherId id || isDead other
      then nearest_scan id sheep rest closestDist targetAngle
      else
        let dx := x (position other) - x (position sheep) in
        let dz := z (position other) - z (position sheep) in
        let dist := sqrt (dx * dx + dz * dz) in
        if match closestDist with None => true | Some c => Rltb dist c end
        then nearest_scan id sheep rest (Some dist) (Some (atan2 dx dz))
        else nearest_scan id sheep rest closestDist targetAngle
  end.

Definition set_aiTargetAngle (st : AIState) (angle : R) : AIState :=
  mkAI (aiTimer st) angle (aiAvoidTimer st) (personality st) (scaredTimer st).

Definition set_aiTimer (st : AIState) (timer : R) : AIState :=
  mkAI timer (aiTargetAngle st) (aiAvoidTimer st) (personality st)
       (scaredTimer st).

Definition set_scaredTimer (st : AIState) (timer : R) : AIState :=
  mkAI (aiTimer st) (aiTargetAngle st) (aiAvoidTimer st) (personality st) timer.

(** [angleToCenter + (Math.random() - 0.5) * spread] *)
Definition angle_to_center (sheep : Player) (spread : R) (g : Rng) : R * Rng :=
  let angleToCenter :=
    atan2 (- x (position sheep)) (- z (position sheep)) in
  let '(r, g1) := random g in
  (angleToCenter + (r - 0.5) * spread, g1).

(** Lines 272-340: the branch of the sheep's personality. *)
Definition ai_personality (id : string) (ps : list (string * Player))
  (sheep : Player) (st : AIState) (g : Rng) : AIState * Rng :=
  match personality st with
  | timid =>
      if Rgtb (scaredTimer st) 0 then
        let st1 := set_scaredTimer st (scaredTimer st - 1 / TICK_RATE) in
        let dist := planar_distance (position sheep) in
        let FENCE_AVOID_THRESHOLD := 0.9 in
        if Rgtb dist (FENCE_RADIUS * FENCE_AVOID_THRESHOLD) then
          let '(angle, g1) := angle_to_center sheep 0.4 g in
          (set_aiTimer (set_aiTargetAngle st1 angle) 0.1, g1)
        else (st1, g)
      else (st, g)
  | brave =>
      let '(r, g1) := random g in
      if Rltb r 0.8 then
        let dist := planar_distance (position sheep) in
        if Rgtb dist (FENCE_RADIUS * 0.9) then
          let '(angle, g2) := angle_to_center sheep 0.4 g1 in
          (set_aiTargetAngle st angle, g2)
        else (st, g1)
      else (st, g1)
  | curious =>
      let '(r, g1) := random g in
      if Rltb r 0.01 then
        match snd (nearest_scan id sheep ps None None) with
        | Some targetAngle =>
            let '(r2, g2) := random g1 in
            (set_aiTargetAngle st (targetAngle + (r2 - 0.5) * 0.3), g2)
        | None => (st, g1)
        end
      else (st, g1)
  | hyper =>
      if Rleb (aiTimer st) 0 then
        let '(r, g1) := random g in
        (set_aiTimer st (0.5 + r * 0.5), g1)
      else (st, g)
  | aggressive =>
      match snd (nearest_scan id sheep ps None None) with
      | Some targetAngle =>
          let '(r, g1) := random g in
          (set_aiTargetAngle st (targetAngle + (r - 0.5) * 0.2), g1)
      | None => (st, g)
      end
  end.

(** The guard of line 344. *)
Definition reroll_condition (st : AIState) (timer : R) : bool :=
  Rleb timer 0
  && (negb (Personality_eqb (personality st) timid)
      || Rleb (aiAvoidTimer st) 0).

(** Lines 342-349: the random-walk timer. *)
Definition random_walk (st : AIState) (g : Rng) : AIState * Rng :=
  let timer := or_zero (aiTimer st) - 1 / TICK_RATE in
  if reroll_condition st timer then
    let '(r1, g1) := random g in
    let '(r2, g2) := random g1 in
    let timer' :=
      if Personality_eqb (personality st) hyper
      then 0.5 + r2 * 0.5 else 2 + r2 * 3 in
    (set_aiTimer (set_aiTargetAngle st (r1 * PI * 2)) timer', g2)
  else (set_aiTimer st timer, g).

Definition turnSpeed (p : Personality) : R :=
  match p with
  | timid => 0.09 | brave => 0.05 | curious => 0.07 | hyper => 0.13
  | aggressive => 0.07
  end.

Definition moveSpeed (p : Personality) : R :=
  match p with
  | timid => 0.6 | brave => 0.8 | curious => 0.7 | hyper => 1.1
  | aggressive => 0.7
  end.

(** Lines 351-368: turn toward the target angle and push forward. *)
Definition heading_to_motion (sheep : Player) (st : AIState) : Player :=
  let angleDiff0 := aiTargetAngle st - rotation sheep in
  let angleDiff := atan2 (sin angleDiff0) (cos angleDiff0) in
  let av := angleDiff * turnSpeed (personality st) in
  let rot := rotation sheep + av in
  mkPlayer (position sheep) (spawn sheep) rot av
           (velocityX sheep + sin rot * ACCELERATION * moveSpeed (personality st))
           (velocityY sheep)
           (velocityZ sheep + cos rot * ACCELERATION * moveSpeed (personality st))
           (isDead sheep) (respawnTimer sheep)
           (rotationX sheep) (rotationZ sheep)
           (angularVelocityX sheep) (angularVelocityZ sheep)
           (Some st).

(** The body of the second loop for one alive sheep.  An id of
    [aiSheepIds] always holds a record made by [createAISheep].  A record
    without AI fields, which the source would give a timer and a target
    angle of its own, is left alone here; no run has one under such an
    id. *)
Definition ai_sheep (id : string) (ps : list (string * Player))
  (sheep : Player) (g : Rng) : Player * Rng :=
  match ai sheep with
  | Some st =>
      let '(st1, g1) := ai_personality id ps sheep st g in
      let '(st2, g2) := random_walk st1 g1 in
      (heading_to_motion sheep st2, g2)
  | None => (sheep, g)
  end.

Fixpoint ai_pass (sheepIds : list string) (ps : list (string * Player))
  (g : Rng) : list (string * Player) * Rng :=
  match sheepIds with
  | [] => (ps, g)
  | id :: rest =>
      match get_player id ps with
      | Some sheep =>
          if isDead sheep then ai_pass rest ps g
          else
            let '(sheep', g1) := ai_sheep id ps sheep g in
            ai_pass rest (set_player id sheep' ps) g1
      | None => ai_pass rest ps g
      end
  end.

(** ** AI sheep setup (lines 58-102) *)

Definition AI_PERSONALITIES : list Personality :=
  [timid; brave; curious; hyper; aggressive].

Definition ai_sheep_id (i : nat) : string :=
  String.append "ai-sheep-" (NilEmpty.string_of_uint (Nat.to_uint i)).

Definition aiSheepIds : list string := map ai_sheep_id (seq 0 AI_SHEEP_COUNT).

(** The fifty ids are never unfolded by simplification. *)
#[global] Opaque AI_SHEEP_COUNT aiSheepIds.

Definition createAISheep (id : string) (p : Personality) (g : Rng)
  : Player * Rng :=
  let '(r1, g1) := random g in
  let angle := r1 * PI * 2 in
  let '(r2, g2) := random g1 in
  let radius := r2 * (SPAWN_RADIUS * 0.7) in
  let '(r3, g3) := random g2 in
  let '(r4, g4) := random g3 in
  (mkPlayer (mkVec3 (cos angle * radius) GROUND_Y (sin angle * radius))
            None (r3 * PI * 2) 0 0 0 0 false 0 0 0 0 0
            (Some (mkAI 0 (r4 * PI * 2) 0 p 0)),
   g4).

Fixpoint create_all (indices : list nat) (ps : list (string * Player))
  (g : Rng) : list (string * Player) * Rng :=
  match indices with
  | [] => (ps, g)
  | i :: rest =>
      let id := ai_sheep_id i in
      let p := nth (i mod length AI_PERSONALITIES) AI_PERSONALITIES timid in
      let '(sheep, g1) := createAISheep id p g in
      create_all rest (set_player id sheep ps) g1
  end.

Definition initial_world (g : Rng) : World :=
  mkWorld (fst (create_all (seq 0 AI_SHEEP_COUNT) [] g)) ∅.

(** ** One tick of the game loop (lines 105-382) *)

Definition snapshot (entry : string * Player) : PlayerSnapshot :=
  let '(id, player) := entry in
  mkSnapshot id (position player)
    (mkVec3 (or_zero (rotationX player)) (or_zero (rotation player))
            (or_zero (rotationZ player)))
    (isDead player)
    (option_map personality (ai player)).

Definition tick (world : World) (g : Rng) : World * Rng * list Message :=
  let '(ps1, g1, deaths) :=
    physics_pass (inputStates world) (players world) g in
  let '(ps2, g2) := ai_pass aiSheepIds ps1 g1 in
  (mkWorld ps2 (inputStates world), g2,
   deaths ++ [MsgState (map snapshot ps2)]).

(** ** Connection handling (lines 395-475) *)

(** [wss.on('connection')]; [id] is the fresh [uuidv4()].  [MsgInit] goes
    to the new client, [MsgConnect] to the others. *)
Definition on_connection (id : string) (world : World) (g : Rng)
  : World * Rng * list Message :=
  let '(spawnPos, g1) := getRandomSpawn g in
  let '(r, g2) := random g1 in
  let player :=
    mkPlayer spawnPos (Some spawnPos) (r * PI * 2) 0 0 0 0 false 0 0 0 0 0
             None in
  (mkWorld (set_player id player (players world))
           (<[id := no_input]> (inputStates world)),
   g2,
   [MsgInit id player;
    MsgConnect (mkSnapshot id (position player)
                  (mkVec3 0 (rotation player) 0) false None)]).

(** [ws.on('close')] and [ws.on('error')] do the same. *)
Definition on_close (id : string) (world : World) : World * list Message :=
  (mkWorld (delete_player id (players world))
           (delete id (inputStates world)),
   [MsgDisconnect id]).

Definition on_error (id : string) (world : World) : World * list Message :=
  on_close id world.

(** ** The message handler (lines 442-456) *)

(** The values [JSON.parse] returns. *)
Inductive json :=
| JNull
| JBool (b : bool)
| JNumber (r : R)
| JString (str : string)
| JArray (items : list json)
| JObject (fields : list (string * json)).

Fixpoint assoc (key : string) (fields : list (string * json)) : option json :=
  match fields with
  | [] => None
  | (k, v) :: rest => if String.eqb k key then Some v else assoc key rest
  end.

(** [data.key] for the three property names the handler reads; [None] is
    [undefined].  Reading a property of [null] throws and is handled where
    [data.type] is read. *)
Definition prop (data : json) (key : string) : option json :=
  match data with
  | JObject fields => assoc key fields
  | _ => None
  end.

(** [inputStates[id].hasOwnProperty(key)]: an input record is the object
    literal [{ w, a, s, d }] and never gets another own property. *)
Definition hasOwnProperty (record : InputState) (key : string) : bool :=
  existsb (String.eqb key) ["w"; "a"; "s"; "d"].

(** [inputStates[id][key] = pressed], for a key the record owns. *)
Definition set_key (record : InputState) (key : string) (pressed : bool)
  : InputState :=
  if String.eqb key "w" then mkInput pressed (a record) (s record) (d record)
  else if String.eqb key "a" then mkInput (w record) pressed (s record) (d record)
  else if String.eqb key "s" then mkInput (w record) (a record) pressed (d record)
  else if String.eqb key "d" then mkInput (w record) (a record) (s record) pressed
  else record.

Definition is_input_type (data : json) : bool :=
  match prop data "type" with
  | Some (JString t) => String.eqb t "input"
  | _ => false
  end.

(** [ws.on('message')] of the connection [id].  [parsed] is the outcome of
    [JSON.parse(message)], [None] when it throws. *)
Definition on_message (id : string) (parsed : option json) (world : World)
  : World :=
  match parsed with
  | None => world
  | Some JNull => world
  | Some data =>
      if is_input_type data then
        match inputStates world !! id with
        | Some record =>
            match prop data "key", prop data "pressed" with
            | Some (JString key), Some (JBool pressed) =>
                if hasOwnProperty record key then
                  mkWorld (players world)
                          (<[id := set_key record key pressed]>
                             (inputStates world))
                else world
            | _, _ => world
            end
        | None => world
        end
      else world
  end.

(** ** Runs of the server *)

(** The events the server reacts to.  Connection ids are UUIDs, never the
    id of an AI sheep. *)
Inductive step : World -> World -> Prop :=
| step_tick world g :
    valid_rng g ->
    step world (fst (fst (tick world g)))
| step_connection world id g :
    valid_rng g -> ~ In id aiSheepIds ->
    step world (fst (fst (on_connection id world g)))
| step_message world id parsed :
    step world (on_message id parsed world)
| step_close world id :
    ~ In id aiSheepIds ->
    step world (fst (on_close id world)).

Inductive reachable : World -> Prop :=
| reachable_initial g : valid_rng g -> reachable (initial_world g)
| reachable_step world world' :
    reachable world -> step world world' -> reachable world'.

(** ** Vocabulary of the properties *)

Definition planar_speed (player : Player) : R :=
  sqrt (velocityX player ^ 2 + velocityZ player ^ 2).

Definition is_death_of (id : string) (m : Message) : bool :=
  match m with
  | MsgDeath k _ => String.eqb k id
  | _ => false
  end.

(** The death events for [id] among the messages of a tick, in order. *)
Definition deaths_of (id : string) (msgs : list Message) : list Message :=
  filter (is_death_of id) msgs.

(** [record[key]] *)
Definition get_key (record : InputState) (key : string) : option bool :=
  if String.eqb key "w" then Some (w record)
  else if String.eqb key "a" then Some (a record)
  else if String.eqb key "s" then Some (s record)
  else if String.eqb key "d" then Some (d record)
  else None.

(** The input messages of the protocol: an object whose [type] is
    ["input"], whose [key] is one of the strings w, a, s, d and whose
    [pressed] is a boolean.  Returns the key and the flag. *)
Definition well_typed_input (data : json) : option (string * bool) :=
  match prop data "type", prop data "key", prop data "pressed" with
  | Some (JString t), Some (JString key), Some (JBool pressed) =>
      if String.eqb t "input" && existsb (String.eqb key) ["w"; "a"; "s"; "d"]
      then Some (key, pressed) else None
  | _, _, _ => None
  end.

(** The yaw the integrator leaves (lines 136-146). *)
Definition yaw_after (input : InputState) (player : Player) : R :=
  let turnDir : R := if s input && negb (w input) then -1 else 1 in
  let av0 := angularVelocity player in
  let av1 := if a input then av0 + TURN_ACCELERATION * turnDir else av0 in
  let av2 := if d input then av1 - TURN_ACCELERATION * turnDir else av1 in
  rotation player + av2 * ANGULAR_FRICTION.

(** A property of every record of the store. *)
Definition all_players (P : string -> Player -> Prop)
  (ps : list (string * Player)) : Prop :=
  forall (id : string) (p : Player), In (id, p) ps -> P id p.

(** The record [wss.on('connection')] stores for a new player. *)
Definition connected_player (g : Rng) : Player :=
  let spawnPos := fst (getRandomSpawn g) in
  mkPlayer spawnPos (Some spawnPos)
           (fst (random (snd (getRandomSpawn g))) * PI * 2)
           0 0 0 0 false 0 0 0 0 0 None.

(** Pairwise distinct strings, decided. *)
Fixpoint nodupb (l : list string) : bool :=
  match l with
  | [] => true
  | h :: t => negb (existsb (String.eqb h) t) && nodupb t
  end.

(** At rest on the ground. *)
Definition grounded (p : Player) : Prop :=
  y (position p) = GROUND_Y /\ velocityY p = 0.

(** No planar velocity, no yaw rate, no tilt and no tilt rate. *)
Definition still (p : Player) : Prop :=
  velocityX p = 0 /\ velocityZ p = 0 /\ angularVelocity p = 0
  /\ rotationX p = 0 /\ rotationZ p = 0
  /\ angularVelocityX p = 0 /\ angularVelocityZ p = 0.

(** The draws that are all zero. *)
Definition zero_rng : Rng := fun _ => 0.


(** The record of a dead entity one tick later, while it stays dead. *)
Definition count_down (player : Player) : Player :=
  mkPlayer (position player) (spawn player) (rotation player)
           (angularVelocity player)
           (velocityX player) (velocityY player) (velocityZ player)
           (isDead player) (respawnTimer player - 1 / TICK_RATE)
           (rotationX player) (rotationZ player)
           (angularVelocityX player) (angularVelocityZ player) (ai player).

(** The order of section 4.2 of the specification for one alive AI entity:
    the AI controller's heading-to-motion first, then the integrator with
    its friction and speed clamp, in the same tick. *)
Module SpecOrder.

Definition entity_tick (inputs : gmap string InputState) (id : string)
  (ps : list (string * Player)) (sheep : Player) (g : Rng) : Player :=
  let '(sheep1, g1) := ai_sheep id ps sheep g in
  fst (physics_alive id (default no_input (inputs !! id)) sheep1).

End SpecOrder.

(** ** Example states *)

(** A player at rest on the ground, 100.5 from the centre. *)
Definition straggler : Player :=
  mkPlayer (mkVec3 100.5 GROUND_Y 0) None 0 0 0 0 0 false 0 0 0 0 0 None.

Definition straggler_world : World := mkWorld [("player-1", straggler)] ∅.

(** A scared timid sheep tilted by 2 radians on both axes. *)
Definition scared_state : AIState := mkAI 1 0 0 timid 0.5.

Definition scared_sheep : Player :=
  mkPlayer (mkVec3 0 GROUND_Y 0) None 0 0 0 0 0 false 0 2 2 0 0
           (Some scared_state).

(** A dead player with three seconds to wait, and one about to respawn. *)
Definition corpse : Player :=
  mkPlayer (mkVec3 120 GROUND_Y 0) (Some (mkVec3 10 GROUND_Y 5))
           1 0.2 0.3 0 0.4 true 3 0.1 0.2 0.3 0.4 None.

Definition corpse_world : World := mkWorld [("player-1", corpse)] ∅.

Definition late_corpse : Player :=
  mkPlayer (mkVec3 120 GROUND_Y 0) (Some (mkVec3 10 GROUND_Y 5))
           1 0.2 0.3 0 0.4 true 0.01 0.1 0.2 0.3 0.4 None.

(** A hyper sheep heading along z at speed 10, a state no run reaches. *)
Definition racer : Player :=
  mkPlayer (mkVec3 0 GROUND_Y 0) None 0 0 0 0 10 false 0 0 0 0 0
           (Some (mkAI 5 0 0 hyper 0)).

(** The message [{"type":"input","key":"w","pressed":true}], parsed, and a
    world with one connection. *)
Definition press_w : json :=
  JObject [("type", JString "input"); ("key", JString "w");
           ("pressed", JBool true)].

Definition lobby : World := mkWorld [] (<["player-1" := no_input]> ∅).

(** ** Several ticks *)

(** The game loop fired once per stream of [draws]. *)
Fixpoint run_ticks (world : World) (draws : list Rng) : World :=
  match draws with
  | [] => world
  | g :: rest => run_ticks (fst (fst (tick world g))) rest
  end.

(** ** The client's key handlers (src/main.js, lines 187-201) *)




(** ** The client's positional sound (src/main.js, lines 399-418) *)

Definition get2DDistance (p q : Vec3) : R :=
  sqrt ((x p - x q) ^ 2 + (z p - z q) ^ 2).

Definition PROXIMITY_SENSITIVITY : R := 1.0.

(** The [volume] and the [pan] that [play3DSound] computes for a sound at
    [position] heard at [localPos]. *)
Definition sound_volume (localPos position : Vec3) (baseVolume : R) : R :=
  let dist := get2DDistance localPos position in
  let maxDist := FENCE_RADIUS * PROXIMITY_SENSITIVITY in
  Rmax 0 (baseVolume * (1 - dist / maxDist)).

Definition sound_pan (localPos position : Vec3) : R :=
  let dx := x position - x localPos in
  let dz := z position - z localPos in
  let angle := atan2 dx dz in
  sin angle.

(** The fields the second loop never writes: [p'] has those of [p]. *)
Definition ai_frame (p' p : Player) : Prop :=
  position p' = position p /\ spawn p' = spawn p
  /\ velocityY p' = velocityY p /\ isDead p' = isDead p
  /\ respawnTimer p' = respawnTimer p
  /\ rotationX p' = rotationX p /\ rotationZ p' = rotationZ p
  /\ angularVelocityX p' = angularVelocityX p
  /\ angularVelocityZ p' = angularVelocityZ p.

(** A dead brave sheep about to respawn, alone in its world. *)
Definition late_sheep : Player :=
  mkPlayer (mkVec3 120 GROUND_Y 0) None 1 0.2 0.3 0 0.4 true 0.01
           0.1 0.2 0.3 0.4 (Some (mkAI 1 0 0 brave 0)).

Definition late_sheep_world : World := mkWorld [("ai-sheep-0", late_sheep)] ∅.

(** Alive entities are inside the fence and stored spawn points are
    inside the spawn disk. *)
Definition inside_arena (p : Player) : Prop :=
  (isDead p = false -> planar_distance (position p) < FENCE_RADIUS)
  /\ (forall sp : Vec3,
        spawn p = Some sp -> planar_distance sp < SPAWN_RADIUS).

(** The limits of a player: speed 0.95 = FRICTION * ACCELERATION /
    (1 - FRICTION), yaw rate 0.045 = ANGULAR_FRICTION * TURN_ACCELERATION /
    (1 - ANGULAR_FRICTION). *)
Definition within_player_limits (p : Player) : Prop :=
  planar_speed p <= 0.95 /\ Rabs (angularVelocity p) <= 0.045.

(** The server after its start and one connection, all draws zero. *)
Definition one_player_world : World :=
  fst (fst (on_connection "player-1" (initial_world zero_rng) zero_rng)).

(** On the ground with no tilt and no tilt rate about the x axis. *)
Definition level_x (p : Player) : Prop :=
  grounded p /\ rotationX p = 0 /\ angularVelocityX p = 0.

(** [AI_PERSONALITIES[i % AI_PERSONALITIES.length]] *)
Definition personality_of_index (i : nat) : Personality :=
  nth (i mod length AI_PERSONALITIES) AI_PERSONALITIES timid.

(** The planar distance the scan measures from [sheep] to [other], and the
    heading it takes toward it. *)
Definition scan_distance (sheep other : Player) : R :=
  let dx := x (position other) - x (position sheep) in
  let dz := z (position other) - z (position sheep) in
  sqrt (dx * dx + dz * dz).

Definition scan_heading (sheep other : Player) : R :=
  atan2 (x (position other) - x (position sheep))
        (z (position other) - z (position sheep)).

(** The entries the scan considers: another id, alive. *)
Definition scan_candidate (id : string) (entry : string * Player) : Prop :=
  fst entry <> id /\ isDead (snd entry) = false.

(** The specification's words for the respawn point, "a uniform-random
    point in the spawn disk": a uniform point of a disk lies within [r] of
    the centre with the share of the area that the disk of radius [r]
    takes. *)
Module SpawnSpec.

Definition disk_area (r : R) : R := PI * r ^ 2.

Definition share_within (r : R) : R := disk_area r / disk_area SPAWN_RADIUS.

End SpawnSpec.

(** * Properties *)

(** ** Comparisons and small facts on numbers *)

Lemma Rltb_true (p q : R) : Rltb p q = true <-> p < q.
Proof. unfold Rltb. destruct (Rlt_dec p q); split; intros; try easy. Qed.

Lemma Rltb_false (p q : R) : Rltb p q = false <-> q <= p.
Proof.
  unfold Rltb. destruct (Rlt_dec p q); split; intros; try easy; lra.
Qed.

Lemma Rleb_true (p q : R) : Rleb p q = true <-> p <= q.
Proof. unfold Rleb. destruct (Rle_dec p q); split; intros; try easy. Qed.

Lemma Rleb_false (p q : R) : Rleb p q = false <-> q < p.
Proof.
  unfold Rleb. destruct (Rle_dec p q); split; intros; try easy; lra.
Qed.

Lemma or_zero_id (v : R) : or_zero v = v.
Proof. unfold or_zero. destruct (Req_dec_T v 0); congruence. Qed.

Lemma Personality_eqb_eq (p q : Personality) :
  Personality_eqb p q = true <-> p = q.
Proof. destruct p, q; simpl; split; intros; congruence. Qed.

(** Decides a comparison between two numerals. *)
Ltac Rcompare :=
  repeat match goal with
  | |- context [Rltb ?p ?q] =>
      first [ replace (Rltb p q) with true
                by (symmetry; apply Rltb_true; lra)
            | replace (Rltb p q) with false
                by (symmetry; apply Rltb_false; lra) ]
  | |- context [Rleb ?p ?q] =>
      first [ replace (Rleb p q) with true
                by (symmetry; apply Rleb_true; lra)
            | replace (Rleb p q) with false
                by (symmetry; apply Rleb_false; lra) ]
  end.

(** ** Friction (C7) *)

(** C7.  The friction step of the game loop is the anisotropic friction of
    the specification: for every yaw and planar velocity, the forward
    component (dot product with (sin yaw, cos yaw)) is scaled by 0.95, the
    right component (dot product with (cos yaw, -sin yaw)) by
    1 - (1 - 0.95) * 3.0, and the velocity is recomposed on the same basis. *)
Theorem car_friction_refines_spec (yaw velX velZ : R) :
  car_friction yaw velX velZ
  = FrictionSpec.anisotropic_friction yaw (velX, velZ)
  /\ FRICTION = FrictionSpec.friction
  /\ SIDEWAYS_FRICTION_MULTIPLIER = FrictionSpec.sidewaysMultiplier
  /\ fst (car_friction yaw velX velZ)
     = sin yaw * ((velX * sin yaw + velZ * cos yaw) * 0.95)
       + cos yaw * ((velX * cos yaw + velZ * - sin yaw)
                    * (1 - (1 - 0.95) * 3.0))
  /\ snd (car_friction yaw velX velZ)
     = cos yaw * ((velX * sin yaw + velZ * cos yaw) * 0.95)
       + - sin yaw * ((velX * cos yaw + velZ * - sin yaw)
                      * (1 - (1 - 0.95) * 3.0)).
Proof.
  repeat split; try reflexivity.
  unfold car_friction, FrictionSpec.anisotropic_friction, FrictionSpec.add,
    FrictionSpec.scale, FrictionSpec.dot, FrictionSpec.forward_basis,
    FrictionSpec.right_basis, FRICTION, SIDEWAYS_FRICTION_MULTIPLIER,
    FrictionSpec.friction, FrictionSpec.sidewaysMultiplier; simpl.
  f_equal; ring.
Qed.

(** ** The integrator keeps the lifecycle fields *)

Lemma integrate_ai (input : InputState) (player : Player) :
  ai (integrate input player) = ai player.
Proof.
  unfold integrate.
  destruct (car_friction _ _ _) as [vx2 vz2].
  destruct (clamp_speed vx2 vz2) as [vx3 vz3]. reflexivity.
Qed.

Lemma integrate_isDead (input : InputState) (player : Player) :
  isDead (integrate input player) = isDead player.
Proof.
  unfold integrate.
  destruct (car_friction _ _ _) as [vx2 vz2].
  destruct (clamp_speed vx2 vz2) as [vx3 vz3]. reflexivity.
Qed.

Lemma integrate_scared (input : InputState) (player : Player) :
  isRecentlyScaredTimid (integrate input player) = isRecentlyScaredTimid player.
Proof. unfold isRecentlyScaredTimid. now rewrite integrate_ai. Qed.

Lemma isRecentlyScaredTimid_true (player : Player) (st : AIState) :
  ai player = Some st -> personality st = timid -> 0 < scaredTimer st ->
  isRecentlyScaredTimid player = true.
Proof.
  intros Hai Hp Hs. unfold isRecentlyScaredTimid. rewrite Hai, Hp. simpl.
  now apply Rltb_true.
Qed.

(** ** The death checks *)

Lemma fence_check_ai (id : string) (player : Player) :
  ai (fst (fence_check id player)) = ai player.
Proof.
  unfold fence_check.
  destruct (Rgeb _ _); [destruct (negb _)|]; reflexivity.
Qed.

Lemma fence_check_position (id : string) (player : Player) :
  position (fst (fence_check id player)) = position player.
Proof.
  unfold fence_check.
  destruct (Rgeb _ _); [destruct (negb _)|]; reflexivity.
Qed.

Lemma fence_check_inside (id : string) (player : Player) :
  planar_distance (position player) < FENCE_RADIUS ->
  fence_check id player = (player, []).
Proof.
  intros H. unfold fence_check, Rgeb.
  replace (Rleb _ _) with false; [reflexivity|].
  symmetry. now apply Rleb_false.
Qed.

Lemma fence_check_outside (id : string) (player : Player) :
  isDead player = false ->
  FENCE_RADIUS <= planar_distance (position player) ->
  fence_check id player = die id player.
Proof.
  intros Hd H. unfold fence_check, Rgeb.
  replace (Rleb _ _) with true by (symmetry; now apply Rleb_true).
  now rewrite Hd.
Qed.

Lemma tilt_check_dead (id : string) (player : Player) :
  isDead player = true -> tilt_check id player = (player, []).
Proof.
  intros Hd. unfold tilt_check, tilt_death_condition. rewrite Hd.
  rewrite andb_false_r. now destruct (Rleb _ _).
Qed.

Lemma tilt_check_scared (id : string) (player : Player) :
  isRecentlyScaredTimid player = true -> tilt_check id player = (player, []).
Proof.
  intros Hs. unfold tilt_check, tilt_death_condition. rewrite Hs. simpl.
  now destruct (Rleb _ _).
Qed.

Lemma tilt_check_airborne (id : string) (player : Player) :
  GROUND_Y + 0.001 < y (position player) ->
  tilt_check id player = (player, []).
Proof.
  intros H. unfold tilt_check.
  replace (Rleb _ _) with false; [reflexivity|].
  symmetry. now apply Rleb_false.
Qed.

(** C4.  A timid entity whose scaredTimer is positive when the tick
    integrates it never takes the tilt-death transition in that tick,
    whatever its tilt angles and whether it is airborne or on the ground:
    the tilt check leaves the record as the fence check left it and emits
    nothing, so an entity that stays inside the fence survives the tick
    without a death event.  For every entity the tilt check does nothing
    while position.y is above GROUND_Y + 0.001. *)
Theorem scared_timid_never_tilt_dies
  (id : string) (input : InputState) (player : Player) (st : AIState) :
  ai player = Some st -> personality st = timid -> 0 < scaredTimer st ->
  let fenced := fst (fence_check id (integrate input player)) in
  tilt_check id fenced = (fenced, [])
  /\ (planar_distance (position (integrate input player)) < FENCE_RADIUS ->
      physics_alive id input player = (integrate input player, []))
  /\ (forall other : Player,
        GROUND_Y + 0.001 < y (position other) ->
        tilt_check id other = (other, [])).
Proof.
  intros Hai Hp Hs fenced.
  assert (Hscared : isRecentlyScaredTimid fenced = true).
  { unfold isRecentlyScaredTimid, fenced. rewrite fence_check_ai, integrate_ai.
    fold (isRecentlyScaredTimid player).
    eapply isRecentlyScaredTimid_true; eauto. }
  split; [now apply tilt_check_scared|]. split.
  - intros Hin. unfold physics_alive, lifecycle_check.
    pose proof (tilt_check_scared id fenced Hscared) as Ht.
    unfold fenced in Ht. rewrite (fence_check_inside id _ Hin) in *.
    simpl in Ht. now rewrite Ht.
  - intros other. apply tilt_check_airborne.
Qed.

(** ** The store of players *)

Lemma get_player_In (id : string) (ps : list (string * Player)) (p : Player) :
  get_player id ps = Some p -> In (id, p) ps.
Proof.
  induction ps as [|[k q] rest IH]; simpl; [discriminate|].
  destruct (String.eqb k id) eqn:E.
  - apply String.eqb_eq in E. intros [= ->]. left. now subst.
  - intros H. right. now apply IH.
Qed.

Lemma get_player_ids (id : string) (ps : list (string * Player)) :
  get_player id ps = None <-> ~ In id (ids ps).
Proof.
  induction ps as [|[k q] rest IH]; simpl; [tauto|].
  destruct (String.eqb k id) eqn:E.
  - apply String.eqb_eq in E. split; [discriminate|]. intros H. tauto.
  - apply String.eqb_neq in E. rewrite IH. tauto.
Qed.

Lemma In_get_player (id : string) (ps : list (string * Player)) (p : Player) :
  List.NoDup (ids ps) -> In (id, p) ps -> get_player id ps = Some p.
Proof.
  induction ps as [|[k q] rest IH]; simpl; [tauto|].
  intros Hnd Hin. inversion Hnd as [|? ? Hk Hrest]; subst.
  destruct Hin as [[= -> ->]|Hin].
  - now rewrite String.eqb_refl.
  - destruct (String.eqb k id) eqn:E.
    + apply String.eqb_eq in E. subst k. exfalso. apply Hk.
      change id with (fst (id, p)). now apply in_map.
    + now apply IH.
Qed.

Lemma get_set_same (id : string) (p : Player) (ps : list (string * Player)) :
  get_player id (set_player id p ps) = Some p.
Proof.
  induction ps as [|[k q] rest IH]; simpl.
  - now rewrite String.eqb_refl.
  - destruct (String.eqb k id) eqn:E; simpl; now rewrite E.
Qed.

Lemma get_set_other (id id' : string) (p : Player)
  (ps : list (string * Player)) :
  id' <> id -> get_player id' (set_player id p ps) = get_player id' ps.
Proof.
  intros Hne. induction ps as [|[k q] rest IH]; simpl.
  - replace (String.eqb id id') with false; [reflexivity|].
    symmetry. apply String.eqb_neq. congruence.
  - destruct (String.eqb k id) eqn:E; simpl.
    + apply String.eqb_eq in E. subst k.
      replace (String.eqb id id') with false; [reflexivity|].
      symmetry. apply String.eqb_neq. congruence.
    + now rewrite IH.
Qed.

Lemma get_delete_other (id id' : string) (ps : list (string * Player)) :
  id' <> id -> get_player id' (delete_player id ps) = get_player id' ps.
Proof.
  intros Hne. induction ps as [|[k q] rest IH]; simpl; [reflexivity|].
  destruct (String.eqb k id) eqn:E; simpl.
  - apply String.eqb_eq in E. subst k.
    replace (String.eqb id id') with false; [exact IH|].
    symmetry. apply String.eqb_neq. congruence.
  - now rewrite IH.
Qed.

Lemma In_set_player (id k : string) (p q : Player)
  (ps : list (string * Player)) :
  In (k, q) (set_player id p ps) -> (k = id /\ q = p) \/ In (k, q) ps.
Proof.
  induction ps as [|[k' q'] rest IH]; simpl.
  - intros [[= <- <-]|[]]. now left.
  - destruct (String.eqb k' id) eqn:E; simpl.
    + apply String.eqb_eq in E. subst k'.
      intros [[= <- <-]|H]; [now left|right; now right].
    + intros [H|H]; [right; now left|].
      destruct (IH H) as [H'|H']; [now left|right; now right].
Qed.

Lemma In_delete_player (id : string) (e : string * Player)
  (ps : list (string * Player)) :
  In e (delete_player id ps) -> In e ps.
Proof.
  induction ps as [|[k' q'] rest IH]; simpl; [tauto|].
  destruct (String.eqb k' id); simpl; intuition.
Qed.

Lemma ids_set_player (id : string) (p : Player) (ps : list (string * Player)) :
  In id (ids ps) -> ids (set_player id p ps) = ids ps.
Proof.
  induction ps as [|[k q] rest IH]; simpl; [tauto|].
  destruct (String.eqb k id) eqn:E; simpl; [reflexivity|].
  apply String.eqb_neq in E. intros [H|H]; [congruence|].
  f_equal. now apply IH.
Qed.

Lemma ids_set_player_In (id k : string) (p : Player)
  (ps : list (string * Player)) :
  In k (ids (set_player id p ps)) <-> k = id \/ In k (ids ps).
Proof.
  induction ps as [|[k' q] rest IH]; simpl.
  - intuition.
  - destruct (String.eqb k' id) eqn:E; simpl.
    + apply String.eqb_eq in E. subst k'. intuition.
    + rewrite IH. intuition.
Qed.

Lemma NoDup_set_player (id : string) (p : Player)
  (ps : list (string * Player)) :
  List.NoDup (ids ps) -> List.NoDup (ids (set_player id p ps)).
Proof.
  induction ps as [|[k q] rest IH]; simpl; intros Hnd.
  - constructor; [simpl; tauto|constructor].
  - inversion Hnd as [|? ? Hk Hrest]; subst.
    destruct (String.eqb k id) eqn:E; simpl.
    + now constructor.
    + apply String.eqb_neq in E. constructor; [|now apply IH].
      fold (ids (set_player id p rest)). rewrite ids_set_player_In.
      intros [H|H]; [congruence|]. now apply Hk.
Qed.

Lemma NoDup_delete_player (id : string) (ps : list (string * Player)) :
  List.NoDup (ids ps) -> List.NoDup (ids (delete_player id ps)).
Proof.
  induction ps as [|[k q] rest IH]; simpl; intros Hnd; [constructor|].
  inversion Hnd as [|? ? Hk Hrest]; subst.
  destruct (String.eqb k id); simpl; [now apply IH|].
  constructor; [|now apply IH].
  intros H. apply Hk. unfold ids in *. apply in_map_iff in H.
  destruct H as [e [He Hin]]. apply in_map_iff. exists e. split; [exact He|].
  now apply In_delete_player in Hin.
Qed.

(** ** The stream of draws *)

Lemma rng_suffix_refl (g : Rng) : rng_suffix g g.
Proof. now exists O. Qed.

Lemma rng_suffix_tail (g' g : Rng) :
  rng_suffix g' g -> rng_suffix (rng_tail g') g.
Proof.
  intros [k Hk]. exists (S k). intros n. unfold rng_tail. rewrite Hk.
  f_equal. lia.
Qed.

Lemma rng_suffix_trans (g1 g2 g3 : Rng) :
  rng_suffix g1 g2 -> rng_suffix g2 g3 -> rng_suffix g1 g3.
Proof.
  intros [k Hk] [k' Hk']. exists (k' + k)%nat. intros n.
  rewrite Hk, Hk'. f_equal. lia.
Qed.

Lemma rng_suffix_valid (g' g : Rng) :
  rng_suffix g' g -> valid_rng g -> valid_rng g'.
Proof. intros [k Hk] Hv n. rewrite Hk. apply Hv. Qed.

Create HintDb rng.
#[local] Hint Resolve rng_suffix_refl rng_suffix_tail rng_suffix_trans : rng.

Lemma getRandomSpawn_suffix (g : Rng) : rng_suffix (snd (getRandomSpawn g)) g.
Proof. unfold getRandomSpawn, random; simpl. auto with rng. Qed.

Lemma respawn_position_suffix (player : Player) (g : Rng) :
  rng_suffix (snd (respawn_position player g)) g.
Proof.
  unfold respawn_position. destruct RESPAWN_AT_SPAWN, (spawn player); simpl;
    auto using getRandomSpawn_suffix with rng.
Qed.

Lemma physics_dead_suffix (player : Player) (g : Rng) :
  rng_suffix (snd (physics_dead player g)) g.
Proof.
  unfold physics_dead. destruct (Rleb _ _); simpl; [|auto with rng].
  pose proof (respawn_position_suffix player g) as H.
  destruct (respawn_position player g) as [pos g1]. simpl in *.
  auto with rng.
Qed.

Lemma physics_entity_suffix (inputs : gmap string InputState) (id : string)
  (player : Player) (g : Rng) :
  rng_suffix (snd (fst (physics_entity inputs id player g))) g.
Proof.
  unfold physics_entity. destruct (isDead player).
  - pose proof (physics_dead_suffix player g) as H.
    now destruct (physics_dead player g).
  - destruct (physics_alive _ _ _). simpl. auto with rng.
Qed.

(** ** The first loop, entity by entity *)

Lemma physics_entity_dead (inputs : gmap string InputState) (id : string)
  (player : Player) (g : Rng) :
  isDead player = true ->
  physics_entity inputs id player g
  = (fst (physics_dead player g), snd (physics_dead player g), []).
Proof.
  intros Hd. unfold physics_entity. rewrite Hd.
  now destruct (physics_dead player g).
Qed.

Lemma physics_entity_alive (inputs : gmap string InputState) (id : string)
  (player : Player) (g : Rng) :
  isDead player = false ->
  physics_entity inputs id player g
  = (fst (physics_alive id (default no_input (inputs !! id)) player), g,
     snd (physics_alive id (default no_input (inputs !! id)) player)).
Proof.
  intros Hd. unfold physics_entity. rewrite Hd.
  now destruct (physics_alive _ _ _).
Qed.

Lemma die_deaths (id k : string) (player : Player) :
  k <> id -> deaths_of id (snd (die k player)) = [].
Proof.
  intros Hne. apply String.eqb_neq in Hne. cbn. now rewrite Hne.
Qed.

Lemma physics_entity_deaths_other (inputs : gmap string InputState)
  (id k : string) (player : Player) (g : Rng) :
  k <> id -> deaths_of id (snd (physics_entity inputs k player g)) = [].
Proof.
  intros Hne. unfold physics_entity. destruct (isDead player).
  - now destruct (physics_dead player g).
  - apply String.eqb_neq in Hne.
    unfold physics_alive, lifecycle_check, fence_check, tilt_check, die.
    destruct (Rgeb _ _); [destruct (negb _)|];
      destruct (Rleb _ _); try destruct (tilt_death_condition _);
      cbn; rewrite ?Hne; reflexivity.
Qed.

Lemma physics_pass_ids (inputs : gmap string InputState)
  (ps : list (string * Player)) (g : Rng) :
  ids (fst (fst (physics_pass inputs ps g))) = ids ps.
Proof.
  revert g. induction ps as [|[k q] rest IH]; intros g; simpl; [reflexivity|].
  destruct (physics_entity inputs k q g) as [[q' g1] deaths].
  specialize (IH g1).
  destruct (physics_pass inputs rest g1) as [[rest' g2] deaths']. simpl in *.
  now rewrite IH.
Qed.

Lemma physics_pass_suffix (inputs : gmap string InputState)
  (ps : list (string * Player)) (g : Rng) :
  rng_suffix (snd (fst (physics_pass inputs ps g))) g.
Proof.
  revert g. induction ps as [|[k q] rest IH]; intros g; simpl;
    [auto with rng|].
  pose proof (physics_entity_suffix inputs k q g) as H1.
  destruct (physics_entity inputs k q g) as [[q' g1] deaths].
  specialize (IH g1).
  destruct (physics_pass inputs rest g1) as [[rest' g2] deaths']. simpl in *.
  eauto with rng.
Qed.

Lemma physics_pass_deaths_absent (inputs : gmap string InputState)
  (ps : list (string * Player)) (g : Rng) (id : string) :
  ~ In id (ids ps) -> deaths_of id (snd (physics_pass inputs ps g)) = [].
Proof.
  revert g. induction ps as [|[k q] rest IH]; intros g Hk; simpl in *;
    [reflexivity|].
  pose proof (physics_entity_deaths_other inputs id k q g) as H2.
  destruct (physics_entity inputs k q g) as [[q' g1] deaths].
  specialize (IH g1).
  destruct (physics_pass inputs rest g1) as [[rest' g2] deaths'].
  simpl in *. unfold deaths_of in *. rewrite filter_app.
  rewrite H2 by tauto. rewrite IH by tauto. reflexivity.
Qed.

(** Every record after the first loop is the loop body applied to the
    record that had the same key before. *)
Lemma physics_pass_In (inputs : gmap string InputState)
  (ps : list (string * Player)) (g : Rng) (id : string) (p' : Player) :
  In (id, p') (fst (fst (physics_pass inputs ps g))) ->
  exists (p : Player) (g' : Rng),
    In (id, p) ps /\ rng_suffix g' g
    /\ p' = fst (fst (physics_entity inputs id p g')).
Proof.
  revert g. induction ps as [|[k q] rest IH]; intros g; simpl; [tauto|].
  pose proof (physics_entity_suffix inputs k q g) as H1.
  destruct (physics_entity inputs k q g) as [[q' g1] deaths] eqn:E.
  specialize (IH g1).
  destruct (physics_pass inputs rest g1) as [[rest' g2] deaths']. simpl in *.
  intros [[= -> ->]|Hin].
  - exists q, g. rewrite E. auto with rng.
  - destruct (IH Hin) as (p & g' & Hp & Hs & Heq).
    exists p, g'. eauto with rng.
Qed.

Lemma physics_pass_get (inputs : gmap string InputState)
  (ps : list (string * Player)) (g : Rng) (id : string) (p : Player) :
  get_player id ps = Some p ->
  exists g' : Rng,
    rng_suffix g' g
    /\ get_player id (fst (fst (physics_pass inputs ps g)))
       = Some (fst (fst (physics_entity inputs id p g')))
    /\ (List.NoDup (ids ps) ->
        deaths_of id (snd (physics_pass inputs ps g))
        = deaths_of id (snd (physics_entity inputs id p g'))).
Proof.
  revert g. induction ps as [|[k q] rest IH]; intros g; simpl; [discriminate|].
  pose proof (physics_entity_suffix inputs k q g) as H1.
  pose proof (physics_entity_deaths_other inputs id k q g) as H2.
  destruct (physics_entity inputs k q g) as [[q' g1] deaths] eqn:E.
  specialize (IH g1).
  pose proof (physics_pass_ids inputs rest g1) as Hids.
  destruct (physics_pass inputs rest g1) as [[rest' g2] deaths'] eqn:E'.
  simpl in *. unfold deaths_of in *. rewrite filter_app.
  destruct (String.eqb k id) eqn:Ek.
  - apply String.eqb_eq in Ek. subst k. intros [= ->].
    exists g. rewrite E. simpl. split; [auto with rng|]. split; [reflexivity|].
    intros Hnd. inversion Hnd as [|? ? Hk Hrest]; subst.
    pose proof (physics_pass_deaths_absent inputs rest g1 id Hk) as Hnone.
    rewrite E' in Hnone. unfold deaths_of in Hnone. simpl in Hnone.
    rewrite Hnone. now rewrite app_nil_r.
  - apply String.eqb_neq in Ek. intros Hget.
    destruct (IH Hget) as (g' & Hs & Hg & Hd).
    exists g'. split; [eauto with rng|]. split; [exact Hg|].
    intros Hnd. inversion Hnd as [|? ? Hk Hrest]; subst.
    rewrite H2 by exact Ek. simpl. now apply Hd.
Qed.

(** ** The AI controller, sheep by sheep *)

Lemma angle_to_center_suffix (sheep : Player) (spread : R) (g : Rng) :
  rng_suffix (snd (angle_to_center sheep spread g)) g.
Proof. unfold angle_to_center, random; simpl. auto with rng. Qed.

(** No branch of the controller writes [aiAvoidTimer] or [personality]. *)
Lemma ai_personality_frame (id : string) (ps : list (string * Player))
  (sheep : Player) (st : AIState) (g : Rng) :
  let st' := fst (ai_personality id ps sheep st g) in
  aiAvoidTimer st' = aiAvoidTimer st
  /\ personality st' = personality st
  /\ rng_suffix (snd (ai_personality id ps sheep st g)) g.
Proof.
  unfold ai_personality.
  pose proof (angle_to_center_suffix sheep 0.4 g) as Ha.
  pose proof (angle_to_center_suffix sheep 0.4 (rng_tail g)) as Hb.
  destruct (personality st) eqn:Hp; unfold random; simpl;
    repeat match goal with
    | |- context [if ?c then _ else _] => destruct c
    | |- context [match snd (nearest_scan ?i ?sh ?l ?c ?t) with _ => _ end] =>
        destruct (snd (nearest_scan i sh l c t))
    | |- context [let '(_, _) := angle_to_center ?sh ?sp ?gg in _] =>
        destruct (angle_to_center sh sp gg)
    end; simpl in *; repeat split; eauto with rng.
Qed.

Lemma random_walk_frame (st : AIState) (g : Rng) :
  let st' := fst (random_walk st g) in
  aiAvoidTimer st' = aiAvoidTimer st
  /\ personality st' = personality st
  /\ rng_suffix (snd (random_walk st g)) g.
Proof.
  unfold random_walk, random.
  destruct (reroll_condition _ _); simpl; repeat split; auto with rng.
Qed.

(** What the second loop does to an alive sheep: the AI fields are
    updated, then the heading is turned into motion. *)
Lemma ai_sheep_shape (id : string) (ps : list (string * Player))
  (sheep : Player) (st : AIState) (g : Rng) :
  ai sheep = Some st ->
  exists st' : AIState,
    fst (ai_sheep id ps sheep g) = heading_to_motion sheep st'
    /\ aiAvoidTimer st' = aiAvoidTimer st
    /\ personality st' = personality st.
Proof.
  intros Hai. unfold ai_sheep. rewrite Hai.
  pose proof (ai_personality_frame id ps sheep st g) as (H1 & H2 & _).
  destruct (ai_personality id ps sheep st g) as [st1 g1]. simpl in *.
  pose proof (random_walk_frame st1 g1) as (H3 & H4 & _).
  destruct (random_walk st1 g1) as [st2 g2]. simpl in *.
  exists st2. repeat split; congruence.
Qed.

Lemma ai_sheep_suffix (id : string) (ps : list (string * Player))
  (sheep : Player) (g : Rng) :
  rng_suffix (snd (ai_sheep id ps sheep g)) g.
Proof.
  unfold ai_sheep. destruct (ai sheep) as [st|]; [|auto with rng].
  pose proof (ai_personality_frame id ps sheep st g) as (_ & _ & H1).
  destruct (ai_personality id ps sheep st g) as [st1 g1]. simpl in *.
  pose proof (random_walk_frame st1 g1) as (_ & _ & H2).
  destruct (random_walk st1 g1) as [st2 g2]. simpl in *. eauto with rng.
Qed.

(** The controller writes the yaw, the yaw rate, the planar velocity and
    the AI fields, nothing else. *)
Lemma ai_sheep_frame (id : string) (ps : list (string * Player))
  (sheep : Player) (g : Rng) :
  let sheep' := fst (ai_sheep id ps sheep g) in
  position sheep' = position sheep /\ spawn sheep' = spawn sheep
  /\ velocityY sheep' = velocityY sheep /\ isDead sheep' = isDead sheep
  /\ respawnTimer sheep' = respawnTimer sheep
  /\ rotationX sheep' = rotationX sheep /\ rotationZ sheep' = rotationZ sheep
  /\ angularVelocityX sheep' = angularVelocityX sheep
  /\ angularVelocityZ sheep' = angularVelocityZ sheep.
Proof.
  destruct (ai sheep) as [st|] eqn:Hai.
  - destruct (ai_sheep_shape id ps sheep st g Hai) as (st' & -> & _).
    simpl. tauto.
  - unfold ai_sheep. rewrite Hai. simpl. tauto.
Qed.

(** ** The second loop *)

Lemma ai_pass_suffix (sheepIds : list string) (ps : list (string * Player))
  (g : Rng) : rng_suffix (snd (ai_pass sheepIds ps g)) g.
Proof.
  revert ps g. induction sheepIds as [|id rest IH]; intros ps g; simpl;
    [auto with rng|].
  destruct (get_player id ps) as [sheep|]; [|apply IH].
  destruct (isDead sheep); [apply IH|].
  pose proof (ai_sheep_suffix id ps sheep g) as H.
  destruct (ai_sheep id ps sheep g) as [sheep' g1]. simpl in H.
  specialize (IH (set_player id sheep' ps) g1). eauto with rng.
Qed.

Lemma ai_pass_ids (sheepIds : list string) (ps : list (string * Player))
  (g : Rng) : ids (fst (ai_pass sheepIds ps g)) = ids ps.
Proof.
  revert ps g. induction sheepIds as [|id rest IH]; intros ps g; simpl;
    [reflexivity|].
  destruct (get_player id ps) as [sheep|] eqn:Hget; [|apply IH].
  destruct (isDead sheep); [apply IH|].
  destruct (ai_sheep id ps sheep g) as [sheep' g1].
  rewrite IH. apply ids_set_player.
  apply get_player_In in Hget. change id with (fst (id, sheep)).
  now apply in_map.
Qed.

(** A record the second loop does not visit, or visits dead, is kept. *)
Lemma ai_pass_get_skipped (sheepIds : list string)
  (ps : list (string * Player)) (g : Rng) (id : string) :
  (~ In id sheepIds
   \/ exists p, get_player id ps = Some p /\ isDead p = true) ->
  get_player id (fst (ai_pass sheepIds ps g)) = get_player id ps.
Proof.
  revert ps g. induction sheepIds as [|k rest IH]; intros ps g H; simpl;
    [reflexivity|].
  assert (Hrest : forall ps' : list (string * Player),
             get_player id ps' = get_player id ps ->
             ~ In id rest
             \/ exists p, get_player id ps' = Some p /\ isDead p = true).
  { intros ps' Heq. destruct H as [H|H]; [left; simpl in H; tauto|].
    right. now rewrite Heq. }
  destruct (get_player k ps) as [sheep|] eqn:Hget; [|now apply IH, Hrest].
  destruct (isDead sheep) eqn:Hd; [now apply IH, Hrest|].
  destruct (ai_sheep k ps sheep g) as [sheep' g1].
  assert (Hne : id <> k).
  { intros ->. destruct H as [H|(p & Hp & Hpd)]; [simpl in H; tauto|].
    congruence. }
  rewrite IH; [now apply get_set_other|].
  apply Hrest. now apply get_set_other.
Qed.

(** An alive sheep is visited exactly once. *)
Lemma ai_pass_get_alive (sheepIds : list string)
  (ps : list (string * Player)) (g : Rng) (id : string) (p : Player) :
  List.NoDup sheepIds -> In id sheepIds ->
  get_player id ps = Some p -> isDead p = false ->
  exists (ps' : list (string * Player)) (g' : Rng),
    rng_suffix g' g
    /\ get_player id (fst (ai_pass sheepIds ps g))
       = Some (fst (ai_sheep id ps' p g')).
Proof.
  revert ps g. induction sheepIds as [|k rest IH]; intros ps g Hnd Hin Hget Hd;
    simpl in *; [tauto|].
  inversion Hnd as [|? ? Hk Hrest]; subst.
  destruct (String.eqb k id) eqn:Ek.
  - apply String.eqb_eq in Ek. subst k. rewrite Hget, Hd.
    destruct (ai_sheep id ps p g) as [sheep' g1] eqn:E.
    exists ps, g. split; [auto with rng|].
    rewrite ai_pass_get_skipped by tauto.
    rewrite get_set_same, E. reflexivity.
  - apply String.eqb_neq in Ek.
    assert (Hin' : In id rest) by (destruct Hin; [congruence|assumption]).
    destruct (get_player k ps) as [sheep|] eqn:Hgk; [|now apply IH].
    destruct (isDead sheep); [now apply IH|].
    pose proof (ai_sheep_suffix k ps sheep g) as Hs.
    destruct (ai_sheep k ps sheep g) as [sheep' g1]. simpl in Hs.
    destruct (IH (set_player k sheep' ps) g1 Hrest Hin') as (ps' & g' & H1 & H2);
      [rewrite get_set_other; [assumption|congruence]|assumption|].
    exists ps', g'. split; [eauto with rng|exact H2].
Qed.

(** ** One tick *)

Lemma tick_players (world : World) (g : Rng) :
  players (fst (fst (tick world g)))
  = fst (ai_pass aiSheepIds
           (fst (fst (physics_pass (inputStates world) (players world) g)))
           (snd (fst (physics_pass (inputStates world) (players world) g)))).
Proof.
  unfold tick.
  destruct (physics_pass _ _ _) as [[ps1 g1] deaths]. simpl.
  now destruct (ai_pass aiSheepIds ps1 g1).
Qed.

Lemma tick_inputStates (world : World) (g : Rng) :
  inputStates (fst (fst (tick world g))) = inputStates world.
Proof.
  unfold tick.
  destruct (physics_pass _ _ _) as [[ps1 g1] deaths]. simpl.
  now destruct (ai_pass aiSheepIds ps1 g1).
Qed.

Lemma tick_deaths (world : World) (g : Rng) (id : string) :
  deaths_of id (snd (tick world g))
  = deaths_of id (snd (physics_pass (inputStates world) (players world) g)).
Proof.
  unfold tick.
  destruct (physics_pass _ _ _) as [[ps1 g1] deaths]. simpl.
  destruct (ai_pass aiSheepIds ps1 g1). simpl.
  unfold deaths_of. rewrite filter_app. simpl. now rewrite app_nil_r.
Qed.

Lemma tick_ids (world : World) (g : Rng) :
  ids (players (fst (fst (tick world g)))) = ids (players world).
Proof. now rewrite tick_players, ai_pass_ids, physics_pass_ids. Qed.

(** ** Dead entities (C6) *)

Lemma physics_dead_waiting (player : Player) (g : Rng) :
  0 < respawnTimer player - 1 / TICK_RATE ->
  physics_dead player g = (count_down player, g).
Proof.
  intros H. unfold physics_dead.
  replace (Rleb _ _) with false; [reflexivity|].
  symmetry. now apply Rleb_false.
Qed.

(** C6.  A dead entity whose respawnTimer is still positive after the
    decrement is untouched by the tick except for that decrement: its
    record after the tick is its record before with respawnTimer lowered
    by 1 / TICK_RATE, so position, velocity, yaw, yaw rate, tilts and tilt
    rates are unchanged.  The first loop neither integrates it nor draws a
    random number nor emits a message for it, and the AI loop skips it. *)
Theorem dead_entity_only_counts_down
  (world : World) (g : Rng) (id : string) (p : Player) :
  get_player id (players world) = Some p ->
  isDead p = true ->
  0 < respawnTimer p - 1 / TICK_RATE ->
  get_player id (players (fst (fst (tick world g)))) = Some (count_down p)
  /\ position (count_down p) = position p
  /\ respawnTimer (count_down p) = respawnTimer p - 1 / TICK_RATE
  /\ (forall (inputs : gmap string InputState) (g' : Rng),
        physics_entity inputs id p g' = (count_down p, g', []))
  /\ (forall (sheepIds : list string) (ps : list (string * Player)) (g' : Rng),
        get_player id ps = Some (count_down p) ->
        get_player id (fst (ai_pass sheepIds ps g')) = Some (count_down p)).
Proof.
  intros Hget Hd Ht.
  assert (Hent : forall inputs g',
             physics_entity inputs id p g' = (count_down p, g', [])).
  { intros inputs g'. rewrite physics_entity_dead by assumption.
    now rewrite physics_dead_waiting. }
  assert (Hai : forall sheepIds ps g',
             get_player id ps = Some (count_down p) ->
             get_player id (fst (ai_pass sheepIds ps g')) = Some (count_down p)).
  { intros sheepIds ps g' H. rewrite ai_pass_get_skipped; [assumption|].
    right. exists (count_down p). now split. }
  repeat split; try assumption.
  rewrite tick_players.
  destruct (physics_pass_get (inputStates world) (players world) g id p Hget)
    as (g' & _ & Hp & _).
  apply Hai. rewrite Hp, Hent. reflexivity.
Qed.

(** ** Death at the fence (C3) *)

Lemma physics_alive_outside (id : string) (input : InputState)
  (player : Player) :
  isDead player = false ->
  FENCE_RADIUS <= planar_distance (position (integrate input player)) ->
  physics_alive id input player = die id (integrate input player).
Proof.
  intros Hd Hout. unfold physics_alive, lifecycle_check.
  rewrite fence_check_outside;
    [|now rewrite integrate_isDead|assumption].
  unfold die at 1. rewrite tilt_check_dead by reflexivity.
  reflexivity.
Qed.

(** C3.  In a tick, an alive entity whose planar distance from the centre
    is at least FENCE_RADIUS once its position has been integrated is dead
    after the tick with respawnTimer exactly RESPAWN_TIME = 3, and the
    tick emits exactly one death event for its id, carrying its position.
    In a tick that starts with the entity dead, no death event is emitted
    for its id. *)
Theorem fence_death_once
  (world : World) (g : Rng) (id : string) (p : Player) :
  List.NoDup (ids (players world)) ->
  get_player id (players world) = Some p ->
  (isDead p = false ->
   FENCE_RADIUS
   <= planar_distance
        (position (integrate (default no_input (inputStates world !! id)) p)) ->
   exists p' : Player,
     get_player id (players (fst (fst (tick world g)))) = Some p'
     /\ isDead p' = true
     /\ respawnTimer p' = 3
     /\ position p'
        = position (integrate (default no_input (inputStates world !! id)) p)
     /\ deaths_of id (snd (tick world g)) = [MsgDeath id (position p')])
  /\ (isDead p = true -> deaths_of id (snd (tick world g)) = []).
Proof.
  intros Hnd Hget.
  destruct (physics_pass_get (inputStates world) (players world) g id p Hget)
    as (g' & _ & Hp & Hdeaths).
  specialize (Hdeaths Hnd). split.
  - intros Hd Hout.
    rewrite physics_entity_alive in Hp, Hdeaths by assumption.
    rewrite physics_alive_outside in Hp, Hdeaths by assumption.
    simpl in Hp, Hdeaths.
    eexists. rewrite tick_players, tick_deaths.
    rewrite ai_pass_get_skipped;
      [|right; eexists; split; [exact Hp|reflexivity]].
    split; [exact Hp|]. rewrite Hdeaths. unfold deaths_of. cbn.
    rewrite String.eqb_refl. unfold RESPAWN_TIME. repeat split.
  - intros Hd. rewrite tick_deaths, Hdeaths.
    now rewrite physics_entity_dead.
Qed.

(** ** Respawn (C5) *)

Lemma sin_cos_1 (t : R) : sin t * sin t + cos t * cos t = 1.
Proof. pose proof (sin2_cos2 t) as H. unfold Rsqr in H. exact H. Qed.

Lemma polar_distance (angle radius : R) :
  0 <= radius ->
  planar_distance (mkVec3 (cos angle * radius) GROUND_Y (sin angle * radius))
  = radius.
Proof.
  intros Hr. unfold planar_distance. cbn [x z].
  replace ((cos angle * radius) ^ 2 + (sin angle * radius) ^ 2)
    with (radius * radius)
    by (pose proof (sin_cos_1 angle); nra).
  now apply sqrt_square.
Qed.

Lemma getRandomSpawn_in_disk (g : Rng) :
  valid_rng g ->
  y (fst (getRandomSpawn g)) = GROUND_Y
  /\ planar_distance (fst (getRandomSpawn g)) < SPAWN_RADIUS.
Proof.
  intros Hv. unfold getRandomSpawn, random. simpl. split; [reflexivity|].
  pose proof (Hv 1%nat) as H1. unfold rng_tail.
  rewrite polar_distance; unfold SPAWN_RADIUS; lra.
Qed.

Lemma getRandomSpawn_distance (g : Rng) :
  valid_rng g ->
  planar_distance (fst (getRandomSpawn g)) = g 1%nat * SPAWN_RADIUS.
Proof.
  intros Hv. pose proof (Hv 1%nat) as H1.
  unfold getRandomSpawn, random, rng_tail. cbn [fst].
  apply polar_distance. unfold SPAWN_RADIUS. lra.
Qed.

(** C5, as stated, fails in its word "uniform".  Without a stored spawn
    point the respawn position is the point getRandomSpawn draws.  That
    point lies within half the spawn radius exactly when its radius draw is
    below 1/2: half of the radius draws in [0, 1) land in the inner disk of
    half the radius.  A uniform point of the spawn disk lands there with the
    share of the area, which is a quarter. *)
Lemma spawn_point_not_uniform_counterexample :
  (forall (p : Player) (g : Rng),
     spawn p = None ->
     respawnTimer p - 1 / TICK_RATE <= 0 ->
     position (fst (physics_dead p g)) = fst (getRandomSpawn g))
  /\ (forall g : Rng,
        valid_rng g ->
        (planar_distance (fst (getRandomSpawn g)) < SPAWN_RADIUS / 2
         <-> g 1%nat < 1 / 2))
  /\ SpawnSpec.share_within (SPAWN_RADIUS / 2) = 1 / 4
  /\ SpawnSpec.share_within (SPAWN_RADIUS / 2) <> 1 / 2.
Proof.
  assert (Hshare : SpawnSpec.share_within (SPAWN_RADIUS / 2) = 1 / 4).
  { unfold SpawnSpec.share_within, SpawnSpec.disk_area, SPAWN_RADIUS.
    pose proof PI_RGT_0. field. lra. }
  split; [|split; [|split]].
  - intros p g Hsp Ht. unfold physics_dead.
    replace (Rleb _ _) with true by (symmetry; now apply Rleb_true).
    unfold respawn_position, RESPAWN_AT_SPAWN. rewrite Hsp.
    destruct (getRandomSpawn g) as [pos g1]. reflexivity.
  - intros g Hv. rewrite getRandomSpawn_distance by assumption.
    unfold SPAWN_RADIUS. split; intros; lra.
  - exact Hshare.
  - rewrite Hshare. lra.
Qed.

(** C5, amended.  When the decrement brings a dead entity's respawnTimer
    to 0 or below, the first loop brings it back: yaw rate, the three
    velocity components, both tilts and both tilt rates are exactly 0,
    isDead is false, the yaw is the next random draw times 2 pi, and the
    position is the stored spawn point at ground height (the stored point
    itself when it lies at ground height) or, without a stored point, a
    freshly drawn point of the spawn disk at ground height: at the angle
    2 pi times one draw and at the distance SPAWN_RADIUS times the next
    draw from the centre. *)
Theorem respawn_resets_physics
  (inputs : gmap string InputState) (id : string) (player : Player) (g : Rng) :
  isDead player = true ->
  respawnTimer player - 1 / TICK_RATE <= 0 ->
  exists (p' : Player) (g' : Rng),
    physics_entity inputs id player g = (p', g', [])
    /\ angularVelocity p' = 0
    /\ velocityX p' = 0 /\ velocityY p' = 0 /\ velocityZ p' = 0
    /\ rotationX p' = 0 /\ rotationZ p' = 0
    /\ angularVelocityX p' = 0 /\ angularVelocityZ p' = 0
    /\ isDead p' = false
    /\ match spawn player with
       | Some sp =>
           position p' = mkVec3 (x sp) GROUND_Y (z sp)
           /\ (y sp = GROUND_Y -> position p' = sp)
           /\ rotation p' = g 0%nat * PI * 2
       | None =>
           position p'
           = mkVec3 (cos (g 0%nat * PI * 2) * (g 1%nat * SPAWN_RADIUS))
                    GROUND_Y
                    (sin (g 0%nat * PI * 2) * (g 1%nat * SPAWN_RADIUS))
           /\ (valid_rng g ->
               planar_distance (position p') = g 1%nat * SPAWN_RADIUS
               /\ planar_distance (position p') < SPAWN_RADIUS)
           /\ rotation p' = g 2%nat * PI * 2
       end.
Proof.
  intros Hd Ht. rewrite physics_entity_dead by assumption.
  unfold physics_dead.
  replace (Rleb _ _) with true by (symmetry; now apply Rleb_true).
  unfold respawn_position, RESPAWN_AT_SPAWN.
  destruct (spawn player) as [sp|] eqn:Hsp.
  - simpl. eexists _, _. split; [reflexivity|]. simpl.
    repeat split; try reflexivity.
    intros Hy. destruct sp as [sx sy sz]. simpl in *. now subst sy.
  - pose proof (getRandomSpawn_in_disk g) as Hdisk.
    pose proof (getRandomSpawn_distance g) as Hdist.
    unfold getRandomSpawn, random in *. simpl in *.
    eexists _, _. split; [reflexivity|]. simpl.
    repeat split; try reflexivity.
    + now apply Hdist.
    + now apply Hdisk.
Qed.

(** ** The message handler (C8) *)

Lemma set_key_get_same (record : InputState) (key : string) (pressed : bool) :
  hasOwnProperty record key = true ->
  get_key (set_key record key pressed) key = Some pressed.
Proof.
  unfold hasOwnProperty, get_key, set_key. simpl.
  destruct (String.eqb key "w") eqn:Ew; [reflexivity|].
  destruct (String.eqb key "a") eqn:Ea; [simpl; reflexivity|].
  destruct (String.eqb key "s") eqn:Es; [simpl; reflexivity|].
  destruct (String.eqb key "d") eqn:Ed; [simpl; reflexivity|].
  discriminate.
Qed.

Lemma set_key_get_other (record : InputState) (key key' : string)
  (pressed : bool) :
  key' <> key ->
  get_key (set_key record key pressed) key' = get_key record key'.
Proof.
  intros Hne. unfold get_key, set_key.
  destruct (String.eqb key "w") eqn:Ew;
    [|destruct (String.eqb key "a") eqn:Ea;
      [|destruct (String.eqb key "s") eqn:Es;
        [|destruct (String.eqb key "d") eqn:Ed; [|reflexivity]]]];
    match goal with
    | H : String.eqb key ?c = true |- _ =>
        apply String.eqb_eq in H; subst key
    end;
    repeat match goal with
    | |- context [String.eqb key' ?c] =>
        destruct (String.eqb key' c) eqn:?
    end; simpl; try reflexivity;
    match goal with
    | H : String.eqb key' _ = true |- _ =>
        apply String.eqb_eq in H; congruence
    end.
Qed.

Lemma on_message_ignored (id : string) (data : json) (world : World) :
  well_typed_input data = None -> on_message id (Some data) world = world.
Proof.
  unfold well_typed_input, on_message, is_input_type, hasOwnProperty.
  intros H. destruct data; try reflexivity.
  destruct (prop (JObject fields) "type") as [[| | |t| |]|]; try reflexivity.
  destruct (String.eqb t "input"); [|reflexivity].
  destruct (inputStates world !! id) as [record|]; [|reflexivity].
  destruct (prop (JObject fields) "key") as [[| | |key| |]|]; try reflexivity.
  destruct (prop (JObject fields) "pressed") as [[|pressed| | | |]|];
    try reflexivity.
  cbn [andb] in H. destruct (existsb _ _); [discriminate|reflexivity].
Qed.

Lemma on_message_accepted (id : string) (data : json) (world : World)
  (key : string) (pressed : bool) (record : InputState) :
  well_typed_input data = Some (key, pressed) ->
  inputStates world !! id = Some record ->
  on_message id (Some data) world
  = mkWorld (players world)
            (<[id := set_key record key pressed]> (inputStates world))
  /\ hasOwnProperty record key = true.
Proof.
  unfold well_typed_input, on_message, is_input_type, hasOwnProperty.
  intros H Hrec. destruct data; try discriminate.
  destruct (prop (JObject fields) "type") as [[| | |t| |]|]; try discriminate.
  destruct (prop (JObject fields) "key") as [[| | |k| |]|]; try discriminate.
  destruct (prop (JObject fields) "pressed") as [[|b| | | |]|];
    try discriminate.
  rewrite Hrec.
  destruct (String.eqb t "input"); [|discriminate]. cbn [andb] in H.
  destruct (existsb (String.eqb k) _) eqn:E; [|discriminate].
  injection H as -> ->. now rewrite E.
Qed.

(** C8.  A message that is not JSON changes nothing.  A message that is
    JSON but is not an input message with a string key among w, a, s, d and
    a boolean pressed changes nothing.  A well-typed input message with a
    known key, on a connection that has an input record, sets that one
    flag of that record to pressed: the other flags of the record, the
    records of the other connections and the players are as before; without
    an input record it changes nothing. *)
Theorem message_handler_updates_one_flag
  (id : string) (world : World) :
  on_message id None world = world
  /\ (forall data : json,
        well_typed_input data = None ->
        on_message id (Some data) world = world)
  /\ (forall (data : json) (key : string) (pressed : bool),
        well_typed_input data = Some (key, pressed) ->
        let world' := on_message id (Some data) world in
        players world' = players world
        /\ (forall id' : string,
              id' <> id -> inputStates world' !! id' = inputStates world !! id')
        /\ match inputStates world !! id with
           | Some record =>
               exists record' : InputState,
                 inputStates world' !! id = Some record'
                 /\ get_key record' key = Some pressed
                 /\ (forall key' : string,
                       key' <> key -> get_key record' key' = get_key record key')
           | None => world' = world
           end).
Proof.
  split; [reflexivity|].
  split; [intros data; apply on_message_ignored|].
  intros data key pressed Hwt world'.
  destruct (inputStates world !! id) as [record|] eqn:Hrec.
  - destruct (on_message_accepted id data world key pressed record Hwt Hrec)
      as [Heq Hown].
    unfold world'. rewrite Heq. simpl. split; [reflexivity|]. split.
    + intros id' Hne. now rewrite lookup_insert_ne.
    + exists (set_key record key pressed). rewrite lookup_insert_eq.
      split; [reflexivity|]. split.
      * now apply set_key_get_same.
      * intros key' Hne. now apply set_key_get_other.
  - assert (Hsame : world' = world).
    { unfold world', on_message. destruct data; try reflexivity;
        destruct (is_input_type _); try reflexivity; now rewrite Hrec. }
    rewrite Hsame. repeat split; reflexivity.
Qed.

(** ** Planar speed: friction, clamp and thrust *)

Lemma sqrt_scaled (k vx vz : R) :
  0 <= k -> sqrt ((vx * k) ^ 2 + (vz * k) ^ 2) = k * sqrt (vx ^ 2 + vz ^ 2).
Proof.
  intros Hk.
  replace ((vx * k) ^ 2 + (vz * k) ^ 2) with ((k * k) * (vx ^ 2 + vz ^ 2))
    by ring.
  rewrite sqrt_mult; [|nra|nra]. now rewrite sqrt_square.
Qed.

Lemma sqrt_zero_vector : sqrt (0 ^ 2 + 0 ^ 2) = 0.
Proof. replace (0 ^ 2 + 0 ^ 2) with 0 by ring. apply sqrt_0. Qed.

Lemma norm_triangle (p q r t : R) :
  sqrt ((p + r) ^ 2 + (q + t) ^ 2)
  <= sqrt (p ^ 2 + q ^ 2) + sqrt (r ^ 2 + t ^ 2).
Proof.
  pose proof (sqrt_cauchy p q r t) as Hc. unfold Rsqr in Hc.
  assert (Hp : 0 <= p ^ 2 + q ^ 2) by nra.
  assert (Hr : 0 <= r ^ 2 + t ^ 2) by nra.
  pose proof (sqrt_pos (p ^ 2 + q ^ 2)) as Hsp.
  pose proof (sqrt_pos (r ^ 2 + t ^ 2)) as Hsr.
  pose proof (sqrt_sqrt _ Hp) as Hpp. pose proof (sqrt_sqrt _ Hr) as Hrr.
  replace (p * p + q * q) with (p ^ 2 + q ^ 2) in Hc by ring.
  replace (r * r + t * t) with (r ^ 2 + t ^ 2) in Hc by ring.
  rewrite <- (sqrt_square (sqrt (p ^ 2 + q ^ 2) + sqrt (r ^ 2 + t ^ 2)))
    by lra.
  apply sqrt_le_1_alt. nra.
Qed.

(** A push of size [k] along the heading has norm [k]. *)
Lemma thrust_norm (yaw k : R) :
  0 <= k -> sqrt ((sin yaw * k) ^ 2 + (cos yaw * k) ^ 2) = k.
Proof.
  intros Hk. rewrite sqrt_scaled by assumption.
  replace (sin yaw ^ 2 + cos yaw ^ 2) with 1
    by (pose proof (sin_cos_1 yaw); nra).
  rewrite sqrt_1. ring.
Qed.

(** Friction shrinks the planar speed by the factor [FRICTION] at least. *)
Lemma car_friction_contracts (yaw vx vz : R) :
  sqrt (fst (car_friction yaw vx vz) ^ 2 + snd (car_friction yaw vx vz) ^ 2)
  <= FRICTION * sqrt (vx ^ 2 + vz ^ 2).
Proof.
  unfold car_friction, FRICTION, SIDEWAYS_FRICTION_MULTIPLIER. cbn [fst snd].
  replace (1 - (1 - 0.95) * 3.0) with 0.85 by lra.
  set (sn := sin yaw). set (cs := cos yaw).
  assert (H1 : sn * sn + cs * cs = 1) by apply sin_cos_1.
  set (fwd := vx * sn + vz * cs). set (side := vx * cs + vz * - sn).
  assert (Hout :
    (sn * (fwd * 0.95) + cs * (side * 0.85)) ^ 2
    + (cs * (fwd * 0.95) + - sn * (side * 0.85)) ^ 2
    = (sn * sn + cs * cs) * ((0.95 * fwd) ^ 2 + (0.85 * side) ^ 2))
    by ring.
  assert (Hin : fwd ^ 2 + side ^ 2 = (sn * sn + cs * cs) * (vx ^ 2 + vz ^ 2))
    by (unfold fwd, side; ring).
  rewrite Hout, H1. rewrite H1 in Hin. clearbody fwd side.
  replace (0.95 * sqrt (vx ^ 2 + vz ^ 2))
    with (sqrt (0.95 * 0.95 * (vx ^ 2 + vz ^ 2)))
    by (rewrite sqrt_mult by nra; now rewrite sqrt_square by lra).
  apply sqrt_le_1_alt. nra.
Qed.

(** The clamp never raises the speed and brings it to [MAX_SPEED] or
    below. *)
Lemma clamp_speed_bound (vx vz : R) :
  let out := clamp_speed vx vz in
  sqrt (fst out ^ 2 + snd out ^ 2) <= MAX_SPEED
  /\ sqrt (fst out ^ 2 + snd out ^ 2) <= sqrt (vx ^ 2 + vz ^ 2).
Proof.
  unfold clamp_speed, Rgtb, MAX_SPEED.
  set (speed := sqrt (vx ^ 2 + vz ^ 2)).
  pose proof (sqrt_pos (vx ^ 2 + vz ^ 2)) as Hpos. fold speed in Hpos.
  destruct (Rltb 1.5 speed) eqn:Ehigh;
    destruct (Rltb speed 0.01) eqn:Elow; cbn [fst snd];
    rewrite ?sqrt_zero_vector;
    try apply Rltb_true in Ehigh; try apply Rltb_false in Ehigh;
    try apply Rltb_true in Elow; try apply Rltb_false in Elow;
    try lra.
  - assert (Hf : 0 <= 1.5 / speed)
      by (apply Rlt_le, Rdiv_lt_0_compat; lra).
    rewrite sqrt_scaled by assumption. fold speed.
    replace (1.5 / speed * speed) with 1.5 by (field; lra). lra.
  - fold speed. lra.
Qed.

Lemma thrust_norm_abs (yaw k : R) :
  sqrt ((sin yaw * k) ^ 2 + (cos yaw * k) ^ 2) = Rabs k.
Proof.
  replace ((sin yaw * k) ^ 2 + (cos yaw * k) ^ 2)
    with ((sin yaw * Rabs k) ^ 2 + (cos yaw * Rabs k) ^ 2).
  - apply thrust_norm, Rabs_pos.
  - pose proof (pow2_abs k) as H. ring_simplify. rewrite H. ring.
Qed.

Lemma integrate_rotation (input : InputState) (player : Player) :
  rotation (integrate input player) = yaw_after input player.
Proof.
  unfold integrate, yaw_after.
  destruct (car_friction _ _ _) as [vx2 vz2].
  destruct (clamp_speed vx2 vz2) as [vx3 vz3]. reflexivity.
Qed.

(** The planar velocity the integrator leaves: the old velocity pushed by
    at most [ACCELERATION] along the new heading, through friction and the
    clamp; or zero for a scared timid sheep in the air. *)
Lemma integrate_velocity (input : InputState) (player : Player) :
  exists k : R,
    Rabs k <= ACCELERATION
    /\ (w input = false -> s input = false -> k = 0)
    /\ let rot := rotation (integrate input player) in
       let fr := car_friction rot (velocityX player + sin rot * k)
                              (velocityZ player + cos rot * k) in
       let cl := clamp_speed (fst fr) (snd fr) in
       (velocityX (integrate input player) = fst cl
        /\ velocityZ (integrate input player) = snd cl)
       \/ (velocityX (integrate input player) = 0
           /\ velocityZ (integrate input player) = 0).
Proof.
  set (k := if w input
          then (if s input then ACCELERATION - ACCELERATION * 0.5
                else ACCELERATION)
          else (if s input then - (ACCELERATION * 0.5) else 0)).
  exists k.
  split; [|split].
  - unfold k, ACCELERATION. destruct (w input), (s input);
      unfold Rabs; destruct (Rcase_abs _); lra.
  - unfold k. now intros -> ->.
  - cbv zeta. rewrite integrate_rotation.
    unfold integrate. fold (yaw_after input player).
    set (rot := yaw_after input player). 
    cbv zeta. fold (yaw_after input player). fold rot.
    match goal with
    | |- context [car_friction rot ?vx ?vz] =>
        replace vx with (velocityX player + sin rot * k)
          by (unfold k; destruct (w input), (s input); ring);
        replace vz with (velocityZ player + cos rot * k)
          by (unfold k; destruct (w input), (s input); ring)
    end.
    destruct (car_friction rot _ _) as [vx2 vz2] eqn:Efr.
    destruct (clamp_speed vx2 vz2) as [vx3 vz3] eqn:Ecl.
    cbn [rotation velocityX velocityZ fst snd].
    rewrite Ecl. cbn [fst snd].
    destruct (scared_jump _ _); [right|left]; split; reflexivity.
Qed.

(** After the integrator the planar speed is at most [MAX_SPEED], and at
    most [FRICTION] times the old speed raised by the push. *)
Lemma integrate_speed (input : InputState) (player : Player) :
  planar_speed (integrate input player) <= MAX_SPEED
  /\ planar_speed (integrate input player)
     <= FRICTION * (planar_speed player + ACCELERATION)
  /\ (w input = false -> s input = false ->
      planar_speed (integrate input player) <= FRICTION * planar_speed player).
Proof.
  destruct (integrate_velocity input player) as (k & Hk & Hk0 & Hv).
  cbv zeta in Hv. unfold planar_speed.
  set (rot := rotation (integrate input player)) in *.
  pose proof (sqrt_pos (velocityX player ^ 2 + velocityZ player ^ 2)) as Hpos.
  destruct Hv as [[-> ->]|[-> ->]].
  - set (vx1 := velocityX player + sin rot * k) in *.
    set (vz1 := velocityZ player + cos rot * k) in *.
    pose proof (car_friction_contracts rot vx1 vz1) as Hfr.
    destruct (clamp_speed_bound (fst (car_friction rot vx1 vz1))
                                (snd (car_friction rot vx1 vz1))) as [Hc1 Hc2].
    pose proof (norm_triangle (velocityX player) (velocityZ player)
                  (sin rot * k) (cos rot * k)) as Htri.
    rewrite thrust_norm_abs in Htri. fold vx1 vz1 in Htri.
    unfold FRICTION, ACCELERATION in *.
    split; [exact Hc1|]. split; [lra|].
    intros Hw Hs. rewrite (Hk0 Hw Hs) in Htri. rewrite Rabs_R0 in Htri. lra.
  - rewrite sqrt_zero_vector. unfold MAX_SPEED, FRICTION, ACCELERATION.
    repeat split; intros; lra.
Qed.

(** ** Invariants of the store *)

Lemma all_set_player (P : string -> Player -> Prop) (id : string) (p : Player)
  (ps : list (string * Player)) :
  all_players P ps -> P id p -> all_players P (set_player id p ps).
Proof.
  intros Hall Hp k q Hin.
  destruct (In_set_player _ _ _ _ _ Hin) as [[-> ->]|H]; auto.
Qed.

Lemma all_delete_player (P : string -> Player -> Prop) (id : string)
  (ps : list (string * Player)) :
  all_players P ps -> all_players P (delete_player id ps).
Proof. intros Hall k q Hin. apply Hall. eapply In_delete_player, Hin. Qed.

Lemma physics_pass_all (P Q : string -> Player -> Prop)
  (inputs : gmap string InputState) (ps : list (string * Player)) (g : Rng) :
  (forall id p g', In (id, p) ps -> rng_suffix g' g -> P id p ->
                   Q id (fst (fst (physics_entity inputs id p g')))) ->
  all_players P ps ->
  all_players Q (fst (fst (physics_pass inputs ps g))).
Proof.
  intros Hstep Hall id p' Hin.
  destruct (physics_pass_In inputs ps g id p' Hin) as (p & g' & Hp & Hs & ->).
  apply Hstep; auto.
Qed.

Lemma ai_pass_all (P : string -> Player -> Prop) (sheepIds : list string)
  (ps : list (string * Player)) (g : Rng) :
  (forall id ps' p g', P id p -> isDead p = false ->
                       P id (fst (ai_sheep id ps' p g'))) ->
  all_players P ps ->
  all_players P (fst (ai_pass sheepIds ps g)).
Proof.
  intros Hstep. revert ps g.
  induction sheepIds as [|k rest IH]; intros ps g Hall; simpl; [exact Hall|].
  destruct (get_player k ps) as [sheep|] eqn:Hget; [|now apply IH].
  destruct (isDead sheep) eqn:Hd; [now apply IH|].
  pose proof (Hstep k ps sheep g (Hall _ _ (get_player_In _ _ _ Hget)) Hd) as H.
  destruct (ai_sheep k ps sheep g) as [sheep' g1]. simpl in H.
  apply IH. now apply all_set_player.
Qed.

Lemma on_connection_players (id : string) (world : World) (g : Rng) :
  players (fst (fst (on_connection id world g)))
  = set_player id (connected_player g) (players world).
Proof.
  unfold on_connection, connected_player.
  destruct (getRandomSpawn g) as [spawnPos g1].
  destruct (random g1) as [r g2] eqn:Er. cbn [fst snd players].
  now rewrite Er.
Qed.

Lemma on_message_players (id : string) (parsed : option json) (world : World) :
  players (on_message id parsed world) = players world.
Proof.
  unfold on_message. destruct parsed as [[]|]; try reflexivity;
    destruct (is_input_type _); try reflexivity;
    destruct (inputStates world !! id); try reflexivity;
    destruct (prop _ "key") as [[]|]; try reflexivity;
    destruct (prop _ "pressed") as [[]|]; try reflexivity;
    destruct (hasOwnProperty _ _); reflexivity.
Qed.

Lemma createAISheep_suffix (id : string) (pers : Personality) (g : Rng) :
  rng_suffix (snd (createAISheep id pers g)) g.
Proof.
  unfold createAISheep, random. cbn [snd].
  repeat apply rng_suffix_tail. apply rng_suffix_refl.
Qed.

Lemma create_all_valid (P : string -> Player -> Prop) (indices : list nat)
  (ps : list (string * Player)) (g : Rng) :
  (forall id pers g', valid_rng g' ->
                      P id (fst (createAISheep id pers g'))) ->
  valid_rng g -> all_players P ps ->
  all_players P (fst (create_all indices ps g)).
Proof.
  intros Hnew. revert ps g.
  induction indices as [|i rest IH]; intros ps g Hv Hall; [exact Hall|].
  cbn [create_all]. set (pers := nth _ _ _).
  pose proof (Hnew (ai_sheep_id i) pers g Hv) as H.
  pose proof (createAISheep_suffix (ai_sheep_id i) pers g) as Hs.
  destruct (createAISheep (ai_sheep_id i) pers g) as [sheep g1].
  cbn [fst snd] in *.
  apply IH; [eapply rng_suffix_valid; eassumption|].
  now apply all_set_player.
Qed.

(** Induction over the runs of the server, for a property of records. *)
Lemma reachable_all (P : string -> Player -> Prop) :
  (forall id pers g, valid_rng g -> P id (fst (createAISheep id pers g))) ->
  (forall id g, ~ In id aiSheepIds -> valid_rng g ->
                P id (connected_player g)) ->
  (forall world g, reachable world -> valid_rng g ->
                   all_players P (players world) ->
                   all_players P (players (fst (fst (tick world g))))) ->
  forall world, reachable world -> all_players P (players world).
Proof.
  intros Hnew Hconn Htick world Hreach.
  induction Hreach as [g Hv|world world' Hreach IH Hstep].
  - unfold initial_world. cbn [players].
    apply create_all_valid; [exact Hnew|exact Hv|]. intros id p [].
  - destruct Hstep as [world g Hv|world id g Hv Hid|world id parsed|world id Hid].
    + now apply Htick.
    + rewrite on_connection_players. apply all_set_player; auto.
    + now rewrite on_message_players.
    + cbn [on_close fst players]. now apply all_delete_player.
Qed.

(** A tick keeps a property that both loop bodies keep. *)
Lemma tick_all (P : string -> Player -> Prop) (world : World) (g : Rng) :
  (forall inputs id p g', P id p ->
                          P id (fst (fst (physics_entity inputs id p g')))) ->
  (forall id ps p g', P id p -> isDead p = false ->
                      P id (fst (ai_sheep id ps p g'))) ->
  all_players P (players world) ->
  all_players P (players (fst (fst (tick world g)))).
Proof.
  intros Hphys Hai Hall. rewrite tick_players.
  apply ai_pass_all; [exact Hai|].
  eapply physics_pass_all; [|exact Hall]. intros. now apply Hphys.
Qed.

(** ** What the loop bodies leave alone *)

Lemma lifecycle_check_frame (id : string) (player : Player) :
  let player' := fst (lifecycle_check id player) in
  position player' = position player /\ spawn player' = spawn player
  /\ velocityX player' = velocityX player
  /\ velocityY player' = velocityY player
  /\ velocityZ player' = velocityZ player
  /\ ai player' = ai player.
Proof.
  unfold lifecycle_check, fence_check, tilt_check, die.
  destruct (Rgeb _ _); [destruct (negb _)|];
    destruct (Rleb _ _); try destruct (tilt_death_condition _);
    cbn; repeat split; reflexivity.
Qed.

Lemma integrate_spawn (input : InputState) (player : Player) :
  spawn (integrate input player) = spawn player.
Proof.
  unfold integrate.
  destruct (car_friction _ _ _) as [vx2 vz2].
  destruct (clamp_speed vx2 vz2) as [vx3 vz3]. reflexivity.
Qed.

(** Gravity and the ground constraint (lines 190-213). *)
Lemma integrate_vertical (input : InputState) (player : Player) :
  let fallen :=
    y (position player) + (velocityY player - GRAVITY / TICK_RATE) in
  y (position (integrate input player))
  = (if Rltb fallen GROUND_Y then GROUND_Y else fallen)
  /\ velocityY (integrate input player)
     = (if Rltb fallen GROUND_Y then 0
        else velocityY player - GRAVITY / TICK_RATE).
Proof.
  unfold integrate.
  destruct (car_friction _ _ _) as [vx2 vz2].
  destruct (clamp_speed vx2 vz2) as [vx3 vz3].
  cbn [position velocityY y]. destruct (Rltb _ _); split; reflexivity.
Qed.

Lemma physics_dead_ai (player : Player) (g : Rng) :
  ai (fst (physics_dead player g)) = ai player
  /\ spawn (fst (physics_dead player g)) = spawn player.
Proof.
  unfold physics_dead. destruct (Rleb _ _); [|split; reflexivity].
  destruct (respawn_position player g) as [pos g1]. split; reflexivity.
Qed.

Lemma physics_entity_ai (inputs : gmap string InputState) (id : string)
  (player : Player) (g : Rng) :
  ai (fst (fst (physics_entity inputs id player g))) = ai player
  /\ spawn (fst (fst (physics_entity inputs id player g))) = spawn player.
Proof.
  destruct (isDead player) eqn:Hd.
  - rewrite physics_entity_dead by assumption. apply physics_dead_ai.
  - rewrite physics_entity_alive by assumption. cbn [fst].
    unfold physics_alive.
    destruct (lifecycle_check_frame id (integrate (default no_input (inputs !! id)) player))
      as (_ & Hs & _ & _ & _ & Ha).
    rewrite Ha, Hs, integrate_ai, integrate_spawn. split; reflexivity.
Qed.

(** ** Every entity rests on the ground (C9) *)

Lemma grounded_falls (p : Player) :
  grounded p ->
  Rltb (y (position p) + (velocityY p - GRAVITY / TICK_RATE)) GROUND_Y = true.
Proof.
  intros [Hy Hv]. rewrite Hy, Hv. apply Rltb_true.
  unfold GRAVITY, TICK_RATE, GROUND_Y. lra.
Qed.

Lemma physics_entity_grounded (inputs : gmap string InputState) (id : string)
  (p : Player) (g : Rng) :
  grounded p -> grounded (fst (fst (physics_entity inputs id p g))).
Proof.
  intros Hg. destruct (isDead p) eqn:Hd.
  - rewrite physics_entity_dead by assumption. cbn [fst].
    unfold physics_dead. destruct (Rleb _ _); [|exact Hg].
    unfold respawn_position, RESPAWN_AT_SPAWN, getRandomSpawn, random.
    destruct (spawn p); split; reflexivity.
  - rewrite physics_entity_alive by assumption. cbn [fst].
    unfold physics_alive, grounded.
    destruct (lifecycle_check_frame id (integrate (default no_input (inputs !! id)) p))
      as (Hpos & _ & _ & Hvy & _ & _).
    rewrite Hpos, Hvy.
    destruct (integrate_vertical (default no_input (inputs !! id)) p)
      as [Hy Hv].
    rewrite Hy, Hv, (grounded_falls p Hg). split; reflexivity.
Qed.

Lemma ai_sheep_grounded (id : string) (ps : list (string * Player))
  (p : Player) (g : Rng) :
  grounded p -> grounded (fst (ai_sheep id ps p g)).
Proof.
  intros [Hy Hv]. unfold grounded.
  destruct (ai_sheep_frame id ps p g) as (Hpos & _ & Hvy & _).
  now rewrite Hpos, Hvy.
Qed.

(** C9.  In every state the server reaches, hence at the end of every
    tick, every entity has position.y = GROUND_Y = 0.6 and velocity.y = 0.
    Gravity then takes the entity below GROUND_Y, where the ground
    constraint puts it back, so the guard of the scare override (a scared
    timid sheep with position.y > GROUND_Y after the position update) is
    false for every entity of every reachable state. *)
Theorem every_entity_stays_grounded
  (world : World) (id : string) (p : Player) :
  reachable world ->
  get_player id (players world) = Some p ->
  y (position p) = GROUND_Y
  /\ GROUND_Y = 0.6
  /\ velocityY p = 0
  /\ y (position p) + (velocityY p - GRAVITY / TICK_RATE) < GROUND_Y
  /\ scared_jump p (y (position p) + (velocityY p - GRAVITY / TICK_RATE))
     = false
  /\ (forall g : Rng,
        valid_rng g ->
        forall p' : Player,
          get_player id (players (fst (fst (tick world g)))) = Some p' ->
          y (position p') = GROUND_Y /\ velocityY p' = 0).
Proof.
  intros Hreach Hget.
  assert (Hall : forall world', reachable world' ->
                   all_players (fun _ q => grounded q) (players world')).
  { apply reachable_all.
    - intros k pers g _. unfold createAISheep, random. split; reflexivity.
    - intros k g _ _. unfold connected_player, getRandomSpawn, random.
      split; reflexivity.
    - intros world' g _ _. apply tick_all.
      + intros. now apply physics_entity_grounded.
      + intros. now apply ai_sheep_grounded. }
  pose proof (Hall world Hreach id p (get_player_In _ _ _ Hget)) as Hg.
  pose proof (grounded_falls p Hg) as Hfall.
  destruct Hg as [Hy Hv].
  split; [exact Hy|]. split; [reflexivity|]. split; [exact Hv|].
  split; [now apply Rltb_true|]. split.
  - unfold scared_jump, Rgtb. apply Rltb_true in Hfall.
    replace (Rltb GROUND_Y _) with false; [apply andb_false_r|].
    symmetry. apply Rltb_false. lra.
  - intros g Hv' p' Hget'.
    apply (Hall (fst (fst (tick world g)))
             (reachable_step _ _ Hreach (step_tick world g Hv')) id p').
    now apply get_player_In.
Qed.

(** ** The avoidance timer (C10) *)

(** C10.  In every state the server reaches, every entity with AI fields
    has aiAvoidTimer = 0: createAISheep sets it to 0 and nothing writes it.
    The guard of the random-walk re-roll therefore reduces to
    aiTimer <= 0 for every personality, timid included. *)
Theorem aiAvoidTimer_always_zero
  (world : World) (id : string) (p : Player) (st : AIState) :
  reachable world ->
  get_player id (players world) = Some p ->
  ai p = Some st ->
  aiAvoidTimer st = 0
  /\ (forall timer : R, reroll_condition st timer = Rleb timer 0).
Proof.
  intros Hreach Hget Hai.
  assert (Hzero : aiAvoidTimer st = 0).
  { revert st Hai.
    apply (reachable_all
             (fun _ q => forall st, ai q = Some st -> aiAvoidTimer st = 0))
      with (world := world) (id := id); [| | |exact Hreach|].
    - intros k pers g _ st. unfold createAISheep, random. cbn [fst ai].
      now intros [= <-].
    - intros k g _ _ st. unfold connected_player. cbn [ai]. discriminate.
    - intros world' g _ _. apply tick_all.
      + intros inputs k q g' Hq st.
        destruct (physics_entity_ai inputs k q g') as [-> _]. apply Hq.
      + intros k ps q g' Hq _ st.
        destruct (ai q) as [st0|] eqn:Hst0.
        * destruct (ai_sheep_shape k ps q st0 g' Hst0) as (st' & -> & Hav & _).
          unfold heading_to_motion. cbn [ai]. intros [= <-].
          rewrite Hav. now apply Hq.
        * unfold ai_sheep. rewrite Hst0. cbn [fst]. rewrite Hst0. discriminate.
    - now apply get_player_In. }
  split; [exact Hzero|].
  intros timer. unfold reroll_condition. rewrite Hzero.
  replace (Rleb 0 0) with true by (symmetry; apply Rleb_true; lra).
  rewrite orb_true_r. apply andb_true_r.
Qed.

(** ** Well-formed stores *)

Lemma nodupb_sound (l : list string) : nodupb l = true -> List.NoDup l.
Proof.
  induction l as [|h t IH]; simpl; intros H; [constructor|].
  apply andb_prop in H as [Hh Ht]. constructor; [|now apply IH].
  intros Hin. apply negb_true_iff in Hh.
  assert (existsb (String.eqb h) t = true); [|congruence].
  apply existsb_exists. exists h. split; [assumption|apply String.eqb_refl].
Qed.

Lemma aiSheepIds_NoDup : List.NoDup aiSheepIds.
Proof. apply nodupb_sound. vm_compute. reflexivity. Qed.

Lemma reachable_ai_no_input (world : World) :
  reachable world ->
  forall id : string, In id aiSheepIds -> inputStates world !! id = None.
Proof.
  intros Hreach. induction Hreach as [g Hv|world world' Hreach IH Hstep];
    intros k Hk.
  - apply lookup_empty.
  - destruct Hstep as [world g Hv|world id g Hv Hid|world id parsed|world id Hid].
    + rewrite tick_inputStates. now apply IH.
    + unfold on_connection.
      destruct (getRandomSpawn g) as [spawnPos g1].
      destruct (random g1) as [r g2]. cbn [fst inputStates].
      rewrite lookup_insert_ne by congruence. now apply IH.
    + specialize (IH k Hk). unfold on_message.
      destruct parsed as [data|]; [|exact IH].
      destruct data; try exact IH;
        destruct (is_input_type _); try exact IH;
        destruct (inputStates world !! id) as [record|] eqn:Hrec; try exact IH;
        destruct (prop _ "key") as [[]|]; try exact IH;
        destruct (prop _ "pressed") as [[]|]; try exact IH;
        destruct (hasOwnProperty _ _); try exact IH;
        cbn [inputStates]; rewrite lookup_insert_ne by congruence; exact IH.
    + cbn [on_close fst inputStates].
      rewrite lookup_delete_ne by congruence. now apply IH.
Qed.

Lemma reachable_NoDup (world : World) :
  reachable world -> List.NoDup (ids (players world)).
Proof.
  intros Hreach. induction Hreach as [g Hv|world world' Hreach IH Hstep].
  - unfold initial_world. cbn [players].
    assert (Hgen : forall indices ps g',
               List.NoDup (ids ps) ->
               List.NoDup (ids (fst (create_all indices ps g')))).
    { induction indices as [|i rest IHi]; intros ps g' Hnd; [exact Hnd|].
      cbn [create_all]. destruct (createAISheep _ _ g') as [sheep g1].
      apply IHi. now apply NoDup_set_player. }
    apply Hgen. constructor.
  - destruct Hstep as [world g Hv|world id g Hv Hid|world id parsed|world id Hid].
    + now rewrite tick_ids.
    + rewrite on_connection_players. now apply NoDup_set_player.
    + now rewrite on_message_players.
    + cbn [on_close fst players]. now apply NoDup_delete_player.
Qed.
(** ** Planar speed in the runs of the server (C1) *)

Lemma moveSpeed_bound (p : Personality) : 0 <= moveSpeed p <= 1.1.
Proof. destruct p; unfold moveSpeed; lra. Qed.

(** The push of the AI controller raises the speed by at most
    [ACCELERATION * 1.1]. *)
Lemma heading_to_motion_speed (sheep : Player) (st : AIState) :
  planar_speed (heading_to_motion sheep st)
  <= planar_speed sheep + ACCELERATION * 1.1.
Proof.
  unfold planar_speed, heading_to_motion. cbn [velocityX velocityZ].
  set (rot := rotation sheep + _).
  pose proof (moveSpeed_bound (personality st)) as Hm.
  set (k := ACCELERATION * moveSpeed (personality st)).
  replace (sin rot * ACCELERATION * moveSpeed (personality st))
    with (sin rot * k) by (unfold k; ring).
  replace (cos rot * ACCELERATION * moveSpeed (personality st))
    with (cos rot * k) by (unfold k; ring).
  pose proof (norm_triangle (velocityX sheep) (velocityZ sheep)
                (sin rot * k) (cos rot * k)) as Htri.
  assert (Hk : 0 <= k) by (unfold k, ACCELERATION; nra).
  rewrite thrust_norm in Htri by assumption.
  unfold k, ACCELERATION in *. nra.
Qed.

Lemma ai_sheep_speed (id : string) (ps : list (string * Player))
  (sheep : Player) (g : Rng) :
  planar_speed (fst (ai_sheep id ps sheep g))
  <= planar_speed sheep + ACCELERATION * 1.1.
Proof.
  destruct (ai sheep) as [st|] eqn:Hai.
  - destruct (ai_sheep_shape id ps sheep st g Hai) as (st' & -> & _).
    apply heading_to_motion_speed.
  - unfold ai_sheep. rewrite Hai. cbn [fst]. unfold ACCELERATION. lra.
Qed.

Lemma physics_alive_speed (id : string) (input : InputState) (p : Player) :
  planar_speed (fst (physics_alive id input p))
  = planar_speed (integrate input p).
Proof.
  unfold physics_alive, planar_speed.
  destruct (lifecycle_check_frame id (integrate input p))
    as (_ & _ & Hx & _ & Hz & _).
  now rewrite Hx, Hz.
Qed.

(** After the first loop: at most 1.1 for every record, and at most
    [FRICTION * 1.1] for an alive record without input. *)
Lemma physics_entity_speed (inputs : gmap string InputState) (id : string)
  (p : Player) (g : Rng) :
  planar_speed p <= 1.1 ->
  let p' := fst (fst (physics_entity inputs id p g)) in
  planar_speed p' <= 1.1
  /\ (inputs !! id = None -> isDead p' = false ->
      planar_speed p' <= FRICTION * 1.1).
Proof.
  intros Hp. cbv zeta. destruct (isDead p) eqn:Hd.
  - rewrite physics_entity_dead by assumption. cbn [fst].
    unfold physics_dead. destruct (Rleb _ _).
    + destruct (respawn_position p g) as [pos g1].
      unfold random, planar_speed. cbn [fst velocityX velocityZ].
      rewrite sqrt_zero_vector. unfold FRICTION. split; intros; lra.
    + cbn [fst]. split; [exact Hp|]. cbn [isDead]. congruence.
  - rewrite physics_entity_alive by assumption. cbn [fst].
    rewrite physics_alive_speed.
    destruct (integrate_speed (default no_input (inputs !! id)) p)
      as (_ & H1 & H2).
    unfold FRICTION, ACCELERATION in *. split; [lra|].
    intros Hnone _.
    assert (H3 : planar_speed (integrate (default no_input (inputs !! id)) p)
                 <= 0.95 * planar_speed p)
      by (apply H2; now rewrite Hnone).
    lra.
Qed.

(** The second loop visits each id once, so each sheep is pushed once. *)
Lemma ai_pass_speed (sheepIds : list string) (ps : list (string * Player))
  (g : Rng) :
  List.NoDup sheepIds ->
  all_players (fun id p =>
                 planar_speed p <= 1.1
                 /\ (In id sheepIds -> isDead p = false ->
                     planar_speed p <= FRICTION * 1.1)) ps ->
  all_players (fun _ p => planar_speed p <= 1.1) (fst (ai_pass sheepIds ps g)).
Proof.
  revert ps g. induction sheepIds as [|k rest IH]; intros ps g Hnd Hall.
  - intros id p Hin. now apply (Hall id p).
  - inversion Hnd as [|? ? Hk Hrest]; subst.
    assert (Hweak : all_players (fun id p =>
                 planar_speed p <= 1.1
                 /\ (In id rest -> isDead p = false ->
                     planar_speed p <= FRICTION * 1.1)) ps).
    { intros id p Hin. destruct (Hall id p Hin) as [H1 H2].
      split; [exact H1|]. intros Hr. apply H2. now right. }
    cbn [ai_pass].
    destruct (get_player k ps) as [sheep|] eqn:Hget; [|now apply IH].
    destruct (isDead sheep) eqn:Hd; [now apply IH|].
    pose proof (ai_sheep_speed k ps sheep g) as Hs.
    destruct (ai_sheep k ps sheep g) as [sheep' g1]. cbn [fst] in Hs.
    apply IH; [exact Hrest|].
    apply all_set_player; [exact Hweak|].
    destruct (Hall k sheep (get_player_In _ _ _ Hget)) as [_ H2].
    specialize (H2 (or_introl eq_refl) Hd).
    unfold FRICTION, ACCELERATION in *. split; [lra|]. intros Hin. tauto.
Qed.

Lemma tick_speed (world : World) (g : Rng) :
  reachable world ->
  all_players (fun _ p => planar_speed p <= 1.1) (players world) ->
  all_players (fun _ p => planar_speed p <= 1.1)
              (players (fst (fst (tick world g)))).
Proof.
  intros Hreach Hall. rewrite tick_players.
  apply ai_pass_speed; [apply aiSheepIds_NoDup|].
  eapply physics_pass_all; [|exact Hall].
  intros id p g' _ _ Hp. cbv beta in Hp.
  destruct (physics_entity_speed (inputStates world) id p g' Hp) as [H1 H2].
  split; [exact H1|]. intros Hin. apply H2.
  now apply reachable_ai_no_input.
Qed.

Lemma reachable_speed (world : World) :
  reachable world ->
  all_players (fun _ p => planar_speed p <= 1.1) (players world).
Proof.
  apply reachable_all.
  - intros k pers g _. unfold createAISheep, random, planar_speed.
    cbn [fst velocityX velocityZ]. rewrite sqrt_zero_vector. lra.
  - intros id g _ _. unfold connected_player, planar_speed.
    cbn [velocityX velocityZ]. rewrite sqrt_zero_vector. lra.
  - intros world' g Hreach _. now apply tick_speed.
Qed.

(** C1.  After the integration of an alive entity in a tick its planar
    speed sqrt(velocityX^2 + velocityZ^2) is at most MAX_SPEED = 1.5, from
    any state.  In the runs of the server the bound also holds for every
    entity at the state broadcast that ends a tick, AI entities included:
    the AI controller pushes after the clamp, but friction keeps the speed
    of a run at or below 1.1. *)
Theorem planar_speed_at_most_max
  (world : World) (g : Rng) (id : string) (p : Player) :
  reachable world ->
  valid_rng g ->
  get_player id (players (fst (fst (tick world g)))) = Some p ->
  planar_speed p <= MAX_SPEED
  /\ MAX_SPEED = 1.5
  /\ planar_speed p <= 1.1
  /\ (forall (input : InputState) (q : Player),
        planar_speed (integrate input q) <= MAX_SPEED
        /\ planar_speed (fst (physics_alive id input q)) <= MAX_SPEED).
Proof.
  intros Hreach Hv Hget.
  assert (Hp : planar_speed p <= 1.1).
  { apply (reachable_speed (fst (fst (tick world g)))
             (reachable_step _ _ Hreach (step_tick world g Hv)) id p).
    now apply get_player_In. }
  unfold MAX_SPEED. split; [lra|]. split; [reflexivity|].
  split; [exact Hp|]. intros input q. rewrite physics_alive_speed.
  destruct (integrate_speed input q) as (H & _). unfold MAX_SPEED in H.
  split; exact H.
Qed.

(** ** An entity at rest *)

Lemma car_friction_zero (yaw : R) : car_friction yaw 0 0 = (0, 0).
Proof. unfold car_friction. f_equal; ring. Qed.

Lemma clamp_speed_zero : clamp_speed 0 0 = (0, 0).
Proof.
  unfold clamp_speed. rewrite sqrt_zero_vector. unfold Rgtb, MAX_SPEED.
  Rcompare. reflexivity.
Qed.

Lemma Rabs_zero_small (bound : R) : 0 < bound -> Rltb (Rabs 0) bound = true.
Proof. intros H. rewrite Rabs_R0. now apply Rltb_true. Qed.

(** Without input, the integrator leaves an entity at rest on the ground
    where it is. *)
Lemma integrate_still (p : Player) :
  still p -> grounded p ->
  still (integrate no_input p)
  /\ x (position (integrate no_input p)) = x (position p)
  /\ z (position (integrate no_input p)) = z (position p).
Proof.
  intros (Hvx & Hvz & Hav & Hrx & Hrz & Hax & Haz) Hg.
  pose proof (grounded_falls p Hg) as Hfall.
  assert (Hjump : scared_jump p
            (y (position p) + (velocityY p - GRAVITY / TICK_RATE)) = false).
  { unfold scared_jump, Rgtb. apply Rltb_true in Hfall.
    replace (Rltb GROUND_Y _) with false; [apply andb_false_r|].
    symmetry. apply Rltb_false. lra. }
  unfold still, integrate, no_input. cbn [w a s d andb negb].
  rewrite Hvx, Hvz, Hav, Hrx, Hrz, Hax, Haz.
  replace (0 * ANGULAR_FRICTION) with 0 by ring.
  rewrite !Rplus_0_r. rewrite car_friction_zero, clamp_speed_zero.
  cbn [y]. rewrite Hjump, Hfall.
  cbn [position velocityX velocityZ angularVelocity rotationX rotationZ
       angularVelocityX angularVelocityZ x z].
  rewrite ?or_zero_id.
  repeat match goal with
  | |- context [if ?c then _ else _] => destruct c
  end;
  repeat split; try reflexivity; try ring; unfold TILT_RECOVERY_FORCE,
    TILT_RECOVERY_DAMPING; try lra.
Qed.

Lemma TILT_DEATH_RAD_pos : 0 < TILT_DEATH_RAD.
Proof.
  unfold TILT_DEATH_RAD, toRadians, TILT_DEATH_DEGREES.
  pose proof PI_RGT_0. lra.
Qed.

(** An entity at rest inside the fence survives the tick. *)
Lemma physics_alive_still (id : string) (p : Player) :
  still p -> grounded p -> isDead p = false ->
  planar_distance (position p) < FENCE_RADIUS ->
  physics_alive id no_input p = (integrate no_input p, []).
Proof.
  intros Hs Hg Hd Hin.
  destruct (integrate_still p Hs Hg) as ((_ & _ & _ & Hrx & Hrz & _) & Hx & Hz).
  unfold physics_alive, lifecycle_check.
  rewrite fence_check_inside
    by (unfold planar_distance in *; now rewrite Hx, Hz).
  unfold tilt_check, tilt_death_condition, Rgtb.
  rewrite Hrx, Hrz, or_zero_id, Rabs_R0.
  replace (Rltb TILT_DEATH_RAD 0) with false
    by (symmetry; apply Rltb_false; pose proof TILT_DEATH_RAD_pos; lra).
  cbn [orb]. rewrite andb_false_r. now destruct (Rleb _ _).
Qed.

(** From rest, the push of the AI controller is the whole speed. *)
Lemma heading_to_motion_from_rest (sheep : Player) (st : AIState) :
  velocityX sheep = 0 -> velocityZ sheep = 0 ->
  planar_speed (heading_to_motion sheep st)
  = ACCELERATION * moveSpeed (personality st).
Proof.
  intros Hx Hz. unfold planar_speed, heading_to_motion.
  cbn [velocityX velocityZ]. rewrite Hx, Hz.
  set (rot := rotation sheep + _).
  replace (0 + sin rot * ACCELERATION * moveSpeed (personality st))
    with (sin rot * (ACCELERATION * moveSpeed (personality st))) by ring.
  replace (0 + cos rot * ACCELERATION * moveSpeed (personality st))
    with (cos rot * (ACCELERATION * moveSpeed (personality st))) by ring.
  apply thrust_norm.
  pose proof (moveSpeed_bound (personality st)). unfold ACCELERATION. nra.
Qed.

Lemma moveSpeed_pos (p : Personality) : 0 < moveSpeed p.
Proof. destruct p; unfold moveSpeed; lra. Qed.

(** Under the order of the specification the push would go through
    friction before the tick ends. *)
Lemma spec_order_speed (inputs : gmap string InputState) (id : string)
  (ps : list (string * Player)) (p : Player) (st : AIState) (g : Rng) :
  inputs !! id = None -> ai p = Some st ->
  velocityX p = 0 -> velocityZ p = 0 ->
  planar_speed (SpecOrder.entity_tick inputs id ps p g)
  <= FRICTION * (ACCELERATION * moveSpeed (personality st)).
Proof.
  intros Hnone Hai Hx Hz. unfold SpecOrder.entity_tick.
  destruct (ai_sheep_shape id ps p st g Hai) as (st' & Heq & _ & Hpers).
  destruct (ai_sheep id ps p g) as [sheep1 g1]. cbn [fst] in Heq. subst sheep1.
  rewrite physics_alive_speed, Hnone. cbn [default].
  destruct (integrate_speed no_input (heading_to_motion p st')) as (_ & _ & H).
  specialize (H eq_refl eq_refl).
  rewrite heading_to_motion_from_rest in H by assumption.
  now rewrite Hpers in H.
Qed.

(** What the game loop does to an alive AI entity: the integrator with
    friction and clamp first, the AI controller on its outcome second. *)
Lemma tick_alive_sheep (world : World) (g : Rng) (id : string) (p : Player)
  (st : AIState) :
  In id aiSheepIds -> get_player id (players world) = Some p ->
  isDead p = false -> ai p = Some st ->
  let p1 := fst (physics_alive id (default no_input (inputStates world !! id)) p) in
  (isDead p1 = false ->
   exists st' : AIState,
     get_player id (players (fst (fst (tick world g))))
     = Some (heading_to_motion p1 st')
     /\ personality st' = personality st)
  /\ (isDead p1 = true ->
      get_player id (players (fst (fst (tick world g)))) = Some p1).
Proof.
  intros Hid Hget Hd Hai p1.
  destruct (physics_pass_get (inputStates world) (players world) g id p Hget)
    as (g' & _ & Hp & _).
  rewrite physics_entity_alive in Hp by assumption. cbn [fst] in Hp.
  fold p1 in Hp. rewrite tick_players. split; intros Hd1.
  - destruct (ai_pass_get_alive aiSheepIds _
                (snd (fst (physics_pass (inputStates world) (players world) g)))
                id p1 aiSheepIds_NoDup Hid Hp Hd1) as (ps' & g1 & _ & Hfinal).
    assert (Hai1 : ai p1 = Some st).
    { unfold p1, physics_alive.
      destruct (lifecycle_check_frame id
                  (integrate (default no_input (inputStates world !! id)) p))
        as (_ & _ & _ & _ & _ & Ha).
      now rewrite Ha, integrate_ai. }
    destruct (ai_sheep_shape id ps' p1 st g1 Hai1) as (st' & Heq & _ & Hpers).
    exists st'. rewrite Hfinal, Heq. now split.
  - rewrite ai_pass_get_skipped; [exact Hp|].
    right. exists p1. now split.
Qed.

(** ** The initial world *)

Lemma createAISheep_shape (id : string) (pers : Personality) (g : Rng) :
  valid_rng g ->
  let p := fst (createAISheep id pers g) in
  still p /\ grounded p /\ isDead p = false
  /\ planar_distance (position p) < FENCE_RADIUS
  /\ exists st : AIState, ai p = Some st /\ personality st = pers.
Proof.
  intros Hv. unfold createAISheep, random, still, grounded. cbn.
  unfold rng_tail. pose proof (Hv 1%nat) as H1.
  repeat split; try reflexivity.
  - rewrite polar_distance; unfold FENCE_RADIUS, SPAWN_RADIUS; nra.
  - eexists. split; reflexivity.
Qed.

Lemma create_all_ids (indices : list nat) (ps : list (string * Player))
  (g : Rng) (k : string) :
  In k (ids ps) \/ In k (map ai_sheep_id indices) ->
  In k (ids (fst (create_all indices ps g))).
Proof.
  revert ps g. induction indices as [|i rest IH]; intros ps g H.
  - cbn in *. tauto.
  - cbn [create_all]. destruct (createAISheep _ _ g) as [sheep g1].
    apply IH. rewrite ids_set_player_In. cbn [map In] in H.
    destruct H as [H|[H|H]]; auto.
Qed.

(** Every AI sheep starts alive, at rest on the ground, inside the fence. *)
Lemma initial_world_sheep (g : Rng) (id : string) :
  valid_rng g -> In id aiSheepIds ->
  exists p : Player,
    get_player id (players (initial_world g)) = Some p
    /\ still p /\ grounded p /\ isDead p = false
    /\ planar_distance (position p) < FENCE_RADIUS
    /\ exists st : AIState, ai p = Some st.
Proof.
  intros Hv Hid. unfold initial_world. cbn [players].
  destruct (get_player id (fst (create_all (seq 0 AI_SHEEP_COUNT) [] g)))
    as [p|] eqn:Hget.
  - exists p. split; [reflexivity|].
    pose proof (create_all_valid
                  (fun _ q => still q /\ grounded q /\ isDead q = false
                              /\ planar_distance (position q) < FENCE_RADIUS
                              /\ exists st : AIState, ai q = Some st)
                  (seq 0 AI_SHEEP_COUNT) [] g) as Hall.
    apply (Hall) with (id := id); [| exact Hv | intros ? ? [] |].
    + intros k pers g' Hv'.
      destruct (createAISheep_shape k pers g' Hv')
        as (H1 & H2 & H3 & H4 & st & H5 & _).
      repeat split; try assumption; try apply H1; try apply H2. now exists st.
    + now apply get_player_In.
  - exfalso. apply get_player_ids in Hget. apply Hget.
    apply create_all_ids. right. exact Hid.
Qed.

Lemma zero_rng_valid : valid_rng zero_rng.
Proof. intros n. unfold zero_rng. lra. Qed.

Lemma first_sheep_id : In "ai-sheep-0" aiSheepIds.
Proof.
  change "ai-sheep-0" with (ai_sheep_id 0).
  with_strategy transparent [aiSheepIds AI_SHEEP_COUNT]
    (unfold aiSheepIds, AI_SHEEP_COUNT).
  apply in_map, in_seq. lia.
Qed.

(** ** The AI controller runs after the integrator (C2) *)

(** An AI sheep at rest ends the tick at the speed of the push, which the
    order of the specification would have put through friction. *)
Lemma tick_differs_from_spec_order (world : World) (g : Rng) (id : string)
  (p : Player) (st : AIState) :
  In id aiSheepIds -> inputStates world !! id = None ->
  get_player id (players world) = Some p ->
  still p -> grounded p -> isDead p = false ->
  planar_distance (position p) < FENCE_RADIUS ->
  ai p = Some st ->
  exists sheep' : Player,
    get_player id (players (fst (fst (tick world g)))) = Some sheep'
    /\ planar_speed sheep' = ACCELERATION * moveSpeed (personality st)
    /\ forall (ps : list (string * Player)) (g' : Rng),
         planar_speed (SpecOrder.entity_tick (inputStates world) id ps p g')
         < planar_speed sheep'.
Proof.
  intros Hid Hnone Hget Hs Hg Hd Hin Hai.
  destruct (tick_alive_sheep world g id p st Hid Hget Hd Hai) as [Halive _].
  rewrite Hnone in Halive. cbn [default] in Halive.
  rewrite physics_alive_still in Halive by assumption. cbn [fst] in Halive.
  destruct (Halive (eq_trans (integrate_isDead no_input p) Hd))
    as (st' & Hfinal & Hpers).
  destruct (integrate_still p Hs Hg) as ((Hx & Hz & _) & _).
  exists (heading_to_motion (integrate no_input p) st').
  split; [exact Hfinal|].
  rewrite heading_to_motion_from_rest by assumption. rewrite Hpers.
  split; [reflexivity|]. intros ps g'.
  destruct Hs as (Hvx & Hvz & _).
  pose proof (spec_order_speed (inputStates world) id ps p st g'
                Hnone Hai Hvx Hvz) as Hspec.
  pose proof (moveSpeed_pos (personality st)).
  unfold FRICTION, ACCELERATION in *. nra.
Qed.



(** ** More invariants of the runs *)

Lemma ids_delete_player (id k : string) (ps : list (string * Player)) :
  k <> id -> In k (ids ps) -> In k (ids (delete_player id ps)).
Proof.
  intros Hne. induction ps as [|[k' q] rest IH]; cbn; [tauto|].
  destruct (String.eqb k' id) eqn:E.
  - apply String.eqb_eq in E. subst k'. intros [H|H]; [congruence|auto].
  - cbn. intros [H|H]; auto.
Qed.

(** The ids of [aiSheepIds] always hold a record with AI fields, so the
    second loop never meets a record without them. *)
Lemma reachable_ai_records (world : World) (id : string) :
  reachable world -> In id aiSheepIds ->
  exists (p : Player) (st : AIState),
    get_player id (players world) = Some p /\ ai p = Some st.
Proof.
  intros Hreach Hid.
  assert (Hids : In id (ids (players world))).
  { induction Hreach as [g Hv|world world' Hreach IH Hstep].
    - unfold initial_world. cbn [players]. apply create_all_ids. now right.
    - destruct Hstep
        as [world g Hv|world k g Hv Hk|world k parsed|world k Hk].
      + now rewrite tick_ids.
      + rewrite on_connection_players, ids_set_player_In. now right.
      + now rewrite on_message_players.
      + cbn [on_close fst players]. apply ids_delete_player; congruence. }
  assert (Hall : all_players (fun k q => In k aiSheepIds ->
                                         exists st, ai q = Some st)
                             (players world)).
  { apply reachable_all; [| | |exact Hreach].
    - intros k pers g _ _. unfold createAISheep, random. cbn [fst ai]. eauto.
    - intros k g Hk _ Hin. contradiction.
    - intros world' g _ _. apply tick_all.
      + intros inputs k q g' Hq Hin.
        destruct (physics_entity_ai inputs k q g') as [-> _]. auto.
      + intros k ps q g' Hq _ Hin. destruct (Hq Hin) as [st Hst].
        destruct (ai_sheep_shape k ps q st g' Hst) as (st' & -> & _).
        unfold heading_to_motion. cbn [ai]. eauto. }
  destruct (get_player id (players world)) as [p|] eqn:Hget.
  - destruct (Hall id p (get_player_In _ _ _ Hget) Hid) as [st Hst]. eauto.
  - apply get_player_ids in Hget. contradiction.
Qed.

(** Stored spawn points lie at ground height, so a respawn at the stored
    point is a respawn at that very point. *)
Lemma reachable_spawn_on_ground (world : World) (id : string) (p : Player)
  (sp : Vec3) :
  reachable world -> get_player id (players world) = Some p ->
  spawn p = Some sp -> y sp = GROUND_Y.
Proof.
  intros Hreach Hget. revert sp.
  apply (reachable_all (fun _ q => forall sp, spawn q = Some sp ->
                                              y sp = GROUND_Y))
    with (world := world) (id := id); [| | |exact Hreach|].
  - intros k pers g _ sp. unfold createAISheep, random. cbn [fst spawn].
    discriminate.
  - intros k g _ _ sp. unfold connected_player, getRandomSpawn, random.
    cbn [fst spawn]. now intros [= <-].
  - intros world' g _ _. apply tick_all.
    + intros inputs k q g' Hq sp.
      destruct (physics_entity_ai inputs k q g') as [_ ->]. apply Hq.
    + intros k ps q g' Hq _ sp.
      destruct (ai_sheep_frame k ps q g') as (_ & -> & _). apply Hq.
  - now apply get_player_In.
Qed.

(** ** The bound at the broadcast is a property of runs *)

Lemma car_friction_ahead (v : R) : car_friction 0 0 v = (0, v * FRICTION).
Proof. unfold car_friction. rewrite sin_0, cos_0. f_equal; ring. Qed.

Lemma clamp_speed_fast (v : R) :
  MAX_SPEED < v -> clamp_speed 0 v = (0, MAX_SPEED).
Proof.
  intros Hv. unfold clamp_speed, Rgtb, MAX_SPEED in *.
  replace (0 ^ 2 + v ^ 2) with (v * v) by ring.
  rewrite sqrt_square by lra.
  replace (Rltb 1.5 v) with true by (symmetry; apply Rltb_true; lra).
  replace (Rltb v 0.01) with false by (symmetry; apply Rltb_false; lra).
  f_equal; field; lra.
Qed.

Lemma atan2_ahead : atan2 0 1 = 0.
Proof.
  unfold atan2. replace (Rltb 0 1) with true
    by (symmetry; apply Rltb_true; lra).
  replace (0 / 1) with 0 by field. apply atan_0.
Qed.

Lemma lifecycle_check_rotation (id : string) (player : Player) :
  rotation (fst (lifecycle_check id player)) = rotation player.
Proof.
  unfold lifecycle_check, fence_check, tilt_check, die.
  destruct (Rgeb _ _); [destruct (negb _)|];
    destruct (Rleb _ _); try destruct (tilt_death_condition _); reflexivity.
Qed.

Lemma racer_after_integrator (id : string) :
  let p1 := fst (physics_alive id no_input racer) in
  rotation p1 = 0 /\ velocityX p1 = 0 /\ velocityZ p1 = MAX_SPEED
  /\ ai p1 = ai racer.
Proof.
  cbv zeta. unfold physics_alive.
  destruct (lifecycle_check_frame id (integrate no_input racer))
    as (_ & _ & Hx & _ & Hz & Ha).
  rewrite lifecycle_check_rotation, Hx, Hz, Ha, integrate_ai.
  rewrite integrate_rotation.
  assert (Hrot : yaw_after no_input racer = 0)
    by (unfold yaw_after, no_input, racer; cbn; ring).
  destruct (integrate_velocity no_input racer) as (k & _ & Hk & Hv).
  rewrite (Hk eq_refl eq_refl) in Hv. cbv zeta in Hv.
  rewrite integrate_rotation, Hrot in Hv.
  cbn [racer velocityX velocityZ] in Hv.
  rewrite !Rmult_0_r, !Rplus_0_r, car_friction_ahead in Hv.
  cbn [fst snd] in Hv.
  rewrite clamp_speed_fast in Hv by (unfold FRICTION, MAX_SPEED; lra).
  cbn [fst snd] in Hv.
  split; [exact Hrot|].
  assert (Hjump : scared_jump racer
            (y (position racer) + (velocityY racer - GRAVITY / TICK_RATE))
          = false) by reflexivity.
  destruct Hv as [[Hvx Hvz]|[Hvx Hvz]].
  - now rewrite Hvx, Hvz.
  - exfalso. revert Hvz. unfold integrate.
    destruct (car_friction _ _ _) as [vx2 vz2] eqn:Efr.
    destruct (clamp_speed vx2 vz2) as [vx3 vz3] eqn:Ecl.
    cbn [velocityZ y]. rewrite Hjump. intros ->.
    assert (Hrot' : rotation racer + angularVelocity racer * ANGULAR_FRICTION = 0)
      by (cbn; ring).
    cbn [no_input w a s d andb negb] in Efr. rewrite Hrot' in Efr.
    cbn [racer velocityX velocityZ] in Efr.
    rewrite !Rplus_0_r, car_friction_ahead in Efr.
    injection Efr as <- <-.
    rewrite clamp_speed_fast in Ecl by (unfold FRICTION, MAX_SPEED; lra).
    injection Ecl as _ H. unfold MAX_SPEED in H. lra.
Qed.

(** From a state outside the runs the push of the AI controller, which
    comes after the clamp, does take the speed above [MAX_SPEED]: the bound
    at the broadcast rests on friction, not on the clamp. *)
Lemma push_after_clamp_outside_runs (ps : list (string * Player)) (g : Rng) :
  planar_speed
    (fst (ai_sheep "ai-sheep-3" ps
            (fst (physics_alive "ai-sheep-3" no_input racer)) g))
  = MAX_SPEED + ACCELERATION * moveSpeed hyper.
Proof.
  destruct (racer_after_integrator "ai-sheep-3") as (Hrot & Hx & Hz & Ha).
  set (p1 := fst (physics_alive "ai-sheep-3" no_input racer)) in *.
  unfold ai_sheep. rewrite Ha. cbn [racer ai].
  unfold ai_personality. cbn [personality aiTimer].
  replace (Rleb 5 0) with false by (symmetry; apply Rleb_false; lra).
  unfold random_walk, reroll_condition. cbn [aiTimer personality aiAvoidTimer].
  rewrite or_zero_id.
  replace (Rleb (5 - 1 / TICK_RATE) 0) with false
    by (symmetry; apply Rleb_false; unfold TICK_RATE; lra).
  cbn [andb fst]. unfold heading_to_motion, planar_speed, set_aiTimer.
  cbn [aiTargetAngle personality velocityX velocityZ].
  rewrite Hrot, Hx, Hz. rewrite Rminus_diag, sin_0, cos_0, atan2_ahead.
  replace (0 + 0 * turnSpeed hyper) with 0 by ring. rewrite sin_0, cos_0.
  replace ((0 + 0 * ACCELERATION * moveSpeed hyper) ^ 2
           + (MAX_SPEED + 1 * ACCELERATION * moveSpeed hyper) ^ 2)
    with ((MAX_SPEED + ACCELERATION * moveSpeed hyper)
          * (MAX_SPEED + ACCELERATION * moveSpeed hyper)) by ring.
  apply sqrt_square. unfold MAX_SPEED, ACCELERATION, moveSpeed. lra.
Qed.

(** ** The properties on the example states *)

Lemma planar_speed_at_most_max_witness :
  exists p : Player,
    get_player "ai-sheep-0"
      (players (fst (fst (tick (initial_world zero_rng) zero_rng)))) = Some p
    /\ planar_speed p <= MAX_SPEED.
Proof.
  destruct (initial_world_sheep zero_rng "ai-sheep-0" zero_rng_valid
              first_sheep_id) as (p & Hget & Hs & Hg & Hd & Hin & st & Hai).
  destruct (tick_differs_from_spec_order (initial_world zero_rng) zero_rng
              "ai-sheep-0" p st first_sheep_id (lookup_empty _) Hget Hs Hg Hd
              Hin Hai) as (sheep' & Hfinal & _).
  exists sheep'. split; [exact Hfinal|].
  apply (planar_speed_at_most_max (initial_world zero_rng) zero_rng
           "ai-sheep-0" sheep'
           (reachable_initial zero_rng zero_rng_valid) zero_rng_valid Hfinal).
Defined.


Lemma straggler_outside :
  FENCE_RADIUS
  <= planar_distance
       (position
          (integrate
             (default no_input (inputStates straggler_world !! "player-1"))
             straggler)).
Proof.
  change (inputStates straggler_world) with (∅ : gmap string InputState).
  rewrite lookup_empty. cbn [default].
  assert (Hs : still straggler) by (repeat split; reflexivity).
  assert (Hg : grounded straggler) by (split; reflexivity).
  destruct (integrate_still straggler Hs Hg) as (_ & Hx & Hz).
  unfold planar_distance. rewrite Hx, Hz. cbn [straggler position x z].
  replace (100.5 ^ 2 + 0 ^ 2) with (100.5 * 100.5) by ring.
  rewrite sqrt_square; unfold FENCE_RADIUS; lra.
Qed.

Lemma fence_death_once_witness :
  exists p' : Player,
    get_player "player-1" (players (fst (fst (tick straggler_world zero_rng))))
    = Some p'
    /\ isDead p' = true
    /\ respawnTimer p' = 3
    /\ deaths_of "player-1" (snd (tick straggler_world zero_rng))
       = [MsgDeath "player-1" (position p')].
Proof.
  assert (Hnd : List.NoDup (ids (players straggler_world))).
  { repeat constructor. intros []. }
  destruct (proj1 (fence_death_once straggler_world zero_rng "player-1"
                     straggler Hnd eq_refl) eq_refl straggler_outside)
    as (p' & H1 & H2 & H3 & _ & H5).
  exists p'. auto.
Defined.

(** The scared sheep of the example is beyond the death angle after the
    integrator. *)
Lemma scared_sheep_tilted :
  TILT_DEATH_RAD < Rabs (rotationX (integrate no_input scared_sheep))
  /\ y (position (integrate no_input scared_sheep)) <= GROUND_Y + 0.001.
Proof.
  assert (Hg : grounded scared_sheep) by (split; reflexivity).
  pose proof (grounded_falls scared_sheep Hg) as Hfall.
  destruct (integrate_vertical no_input scared_sheep) as [Hy _].
  rewrite Hfall in Hy. split; [|rewrite Hy; lra].
  assert (Hjump : scared_jump scared_sheep
            (y (position scared_sheep)
             + (velocityY scared_sheep - GRAVITY / TICK_RATE)) = false).
  { unfold scared_jump, Rgtb. apply Rltb_true in Hfall.
    replace (Rltb GROUND_Y _) with false; [apply andb_false_r|].
    symmetry. apply Rltb_false. lra. }
  unfold integrate.
  destruct (car_friction _ _ _) as [vx2 vz2].
  destruct (clamp_speed vx2 vz2) as [vx3 vz3].
  cbn [y position]. rewrite Hjump, Hfall. cbn [rotationX].
  rewrite !or_zero_id. cbn [scared_sheep rotationX angularVelocityX].
  replace (2 + 0 * 0.9) with 2 by ring.
  replace (Rltb (Rabs 2) 0.01) with false
    by (symmetry; apply Rltb_false; rewrite Rabs_right; lra).
  cbn [andb]. rewrite Rabs_right by lra.
  unfold TILT_DEATH_RAD, toRadians, TILT_DEATH_DEGREES.
  pose proof PI_4. lra.
Qed.

Lemma scared_timid_never_tilt_dies_witness :
  let fenced := fst (fence_check "ai-sheep-0" (integrate no_input scared_sheep)) in
  tilt_check "ai-sheep-0" fenced = (fenced, []).
Proof.
  assert (Hs : 0 < scaredTimer scared_state) by (cbn; lra).
  exact (proj1 (scared_timid_never_tilt_dies "ai-sheep-0" no_input
                  scared_sheep scared_state eq_refl eq_refl Hs)).
Defined.

Lemma respawn_resets_physics_witness :
  exists (p' : Player) (g' : Rng),
    physics_entity ∅ "player-1" late_corpse zero_rng = (p', g', [])
    /\ velocityX p' = 0 /\ isDead p' = false.
Proof.
  assert (Ht : respawnTimer late_corpse - 1 / TICK_RATE <= 0)
    by (cbn; unfold TICK_RATE; lra).
  destruct (respawn_resets_physics ∅ "player-1" late_corpse zero_rng
              eq_refl Ht) as (p' & g' & H & _ & Hx & _ & _ & _ & _ & _ & _ & Hd & _).
  exists p', g'. auto.
Defined.

Lemma dead_entity_only_counts_down_witness :
  get_player "player-1" (players (fst (fst (tick corpse_world zero_rng))))
  = Some (count_down corpse).
Proof.
  assert (Ht : 0 < respawnTimer corpse - 1 / TICK_RATE)
    by (cbn; unfold TICK_RATE; lra).
  exact (proj1 (dead_entity_only_counts_down corpse_world zero_rng "player-1"
                  corpse eq_refl eq_refl Ht)).
Defined.

Lemma message_handler_updates_one_flag_witness :
  exists record' : InputState,
    inputStates (on_message "player-1" (Some press_w) lobby) !! "player-1"
    = Some record'
    /\ get_key record' "w" = Some true.
Proof.
  pose proof (proj2 (proj2 (message_handler_updates_one_flag "player-1" lobby))
                press_w "w" true eq_refl) as H.
  cbv zeta in H. destruct H as (_ & _ & H).
  change (inputStates lobby) with (<["player-1" := no_input]> (∅ : gmap string InputState)) in H at 1.
  rewrite lookup_insert_eq in H.
  destruct H as (record' & H1 & H2 & _). exists record'. auto.
Defined.

Lemma every_entity_stays_grounded_witness :
  exists p : Player,
    get_player "ai-sheep-0" (players (initial_world zero_rng)) = Some p
    /\ y (position p) = GROUND_Y /\ velocityY p = 0.
Proof.
  destruct (initial_world_sheep zero_rng "ai-sheep-0" zero_rng_valid
              first_sheep_id) as (p & Hget & _).
  exists p. split; [exact Hget|].
  destruct (every_entity_stays_grounded (initial_world zero_rng) "ai-sheep-0" p
              (reachable_initial zero_rng zero_rng_valid) Hget)
    as (H1 & _ & H2 & _).
  auto.
Defined.

Lemma aiAvoidTimer_always_zero_witness :
  exists (p : Player) (st : AIState),
    get_player "ai-sheep-0" (players (initial_world zero_rng)) = Some p
    /\ ai p = Some st /\ aiAvoidTimer st = 0.
Proof.
  destruct (initial_world_sheep zero_rng "ai-sheep-0" zero_rng_valid
              first_sheep_id) as (p & Hget & _ & _ & _ & _ & st & Hai).
  exists p, st. split; [exact Hget|]. split; [exact Hai|].
  exact (proj1 (aiAvoidTimer_always_zero (initial_world zero_rng) "ai-sheep-0"
                  p st (reachable_initial zero_rng zero_rng_valid) Hget Hai)).
Defined.

(** * Further properties of the server *)

(** ** The messages of a tick *)

Lemma lifecycle_check_cases (id : string) (p : Player) :
  isDead p = false ->
  lifecycle_check id p = (p, []) \/ lifecycle_check id p = die id p.
Proof.
  intros Hd. unfold lifecycle_check, fence_check.
  destruct (Rgeb _ _).
  - rewrite Hd. cbn [negb]. right. unfold die.
    rewrite tilt_check_dead by reflexivity. reflexivity.
  - unfold tilt_check.
    destruct (Rleb _ _); [destruct (tilt_death_condition p)|];
      [right|left|left]; reflexivity.
Qed.

Lemma physics_entity_only_deaths (inputs : gmap string InputState)
  (id : string) (p : Player) (g : Rng) :
  Forall (fun m => exists pos, m = MsgDeath id pos)
         (snd (physics_entity inputs id p g)).
Proof.
  destruct (isDead p) eqn:Hd.
  - rewrite physics_entity_dead by assumption. constructor.
  - rewrite physics_entity_alive by assumption. cbn [snd]. unfold physics_alive.
    destruct (lifecycle_check_cases id
                (integrate (default no_input (inputs !! id)) p)) as [-> | ->];
      [now rewrite integrate_isDead|constructor|].
    repeat constructor. eauto.
Qed.

Lemma physics_pass_only_deaths (inputs : gmap string InputState)
  (ps : list (string * Player)) (g : Rng) :
  Forall (fun m => exists id pos, m = MsgDeath id pos)
         (snd (physics_pass inputs ps g)).
Proof.
  revert g. induction ps as [|[k q] rest IH]; intros g; cbn [physics_pass].
  - constructor.
  - pose proof (physics_entity_only_deaths inputs k q g) as H.
    destruct (physics_entity inputs k q g) as [[q' g1] deaths].
    specialize (IH g1).
    destruct (physics_pass inputs rest g1) as [[rest' g2] deaths'].
    cbn [snd] in *. apply Forall_app. split; [|exact IH].
    eapply List.Forall_impl; [|exact H]. intros m [pos ->]. eauto.
Qed.

Lemma snapshot_ids (ps : list (string * Player)) :
  map snap_id (map snapshot ps) = ids ps.
Proof.
  induction ps as [|[k q] rest IH]; cbn; [reflexivity|]. now rewrite IH.
Qed.

(** X1.  The messages of a tick are death events followed by exactly one
    state message.  The state message has one snapshot per entity of the
    store, in the order of the store, the ids being those the store had
    before the tick; each snapshot carries the position, the rotation
    {x: rotationX, y: rotation, z: rotationZ} and isDead of the record as the
    tick leaves it.  A tick neither adds nor removes an entity and leaves
    the input records alone. *)
Theorem tick_broadcasts_every_entity (world : World) (g : Rng) :
  let world' := fst (fst (tick world g)) in
  exists deaths : list Message,
    snd (tick world g) = deaths ++ [MsgState (map snapshot (players world'))]
    /\ Forall (fun m => exists id pos, m = MsgDeath id pos) deaths
    /\ map snap_id (map snapshot (players world')) = ids (players world)
    /\ length (map snapshot (players world')) = length (players world)
    /\ inputStates world' = inputStates world
    /\ forall (id : string) (p : Player),
         In (id, p) (players world') ->
         In (mkSnapshot id (position p)
               (mkVec3 (rotationX p) (rotation p) (rotationZ p))
               (isDead p) (option_map personality (ai p)))
            (map snapshot (players world')).
Proof.
  cbv zeta.
  pose proof (tick_ids world g) as Hids.
  pose proof (tick_inputStates world g) as Hin.
  pose proof (physics_pass_only_deaths (inputStates world) (players world) g)
    as Hdeaths.
  unfold tick in *.
  destruct (physics_pass _ _ _) as [[ps1 g1] deaths].
  destruct (ai_pass aiSheepIds ps1 g1) as [ps2 g2]. cbn [fst snd players] in *.
  exists deaths. split; [reflexivity|]. split; [exact Hdeaths|].
  split; [now rewrite snapshot_ids|]. split.
  - rewrite length_map. unfold ids in Hids.
    rewrite <- (length_map fst ps2), Hids. apply length_map.
  - split; [exact Hin|]. intros id p Hp.
    apply in_map_iff. exists (id, p). split; [|exact Hp].
    unfold snapshot. now rewrite !or_zero_id.
Qed.


Lemma ai_frame_refl (p : Player) : ai_frame p p.
Proof. unfold ai_frame. tauto. Qed.

Lemma ai_frame_trans (p1 p2 p3 : Player) :
  ai_frame p1 p2 -> ai_frame p2 p3 -> ai_frame p1 p3.
Proof. unfold ai_frame. intuition congruence. Qed.

Lemma ai_pass_get_frame (sheepIds : list string) (ps : list (string * Player))
  (g : Rng) (id : string) (p : Player) :
  get_player id ps = Some p ->
  exists p' : Player,
    get_player id (fst (ai_pass sheepIds ps g)) = Some p'
    /\ ai_frame p' p
    /\ (~ In id sheepIds -> p' = p).
Proof.
  revert ps g p. induction sheepIds as [|k rest IH]; intros ps g p Hget.
  - exists p. cbn. split; [exact Hget|]. split; [apply ai_frame_refl|tauto].
  - cbn [ai_pass].
    assert (Hskip : exists p' : Player,
               get_player id (fst (ai_pass rest ps g)) = Some p'
               /\ ai_frame p' p /\ (~ In id (k :: rest) -> p' = p)).
    { destruct (IH ps g p Hget) as (p' & H1 & H2 & H3).
      exists p'. split; [exact H1|]. split; [exact H2|].
      intros Hn. apply H3. cbn in Hn. tauto. }
    destruct (get_player k ps) as [sheep|] eqn:Hk; [|exact Hskip].
    destruct (isDead sheep) eqn:Hd; [exact Hskip|].
    pose proof (ai_sheep_frame k ps sheep g) as Hfr.
    destruct (ai_sheep k ps sheep g) as [sheep' g1]. cbn [fst] in Hfr.
    destruct (String.eqb k id) eqn:Ek.
    + apply String.eqb_eq in Ek. subst k.
      assert (sheep = p) by congruence. subst sheep.
      destruct (IH (set_player id sheep' ps) g1 sheep' (get_set_same _ _ _))
        as (p' & H1 & H2 & H3).
      exists p'. split; [exact H1|]. split.
      * eapply ai_frame_trans; [exact H2|]. unfold ai_frame. tauto.
      * intros Hn. cbn in Hn. tauto.
    + apply String.eqb_neq in Ek.
      destruct (IH (set_player k sheep' ps) g1 p) as (p' & H1 & H2 & H3).
      * rewrite get_set_other by congruence. exact Hget.
      * exists p'. split; [exact H1|]. split; [exact H2|].
        intros Hn. apply H3. cbn in Hn. tauto.
Qed.

(** ** Deaths, waits and respawns, tick by tick *)

(** X2.  A tick emits a death event for an id exactly when the entity was
    alive before the tick and is dead after it, and then exactly one, with
    the position of the dead record and respawnTimer set to RESPAWN_TIME,
    even when the fence check and the tilt check both apply.  An entity
    that was dead, or that survives, gets none. *)
Theorem death_event_iff_entity_dies
  (world : World) (g : Rng) (id : string) (p : Player) :
  List.NoDup (ids (players world)) ->
  get_player id (players world) = Some p ->
  exists p' : Player,
    get_player id (players (fst (fst (tick world g)))) = Some p'
    /\ ((isDead p = false /\ isDead p' = true
         /\ respawnTimer p' = RESPAWN_TIME
         /\ deaths_of id (snd (tick world g)) = [MsgDeath id (position p')])
        \/ ((isDead p = true \/ isDead p' = false)
            /\ deaths_of id (snd (tick world g)) = [])).
Proof.
  intros Hnd Hget.
  destruct (physics_pass_get (inputStates world) (players world) g id p Hget)
    as (g' & _ & Hp & Hdeaths).
  specialize (Hdeaths Hnd). rewrite tick_players, tick_deaths, Hdeaths.
  destruct (ai_pass_get_frame aiSheepIds _
              (snd (fst (physics_pass (inputStates world) (players world) g)))
              id _ Hp) as (p' & Hfinal & Hframe & _).
  exists p'. split; [exact Hfinal|].
  destruct Hframe as (Hpos & _ & _ & Hdead & Htimer & _).
  destruct (isDead p) eqn:Hd.
  - right. split; [now left|]. now rewrite physics_entity_dead.
  - rewrite physics_entity_alive in * by assumption. cbn [fst snd] in *.
    unfold physics_alive in *.
    destruct (lifecycle_check_cases id
                (integrate (default no_input (inputStates world !! id)) p)
                (eq_trans (integrate_isDead _ p) Hd)) as [Heq|Heq];
      rewrite Heq in *; cbn [fst snd die] in *.
    + right. split; [|reflexivity]. right.
      now rewrite Hdead, integrate_isDead.
    + left. cbn [isDead respawnTimer position] in *.
      repeat split; try assumption.
      unfold deaths_of. cbn. rewrite String.eqb_refl. now rewrite Hpos.
Qed.

Lemma death_event_iff_entity_dies_witness :
  exists p' : Player,
    get_player "player-1" (players (fst (fst (tick corpse_world zero_rng))))
    = Some p'
    /\ deaths_of "player-1" (snd (tick corpse_world zero_rng)) = [].
Proof.
  assert (Hnd : List.NoDup (ids (players corpse_world))).
  { repeat constructor. intros []. }
  destruct (death_event_iff_entity_dies corpse_world zero_rng "player-1"
              corpse Hnd eq_refl) as (p' & H1 & [(H2 & _)|(_ & H2)]).
  - discriminate H2.
  - exists p'. auto.
Defined.

(** X3.  The AI loop writes the yaw, the yaw rate, the planar velocity and
    the AI fields of alive AI sheep, and nothing else: for every record of
    the store, position, spawn, vertical velocity, isDead, respawnTimer,
    tilts and tilt rates are as before the loop; a record whose id is not
    an AI sheep id, or that is dead, is not changed at all. *)
Theorem ai_loop_writes_only_heading_and_thrust
  (ps : list (string * Player)) (g : Rng) (id : string) (p : Player) :
  get_player id ps = Some p ->
  exists p' : Player,
    get_player id (fst (ai_pass aiSheepIds ps g)) = Some p'
    /\ ai_frame p' p
    /\ (~ In id aiSheepIds -> p' = p)
    /\ (isDead p = true -> p' = p)
    /\ ids (fst (ai_pass aiSheepIds ps g)) = ids ps.
Proof.
  intros Hget.
  destruct (ai_pass_get_frame aiSheepIds ps g id p Hget) as (p' & H1 & H2 & H3).
  exists p'. repeat split; try assumption; try apply H2.
  - intros Hd.
    rewrite ai_pass_get_skipped in H1 by (right; exists p; now split).
    congruence.
  - apply ai_pass_ids.
Qed.

Lemma ai_loop_writes_only_heading_and_thrust_witness :
  exists p' : Player,
    get_player "player-1"
      (fst (ai_pass aiSheepIds (players straggler_world) zero_rng)) = Some p'
    /\ position p' = position straggler.
Proof.
  destruct (ai_loop_writes_only_heading_and_thrust (players straggler_world)
              zero_rng "player-1" straggler eq_refl) as (p' & H1 & H2 & _).
  exists p'. split; [exact H1|apply H2].
Defined.

Lemma tick_dead_waiting (world : World) (g : Rng) (id : string) (p : Player) :
  get_player id (players world) = Some p -> isDead p = true ->
  0 < respawnTimer p - 1 / TICK_RATE ->
  get_player id (players (fst (fst (tick world g)))) = Some (count_down p).
Proof.
  intros Hget Hd Ht. rewrite tick_players.
  destruct (physics_pass_get (inputStates world) (players world) g id p Hget)
    as (g' & _ & Hp & _).
  rewrite physics_entity_dead, physics_dead_waiting in Hp by assumption.
  rewrite ai_pass_get_skipped; [exact Hp|].
  right. exists (count_down p). now split.
Qed.

Lemma iter_count_down (n : nat) (p : Player) :
  respawnTimer (Nat.iter n count_down p) = respawnTimer p - INR n / TICK_RATE
  /\ isDead (Nat.iter n count_down p) = isDead p
  /\ position (Nat.iter n count_down p) = position p.
Proof.
  induction n as [|n (IH1 & IH2 & IH3)].
  - cbn. repeat split. unfold TICK_RATE. lra.
  - rewrite S_INR, Nat.iter_succ. cbn [count_down respawnTimer isDead position].
    rewrite IH1. repeat split; try assumption. unfold TICK_RATE. lra.
Qed.

(** X4.  A dead entity with at most RESPAWN_TIME on its countdown stays as
    it is over n ticks whenever a full tick's worth of countdown,
    1 / TICK_RATE, is still left after them: after the n ticks its record
    is the record before with respawnTimer lowered n times by
    1 / TICK_RATE, at the same position and still dead. *)
Theorem dead_entity_waits_out_countdown
  (world : World) (draws : list Rng) (id : string) (p : Player) :
  get_player id (players world) = Some p ->
  isDead p = true ->
  respawnTimer p <= RESPAWN_TIME ->
  1 / TICK_RATE <= respawnTimer p - INR (length draws) / TICK_RATE ->
  let p' := Nat.iter (length draws) count_down p in
  get_player id (players (run_ticks world draws)) = Some p'
  /\ isDead p' = true
  /\ position p' = position p.
Proof.
  intros Hget Hd _ Ht. cbv zeta.
  destruct (iter_count_down (length draws) p) as (_ & H2 & H3).
  split; [|split; congruence].
  clear H2 H3. revert world p Hget Hd Ht.
  induction draws as [|g rest IH]; intros world p Hget Hd Ht.
  - exact Hget.
  - cbn [run_ticks length]. rewrite Nat.iter_succ_r.
    cbn [length] in Ht. rewrite S_INR in Ht.
    assert (Hpos : 0 <= INR (length rest)) by apply pos_INR.
    unfold TICK_RATE in *.
    apply IH.
    + apply tick_dead_waiting; try assumption. unfold TICK_RATE. lra.
    + exact Hd.
    + cbn [count_down respawnTimer]. unfold TICK_RATE. lra.
Qed.

Lemma dead_entity_waits_out_countdown_witness :
  get_player "player-1"
    (players (run_ticks corpse_world [zero_rng; zero_rng; zero_rng]))
  = Some (count_down (count_down (count_down corpse))).
Proof.
  assert (Hmax : respawnTimer corpse <= RESPAWN_TIME)
    by (cbn; unfold RESPAWN_TIME; lra).
  assert (Ht : 1 / TICK_RATE
               <= respawnTimer corpse
                  - INR (length [zero_rng; zero_rng; zero_rng]) / TICK_RATE)
    by (cbn; unfold TICK_RATE; lra).
  exact (proj1 (dead_entity_waits_out_countdown corpse_world
                  [zero_rng; zero_rng; zero_rng] "player-1" corpse
                  eq_refl eq_refl Hmax Ht)).
Defined.

Lemma physics_dead_respawn (p : Player) (g : Rng) :
  respawnTimer p - 1 / TICK_RATE <= 0 ->
  let p1 := fst (physics_dead p g) in
  isDead p1 = false /\ still p1 /\ grounded p1 /\ ai p1 = ai p
  /\ position p1 = fst (respawn_position p g).
Proof.
  intros Ht. unfold physics_dead.
  replace (Rleb _ _) with true by (symmetry; now apply Rleb_true).
  assert (Hy : y (fst (respawn_position p g)) = GROUND_Y).
  { unfold respawn_position, RESPAWN_AT_SPAWN, getRandomSpawn, random.
    now destruct (spawn p). }
  destruct (respawn_position p g) as [pos g1]. cbn [fst] in *.
  unfold random, still, grounded. cbn. tauto.
Qed.

(** X5.  A dead player (an id that is no AI sheep) whose countdown reaches
    0 or below in a tick ends that tick alive and at rest: zero planar and
    vertical velocity, zero yaw rate, zero tilt and tilt rate, on the
    ground, at the x and z of its stored spawn point when it has one. *)
Theorem respawned_player_rests_at_spawn
  (world : World) (g : Rng) (id : string) (p : Player) :
  ~ In id aiSheepIds ->
  get_player id (players world) = Some p ->
  isDead p = true ->
  respawnTimer p - 1 / TICK_RATE <= 0 ->
  exists p' : Player,
    get_player id (players (fst (fst (tick world g)))) = Some p'
    /\ isDead p' = false /\ still p' /\ grounded p'
    /\ forall sp : Vec3,
         spawn p = Some sp ->
         position p' = mkVec3 (x sp) GROUND_Y (z sp).
Proof.
  intros Hid Hget Hd Ht.
  destruct (physics_pass_get (inputStates world) (players world) g id p Hget)
    as (g' & _ & Hp & _).
  rewrite physics_entity_dead in Hp by assumption. cbn [fst] in Hp.
  destruct (physics_dead_respawn p g' Ht) as (H1 & H2 & H3 & _ & H5).
  exists (fst (physics_dead p g')). rewrite tick_players.
  rewrite ai_pass_get_skipped by now left.
  repeat split; try assumption; try apply H2; try apply H3.
  intros sp Hsp. rewrite H5. unfold respawn_position, RESPAWN_AT_SPAWN.
  now rewrite Hsp.
Qed.

Lemma player_1_no_sheep : ~ In "player-1" aiSheepIds.
Proof.
  intros Hin.
  assert (H : existsb (String.eqb "player-1") aiSheepIds = false)
    by (vm_compute; reflexivity).
  assert (H' : existsb (String.eqb "player-1") aiSheepIds = true).
  { apply existsb_exists. exists "player-1". split; [exact Hin|].
    apply String.eqb_refl. }
  congruence.
Qed.

Lemma respawned_player_rests_at_spawn_witness :
  exists p' : Player,
    get_player "player-1"
      (players (fst (fst (tick (mkWorld [("player-1", late_corpse)] ∅)
                               zero_rng)))) = Some p'
    /\ isDead p' = false /\ position p' = mkVec3 10 GROUND_Y 5.
Proof.
  pose proof player_1_no_sheep as Hid.
  assert (Ht : respawnTimer late_corpse - 1 / TICK_RATE <= 0)
    by (cbn; unfold TICK_RATE; lra).
  destruct (respawned_player_rests_at_spawn
              (mkWorld [("player-1", late_corpse)] ∅) zero_rng "player-1"
              late_corpse Hid eq_refl eq_refl Ht) as (p' & H1 & H2 & _ & _ & H5).
  exists p'. split; [exact H1|]. split; [exact H2|]. exact (H5 _ eq_refl).
Defined.

(** X6.  A dead AI sheep whose countdown reaches 0 or below in a tick is
    brought back by the first loop and pushed by the AI loop of the same
    tick: it ends the tick alive, on the ground, with planar speed exactly
    ACCELERATION * moveSpeed of its personality. *)
Theorem respawned_sheep_moves_at_once
  (world : World) (g : Rng) (id : string) (p : Player) (st : AIState) :
  In id aiSheepIds ->
  get_player id (players world) = Some p ->
  ai p = Some st ->
  isDead p = true ->
  respawnTimer p - 1 / TICK_RATE <= 0 ->
  exists p' : Player,
    get_player id (players (fst (fst (tick world g)))) = Some p'
    /\ isDead p' = false /\ grounded p'
    /\ planar_speed p' = ACCELERATION * moveSpeed (personality st)
    /\ 0 < planar_speed p'.
Proof.
  intros Hid Hget Hai Hd Ht.
  destruct (physics_pass_get (inputStates world) (players world) g id p Hget)
    as (g' & _ & Hp & _).
  rewrite physics_entity_dead in Hp by assumption. cbn [fst] in Hp.
  destruct (physics_dead_respawn p g' Ht) as (H1 & H2 & H3 & H4 & _).
  set (p1 := fst (physics_dead p g')) in *.
  destruct (ai_pass_get_alive aiSheepIds _
              (snd (fst (physics_pass (inputStates world) (players world) g)))
              id p1 aiSheepIds_NoDup Hid Hp H1) as (ps' & g1 & _ & Hfinal).
  rewrite Hai in H4.
  destruct (ai_sheep_shape id ps' p1 st g1 H4) as (st' & Heq & _ & Hpers).
  exists (heading_to_motion p1 st'). rewrite tick_players, Hfinal, Heq.
  destruct H2 as (Hx & Hz & _).
  rewrite heading_to_motion_from_rest, Hpers by assumption.
  pose proof (moveSpeed_pos (personality st)).
  repeat split; try assumption; try apply H3.
  unfold ACCELERATION. nra.
Qed.

Lemma respawned_sheep_moves_at_once_witness :
  exists p' : Player,
    get_player "ai-sheep-0"
      (players (fst (fst (tick late_sheep_world zero_rng)))) = Some p'
    /\ isDead p' = false /\ 0 < planar_speed p'.
Proof.
  assert (Ht : respawnTimer late_sheep - 1 / TICK_RATE <= 0)
    by (cbn; unfold TICK_RATE; lra).
  destruct (respawned_sheep_moves_at_once late_sheep_world zero_rng
              "ai-sheep-0" late_sheep _ first_sheep_id eq_refl eq_refl eq_refl
              Ht) as (p' & H1 & H2 & _ & _ & H5).
  exists p'. auto.
Defined.

(** ** Connections *)

Lemma get_delete_same (id : string) (ps : list (string * Player)) :
  get_player id (delete_player id ps) = None.
Proof.
  induction ps as [|[k q] rest IH]; cbn; [reflexivity|].
  destruct (String.eqb k id) eqn:E; [exact IH|]. cbn. now rewrite E.
Qed.

Lemma delete_player_absent (id : string) (ps : list (string * Player)) :
  ~ In id (ids ps) -> delete_player id ps = ps.
Proof.
  induction ps as [|[k q] rest IH]; cbn; [reflexivity|]. intros Hn.
  destruct (String.eqb k id) eqn:E.
  - apply String.eqb_eq in E. tauto.
  - f_equal. apply IH. tauto.
Qed.

Lemma delete_set_fresh (id : string) (p : Player)
  (ps : list (string * Player)) :
  ~ In id (ids ps) -> delete_player id (set_player id p ps) = ps.
Proof.
  induction ps as [|[k q] rest IH]; cbn; intros Hn.
  - now rewrite String.eqb_refl.
  - destruct (String.eqb k id) eqn:E.
    + apply String.eqb_eq in E. tauto.
    + cbn. rewrite E. f_equal. apply IH. tauto.
Qed.

Lemma connected_player_shape (g : Rng) :
  valid_rng g ->
  let p := connected_player g in
  isDead p = false /\ still p /\ grounded p
  /\ spawn p = Some (position p)
  /\ planar_distance (position p) < SPAWN_RADIUS
  /\ ai p = None.
Proof.
  intros Hv. destruct (getRandomSpawn_in_disk g Hv) as [Hy Hd].
  unfold connected_player, still, grounded. cbn. tauto.
Qed.

(** X7.  Accepting a connection stores, under the new id, a player that is
    alive, at rest, on the ground, within SPAWN_RADIUS of the centre, with
    that position as its stored spawn point, and an input record with no
    key pressed; every other player and input record is as before.  When
    the id is new, closing the connection afterwards gives back the world
    as it was. *)
Theorem connection_registers_one_player
  (id : string) (world : World) (g : Rng) :
  valid_rng g ->
  let world' := fst (fst (on_connection id world g)) in
  exists p : Player,
    get_player id (players world') = Some p
    /\ isDead p = false /\ still p /\ grounded p
    /\ spawn p = Some (position p)
    /\ planar_distance (position p) < SPAWN_RADIUS
    /\ inputStates world' !! id = Some no_input
    /\ (forall k : string,
          k <> id ->
          get_player k (players world') = get_player k (players world)
          /\ inputStates world' !! k = inputStates world !! k)
    /\ (~ In id (ids (players world)) -> inputStates world !! id = None ->
        fst (on_close id world') = world).
Proof.
  intros Hv. cbv zeta.
  pose proof (on_connection_players id world g) as Hps.
  assert (Hin : inputStates (fst (fst (on_connection id world g)))
                = <[id := no_input]> (inputStates world)).
  { unfold on_connection. destruct (getRandomSpawn g) as [sp g1].
    now destruct (random g1). }
  destruct (connected_player_shape g Hv) as (H1 & H2 & H3 & H4 & H5 & _).
  exists (connected_player g). rewrite Hps, Hin.
  split; [apply get_set_same|]. repeat split; try assumption;
    try apply H2; try apply H3.
  - apply lookup_insert_eq.
  - now apply get_set_other.
  - now apply lookup_insert_ne.
  - intros Hfresh Hnone. unfold on_close. cbn [fst]. rewrite Hps, Hin.
    rewrite delete_set_fresh by assumption.
    rewrite delete_insert_id by assumption. now destruct world.
Qed.

Lemma connection_registers_one_player_witness :
  exists p : Player,
    get_player "player-1"
      (players (fst (fst (on_connection "player-1" (initial_world zero_rng)
                            zero_rng)))) = Some p
    /\ isDead p = false.
Proof.
  destruct (connection_registers_one_player "player-1"
              (initial_world zero_rng) zero_rng zero_rng_valid)
    as (p & H1 & H2 & _).
  exists p. auto.
Defined.

Lemma delete_player_filter (id : string) (ps : list (string * Player)) :
  delete_player id ps
  = List.filter (fun kp => negb (String.eqb (fst kp) id)) ps.
Proof.
  induction ps as [|[k q] rest IH]; [reflexivity|].
  cbn [delete_player List.filter fst].
  destruct (String.eqb k id); cbn [negb]; now rewrite IH.
Qed.

(** X8.  Closing a connection, or an error on it, removes the player and
    the input record of that id and broadcasts one disconnect message for
    it; every other player and input record is as before, in the same
    order: the players left are the players before without the entries of
    that id, so a store that held the id once, between the entries before
    and after, holds those entries before followed by those after.  For an
    id the stores do not hold, the world is unchanged. *)
Theorem close_removes_one_player (id : string) (world : World) :
  let world' := fst (on_close id world) in
  get_player id (players world') = None
  /\ inputStates world' !! id = None
  /\ snd (on_close id world) = [MsgDisconnect id]
  /\ on_error id world = on_close id world
  /\ (forall k : string,
        k <> id ->
        get_player k (players world') = get_player k (players world)
        /\ inputStates world' !! k = inputStates world !! k)
  /\ players world'
     = List.filter (fun kp => negb (String.eqb (fst kp) id)) (players world)
  /\ (forall (before after : list (string * Player)) (p : Player),
        players world = before ++ (id, p) :: after ->
        ~ In id (ids before) -> ~ In id (ids after) ->
        players world' = before ++ after)
  /\ fst (on_close id world') = world'
  /\ (~ In id (ids (players world)) -> inputStates world !! id = None ->
      world' = world).
Proof.
  cbv zeta. unfold on_error, on_close. cbn [fst snd players inputStates].
  split; [apply get_delete_same|]. split; [apply lookup_delete_eq|].
  split; [reflexivity|]. split; [reflexivity|].
  split; [|split; [|split; [|split]]].
  - intros k Hk. split; [now apply get_delete_other|].
    now apply lookup_delete_ne.
  - apply delete_player_filter.
  - intros before after p Heq Hb Ha. rewrite Heq.
    clear Heq. induction before as [|[k q] rest IH].
    + cbn [app delete_player]. rewrite String.eqb_refl.
      now apply delete_player_absent.
    + cbn [app delete_player]. cbn [ids map fst In] in Hb.
      destruct (String.eqb k id) eqn:E.
      * apply String.eqb_eq in E. tauto.
      * f_equal. apply IH. unfold ids. tauto.
  - f_equal.
    + apply delete_player_absent. apply get_player_ids, get_delete_same.
    + apply delete_id, lookup_delete_eq.
  - intros Hfresh Hnone. rewrite delete_player_absent by assumption.
    rewrite delete_id by assumption. now destruct world.
Qed.

Lemma close_removes_one_player_witness :
  get_player "player-1" (players (fst (on_close "player-1" corpse_world)))
  = None.
Proof. exact (proj1 (close_removes_one_player "player-1" corpse_world)). Defined.

(** ** Input messages *)

Lemma set_key_idempotent (record : InputState) (key : string) (pressed : bool) :
  set_key (set_key record key pressed) key pressed = set_key record key pressed.
Proof.
  unfold set_key.
  destruct (String.eqb key "w") eqn:Ew; [reflexivity|].
  destruct (String.eqb key "a") eqn:Ea; [reflexivity|].
  destruct (String.eqb key "s") eqn:Es; [reflexivity|].
  destruct (String.eqb key "d") eqn:Ed; reflexivity.
Qed.

Lemma on_message_domain (id : string) (parsed : option json) (world : World)
  (k : string) :
  inputStates (on_message id parsed world) !! k = None
  <-> inputStates world !! k = None.
Proof.
  destruct parsed as [data|]; [|cbn; tauto].
  destruct (well_typed_input data) as [[key pressed]|] eqn:Hwt.
  - destruct (inputStates world !! id) as [record|] eqn:Hrec.
    + destruct (on_message_accepted id data world key pressed record Hwt Hrec)
        as [Heq _].
      rewrite Heq. cbn [inputStates]. destruct (String.eqb id k) eqn:E.
      * apply String.eqb_eq in E. subst k.
        rewrite lookup_insert_eq, Hrec. split; discriminate.
      * apply String.eqb_neq in E. now rewrite lookup_insert_ne.
    + assert (Hsame : on_message id (Some data) world = world).
      { unfold on_message. destruct data; try reflexivity;
          destruct (is_input_type _); try reflexivity; now rewrite Hrec. }
      rewrite Hsame. tauto.
  - rewrite (on_message_ignored id data world Hwt). tauto.
Qed.

Lemma on_message_idempotent (id : string) (parsed : option json)
  (world : World) :
  on_message id parsed (on_message id parsed world)
  = on_message id parsed world.
Proof.
  destruct parsed as [data|]; [|reflexivity].
  destruct (well_typed_input data) as [[key pressed]|] eqn:Hwt.
  - destruct (inputStates world !! id) as [record|] eqn:Hrec.
    + destruct (on_message_accepted id data world key pressed record Hwt Hrec)
        as [Heq _].
      rewrite Heq.
      destruct (on_message_accepted id data
                  (mkWorld (players world)
                     (<[id := set_key record key pressed]>
                        (inputStates world)))
                  key pressed (set_key record key pressed) Hwt
                  (lookup_insert_eq _ _ _)) as [Heq' _].
      rewrite Heq'. cbn [players inputStates].
      now rewrite set_key_idempotent, insert_insert_eq.
    + assert (Hsame : on_message id (Some data) world = world).
      { unfold on_message. destruct data; try reflexivity;
          destruct (is_input_type _); try reflexivity; now rewrite Hrec. }
      now rewrite !Hsame.
  - now rewrite !(on_message_ignored id data world Hwt).
Qed.

(** X9.  The message handler never adds or removes a player or an input
    record: after any message the players are the same and exactly the same
    ids have an input record.  Handling the same message twice is the same
    as handling it once. *)
Theorem message_handler_keeps_the_stores
  (id : string) (parsed : option json) (world : World) :
  let world' := on_message id parsed world in
  players world' = players world
  /\ (forall k : string,
        inputStates world' !! k = None <-> inputStates world !! k = None)
  /\ on_message id parsed world' = world'.
Proof.
  cbv zeta. split; [apply on_message_players|]. split.
  - intros k. apply on_message_domain.
  - apply on_message_idempotent.
Qed.

(** ** The client's keys and the server's input record *)




(** ** More invariants of the runs: tools *)

(** The death checks write [isDead] and [respawnTimer] only. *)
Lemma lifecycle_check_shape (id : string) (p : Player) :
  exists (dead : bool) (timer : R),
    fst (lifecycle_check id p)
    = mkPlayer (position p) (spawn p) (rotation p) (angularVelocity p)
               (velocityX p) (velocityY p) (velocityZ p) dead timer
               (rotationX p) (rotationZ p)
               (angularVelocityX p) (angularVelocityZ p) (ai p).
Proof.
  unfold lifecycle_check, fence_check, tilt_check, die.
  destruct p.
  destruct (Rgeb _ _); [destruct (negb _)|];
    destruct (Rleb _ _); try destruct (tilt_death_condition _);
    cbn; eexists _, _; reflexivity.
Qed.

(** An entity the death checks leave alive is inside the fence. *)
Lemma lifecycle_check_survivor (id : string) (p : Player) :
  isDead (fst (lifecycle_check id p)) = false ->
  planar_distance (position p) < FENCE_RADIUS.
Proof.
  unfold lifecycle_check, fence_check, Rgeb.
  destruct (Rleb FENCE_RADIUS _) eqn:E; [|now apply Rleb_false in E].
  destruct (isDead p) eqn:Hd; cbn [negb].
  - rewrite tilt_check_dead by assumption. cbn. congruence.
  - unfold die. rewrite tilt_check_dead by reflexivity. cbn. discriminate.
Qed.

Lemma ai_pass_all_in (P : string -> Player -> Prop) (sheepIds : list string)
  (ps : list (string * Player)) (g : Rng) :
  (forall id ps' p g', In id sheepIds -> P id p -> isDead p = false ->
                       P id (fst (ai_sheep id ps' p g'))) ->
  all_players P ps ->
  all_players P (fst (ai_pass sheepIds ps g)).
Proof.
  revert ps g. induction sheepIds as [|k rest IH]; intros ps g Hstep Hall;
    [exact Hall|].
  assert (Hstep' : forall id ps' p g', In id rest -> P id p ->
                     isDead p = false -> P id (fst (ai_sheep id ps' p g'))).
  { intros. apply Hstep; try assumption. now right. }
  cbn [ai_pass].
  destruct (get_player k ps) as [sheep|] eqn:Hget; [|now apply IH].
  destruct (isDead sheep) eqn:Hd; [now apply IH|].
  pose proof (Hstep k ps sheep g (or_introl eq_refl)
                (Hall _ _ (get_player_In _ _ _ Hget)) Hd) as H.
  destruct (ai_sheep k ps sheep g) as [sheep' g1]. cbn [fst] in H.
  apply IH; [exact Hstep'|]. now apply all_set_player.
Qed.

(** Induction over the runs, with the draws of each loop body valid. *)
Lemma reachable_all_valid (P : string -> Player -> Prop) :
  (forall g, valid_rng g -> all_players P (players (initial_world g))) ->
  (forall id g, ~ In id aiSheepIds -> valid_rng g ->
                P id (connected_player g)) ->
  (forall inputs id p g, valid_rng g -> P id p ->
                         P id (fst (fst (physics_entity inputs id p g)))) ->
  (forall id ps p g, In id aiSheepIds -> P id p -> isDead p = false ->
                     P id (fst (ai_sheep id ps p g))) ->
  forall world, reachable world -> all_players P (players world).
Proof.
  intros Hinit Hconn Hphys Hai world Hreach.
  induction Hreach as [g Hv|world world' Hreach IH Hstep]; [now apply Hinit|].
  destruct Hstep as [world g Hv|world id g Hv Hid|world id parsed|world id Hid].
  - rewrite tick_players. apply ai_pass_all_in; [exact Hai|].
    eapply physics_pass_all; [|exact IH].
    intros id p g' _ Hs Hp. apply Hphys; [|exact Hp].
    eapply rng_suffix_valid; eassumption.
  - rewrite on_connection_players. apply all_set_player; auto.
  - now rewrite on_message_players.
  - cbn [on_close fst players]. now apply all_delete_player.
Qed.

Lemma initial_world_all (P : string -> Player -> Prop) (g : Rng) :
  (forall id pers g', valid_rng g' -> P id (fst (createAISheep id pers g'))) ->
  valid_rng g -> all_players P (players (initial_world g)).
Proof.
  intros Hnew Hv. unfold initial_world. cbn [players].
  apply create_all_valid; [exact Hnew|exact Hv|]. intros id p [].
Qed.

(** ** Alive entities are inside the fence *)

Lemma physics_entity_inside (inputs : gmap string InputState) (id : string)
  (p : Player) (g : Rng) :
  valid_rng g -> inside_arena p ->
  inside_arena (fst (fst (physics_entity inputs id p g))).
Proof.
  intros Hv [Hin Hsp]. destruct (physics_entity_ai inputs id p g) as [_ Hspawn].
  split; [|now rewrite Hspawn]. clear Hspawn.
  destruct (isDead p) eqn:Hd.
  - rewrite physics_entity_dead by assumption. cbn [fst].
    unfold physics_dead. destruct (Rleb _ _); [|cbn; congruence].
    unfold respawn_position, RESPAWN_AT_SPAWN.
    destruct (spawn p) as [sp|] eqn:Hs.
    + cbn. intros _. specialize (Hsp sp eq_refl).
      unfold planar_distance, FENCE_RADIUS, SPAWN_RADIUS in *. cbn [x z]. lra.
    + destruct (getRandomSpawn_in_disk g Hv) as [_ Hdisk].
      destruct (getRandomSpawn g) as [pos g1]. cbn in *. intros _.
      unfold FENCE_RADIUS, SPAWN_RADIUS in *. lra.
  - rewrite physics_entity_alive by assumption. cbn [fst].
    unfold physics_alive. intros Halive.
    pose proof (lifecycle_check_survivor id _ Halive) as H.
    destruct (lifecycle_check_shape id
                (integrate (default no_input (inputs !! id)) p))
      as (dead & timer & ->). exact H.
Qed.

(** X11.  In every state the server reaches, every alive entity is
    strictly inside the fence (planar distance from the centre below
    FENCE_RADIUS), and every stored spawn point is inside the spawn disk:
    an entity that the integrator carries to the fence or beyond does not
    end the tick alive. *)
Theorem alive_entities_are_inside_the_fence
  (world : World) (id : string) (p : Player) :
  reachable world ->
  get_player id (players world) = Some p ->
  (isDead p = false -> planar_distance (position p) < FENCE_RADIUS)
  /\ (forall sp : Vec3,
        spawn p = Some sp -> planar_distance sp < SPAWN_RADIUS).
Proof.
  intros Hreach Hget.
  apply (reachable_all_valid (fun _ q => inside_arena q))
    with (world := world) (id := id); [| | | |exact Hreach|].
  - intros g Hv. apply initial_world_all; [|exact Hv].
    intros k pers g' Hv'.
    destruct (createAISheep_shape k pers g' Hv') as (_ & _ & _ & H & _).
    split; [intros _; exact H|]. unfold createAISheep, random. cbn. discriminate.
  - intros k g _ Hv.
    destruct (connected_player_shape g Hv) as (_ & _ & _ & Hs & Hd & _).
    split.
    + intros _. unfold FENCE_RADIUS, SPAWN_RADIUS in *. lra.
    + intros sp. rewrite Hs. now intros [= <-].
  - intros inputs k q g. apply physics_entity_inside.
  - intros k ps q g _ [Hin Hsp] _. unfold inside_arena.
    destruct (ai_sheep_frame k ps q g) as (-> & -> & _ & -> & _).
    now split.
  - now apply get_player_In.
Qed.

Lemma alive_entities_are_inside_the_fence_witness :
  exists p : Player,
    get_player "ai-sheep-0" (players (initial_world zero_rng)) = Some p
    /\ planar_distance (position p) < FENCE_RADIUS.
Proof.
  destruct (initial_world_sheep zero_rng "ai-sheep-0" zero_rng_valid
              first_sheep_id) as (p & Hget & _ & _ & Hd & _).
  exists p. split; [exact Hget|].
  exact (proj1 (alive_entities_are_inside_the_fence (initial_world zero_rng)
                  "ai-sheep-0" p
                  (reachable_initial zero_rng zero_rng_valid) Hget) Hd).
Defined.

(** ** How fast players move and turn *)

Lemma integrate_angularVelocity (input : InputState) (p : Player) :
  exists delta : R,
    Rabs delta <= TURN_ACCELERATION
    /\ angularVelocity (integrate input p)
       = (angularVelocity p + delta) * ANGULAR_FRICTION.
Proof.
  set (dir := if s input && negb (w input) then -1 else 1).
  exists ((if a input then TURN_ACCELERATION * dir else 0)
          - (if d input then TURN_ACCELERATION * dir else 0)).
  split.
  - unfold dir, TURN_ACCELERATION.
    destruct (a input), (d input), (s input && negb (w input));
      unfold Rabs; destruct (Rcase_abs _); lra.
  - unfold integrate.
    destruct (car_friction _ _ _) as [vx2 vz2].
    destruct (clamp_speed vx2 vz2) as [vx3 vz3]. cbn [angularVelocity].
    fold dir. destruct (a input), (d input); ring.
Qed.

Lemma physics_entity_player_limits (inputs : gmap string InputState)
  (id : string) (p : Player) (g : Rng) :
  within_player_limits p ->
  within_player_limits (fst (fst (physics_entity inputs id p g))).
Proof.
  intros [Hs Ha]. unfold within_player_limits.
  destruct (isDead p) eqn:Hd.
  - rewrite physics_entity_dead by assumption. cbn [fst].
    unfold physics_dead. destruct (Rleb _ _); [|now split].
    destruct (respawn_position p g) as [pos g1].
    unfold random, planar_speed. cbn [fst velocityX velocityZ angularVelocity].
    rewrite sqrt_zero_vector, Rabs_R0. lra.
  - rewrite physics_entity_alive by assumption. cbn [fst].
    set (input := default no_input (inputs !! id)).
    rewrite physics_alive_speed. unfold physics_alive.
    destruct (lifecycle_check_shape id (integrate input p))
      as (dead & timer & ->). cbn [angularVelocity].
    destruct (integrate_speed input p) as (_ & H1 & _).
    destruct (integrate_angularVelocity input p) as (delta & Hdelta & ->).
    unfold FRICTION, ACCELERATION, TURN_ACCELERATION, ANGULAR_FRICTION in *.
    split; [lra|].
    rewrite Rabs_mult, (Rabs_right 0.75) by lra.
    pose proof (Rabs_triang (angularVelocity p) delta). lra.
Qed.

(** X12.  In every state the server reaches, a player (an entity that is
    no AI sheep) has planar speed below 0.96 and yaw rate at most 0.045 in
    absolute value, whatever keys were pressed: thrust and friction balance
    near ACCELERATION * FRICTION / (1 - FRICTION) = 0.95, and 0.96 is
    below MAX_SPEED = 1.5. *)
Theorem player_speed_and_turn_limits
  (world : World) (id : string) (p : Player) :
  reachable world ->
  ~ In id aiSheepIds ->
  get_player id (players world) = Some p ->
  planar_speed p < 0.96
  /\ Rabs (angularVelocity p) <= 0.045
  /\ 0.96 < MAX_SPEED.
Proof.
  intros Hreach Hid Hget.
  assert (H : within_player_limits p).
  { revert Hid.
    apply (reachable_all_valid
             (fun k q => ~ In k aiSheepIds -> within_player_limits q))
      with (world := world) (id := id); [| | | |exact Hreach|].
    - intros g Hv. apply initial_world_all; [|exact Hv].
      intros k pers g' _ _. unfold createAISheep, random, within_player_limits,
        planar_speed. cbn [fst velocityX velocityZ angularVelocity].
      rewrite sqrt_zero_vector, Rabs_R0. lra.
    - intros k g _ _ _. unfold connected_player, within_player_limits,
        planar_speed. cbn [velocityX velocityZ angularVelocity].
      rewrite sqrt_zero_vector, Rabs_R0. lra.
    - intros inputs k q g _ Hq Hk. apply physics_entity_player_limits. auto.
    - intros k ps q g Hin _ _ Hk. contradiction.
    - now apply get_player_In. }
  destruct H as [H1 H2]. unfold MAX_SPEED.
  repeat split; try assumption; lra.
Qed.

Lemma one_player_world_reachable : reachable one_player_world.
Proof.
  eapply reachable_step.
  - apply (reachable_initial zero_rng zero_rng_valid).
  - apply step_connection; [apply zero_rng_valid|apply player_1_no_sheep].
Qed.

Lemma one_player_world_player :
  get_player "player-1" (players one_player_world)
  = Some (connected_player zero_rng).
Proof.
  unfold one_player_world. rewrite on_connection_players. apply get_set_same.
Qed.

Lemma player_speed_and_turn_limits_witness :
  planar_speed (connected_player zero_rng) < 0.96.
Proof.
  exact (proj1 (player_speed_and_turn_limits one_player_world "player-1"
                  (connected_player zero_rng) one_player_world_reachable
                  player_1_no_sheep one_player_world_player)).
Defined.

(** X13.  In every state the server reaches, the speed clamp never
    rescales: for every entity, whatever the yaw and whatever push of size
    at most ACCELERATION the tick starts with, the planar speed that
    friction leaves is below MAX_SPEED, so the clamp returns the velocity
    unchanged or, below 0.01, zero. *)
Theorem speed_clamp_never_rescales
  (world : World) (id : string) (p : Player) (yaw k : R) :
  reachable world ->
  get_player id (players world) = Some p ->
  Rabs k <= ACCELERATION ->
  let fr := car_friction yaw (velocityX p + sin yaw * k)
                         (velocityZ p + cos yaw * k) in
  sqrt (fst fr ^ 2 + snd fr ^ 2) < MAX_SPEED
  /\ (clamp_speed (fst fr) (snd fr) = fr
      \/ clamp_speed (fst fr) (snd fr) = (0, 0)).
Proof.
  intros Hreach Hget Hk fr.
  pose proof (reachable_speed world Hreach id p (get_player_In _ _ _ Hget))
    as Hp. cbv beta in Hp. unfold planar_speed in Hp.
  pose proof (car_friction_contracts yaw (velocityX p + sin yaw * k)
                (velocityZ p + cos yaw * k)) as Hfr. fold fr in Hfr.
  pose proof (norm_triangle (velocityX p) (velocityZ p)
                (sin yaw * k) (cos yaw * k)) as Htri.
  rewrite thrust_norm_abs in Htri.
  assert (Hlt : sqrt (fst fr ^ 2 + snd fr ^ 2) < MAX_SPEED)
    by (unfold FRICTION, ACCELERATION, MAX_SPEED in *; lra).
  split; [exact Hlt|].
  unfold clamp_speed, Rgtb.
  replace (Rltb MAX_SPEED _) with false
    by (symmetry; apply Rltb_false; lra).
  destruct (Rltb _ 0.01); [now right|left]. now destruct fr.
Qed.

Lemma speed_clamp_never_rescales_witness :
  exists p : Player,
    get_player "ai-sheep-0" (players (initial_world zero_rng)) = Some p
    /\ sqrt (fst (car_friction 0 (velocityX p + sin 0 * 0.05)
                               (velocityZ p + cos 0 * 0.05)) ^ 2
             + snd (car_friction 0 (velocityX p + sin 0 * 0.05)
                                 (velocityZ p + cos 0 * 0.05)) ^ 2)
       < MAX_SPEED.
Proof.
  destruct (initial_world_sheep zero_rng "ai-sheep-0" zero_rng_valid
              first_sheep_id) as (p & Hget & _).
  exists p. split; [exact Hget|].
  assert (Hk : Rabs 0.05 <= ACCELERATION)
    by (rewrite Rabs_right; unfold ACCELERATION; lra).
  exact (proj1 (speed_clamp_never_rescales (initial_world zero_rng)
                  "ai-sheep-0" p 0 0.05
                  (reachable_initial zero_rng zero_rng_valid) Hget Hk)).
Defined.

(** ** Features no run reaches *)

Lemma ai_personality_scaredTimer (id : string) (ps : list (string * Player))
  (sheep : Player) (st : AIState) (g : Rng) :
  scaredTimer st = 0 ->
  scaredTimer (fst (ai_personality id ps sheep st g)) = 0.
Proof.
  intros H0. unfold ai_personality, Rgtb. rewrite H0.
  replace (Rltb 0 0) with false by (symmetry; apply Rltb_false; lra).
  destruct (personality st); unfold random; cbn -[nearest_scan];
    repeat match goal with
    | |- context [if ?c then _ else _] => destruct c
    | |- context [match snd (nearest_scan ?i ?sh ?l ?c ?t) with _ => _ end] =>
        destruct (snd (nearest_scan i sh l c t))
    | |- context [let '(_, _) := angle_to_center ?sh ?sp ?gg in _] =>
        destruct (angle_to_center sh sp gg)
    end; cbn; assumption.
Qed.

Lemma random_walk_scaredTimer (st : AIState) (g : Rng) :
  scaredTimer (fst (random_walk st g)) = scaredTimer st.
Proof.
  unfold random_walk, random. destruct (reroll_condition _ _); reflexivity.
Qed.

(** X14.  In every state the server reaches, scaredTimer is 0 for every
    entity with AI fields: createAISheep sets it to 0 and the only write,
    the decrement of the timid branch, needs it positive.  So no entity is
    ever a recently scared timid sheep: the scare override of the
    integrator, the fence avoidance of scared timid sheep and the immunity
    to tilt death never apply. *)
Theorem scaredTimer_always_zero
  (world : World) (id : string) (p : Player) :
  reachable world ->
  get_player id (players world) = Some p ->
  (forall st : AIState, ai p = Some st -> scaredTimer st = 0)
  /\ isRecentlyScaredTimid p = false
  /\ (forall posY : R, scared_jump p posY = false)
  /\ (forall (st : AIState) (ps : list (string * Player)) (g : Rng),
        ai p = Some st -> personality st = timid ->
        ai_personality id ps p st g = (st, g)).
Proof.
  intros Hreach Hget.
  assert (Hzero : forall st : AIState, ai p = Some st -> scaredTimer st = 0).
  { apply (reachable_all
             (fun _ q => forall st, ai q = Some st -> scaredTimer st = 0))
      with (world := world) (id := id); [| | |exact Hreach|].
    - intros k pers g _ st. unfold createAISheep, random. cbn [fst ai].
      now intros [= <-].
    - intros k g _ _ st. unfold connected_player. cbn [ai]. discriminate.
    - intros world' g _ _. apply tick_all.
      + intros inputs k q g' Hq st.
        destruct (physics_entity_ai inputs k q g') as [-> _]. apply Hq.
      + intros k ps q g' Hq _ st. unfold ai_sheep.
        destruct (ai q) as [st0|] eqn:Hst0; [|cbn; rewrite Hst0; discriminate].
        pose proof (ai_personality_scaredTimer k ps q st0 g' (Hq st0 eq_refl))
          as H1.
        destruct (ai_personality k ps q st0 g') as [st1 g1]. cbn [fst] in H1.
        pose proof (random_walk_scaredTimer st1 g1) as H2.
        destruct (random_walk st1 g1) as [st2 g2]. cbn [fst] in *.
        unfold heading_to_motion. cbn [ai]. intros [= <-]. congruence.
    - now apply get_player_In. }
  assert (Hnot : isRecentlyScaredTimid p = false).
  { unfold isRecentlyScaredTimid. destruct (ai p) as [st|]; [|reflexivity].
    rewrite (Hzero st eq_refl). unfold Rgtb.
    replace (Rltb 0 0) with false by (symmetry; apply Rltb_false; lra).
    apply andb_false_r. }
  split; [exact Hzero|]. split; [exact Hnot|]. split.
  - intros posY. unfold scared_jump. now rewrite Hnot.
  - intros st ps g Hai Hp. unfold ai_personality. rewrite Hp.
    rewrite (Hzero st Hai). unfold Rgtb.
    now replace (Rltb 0 0) with false by (symmetry; apply Rltb_false; lra).
Qed.

Lemma scaredTimer_always_zero_witness :
  exists p : Player,
    get_player "ai-sheep-0" (players (initial_world zero_rng)) = Some p
    /\ isRecentlyScaredTimid p = false.
Proof.
  destruct (initial_world_sheep zero_rng "ai-sheep-0" zero_rng_valid
              first_sheep_id) as (p & Hget & _).
  exists p. split; [exact Hget|].
  exact (proj1 (proj2 (scaredTimer_always_zero (initial_world zero_rng)
                         "ai-sheep-0" p
                         (reachable_initial zero_rng zero_rng_valid) Hget))).
Defined.

Lemma integrate_level_x (input : InputState) (p : Player) :
  level_x p -> level_x (integrate input p).
Proof.
  intros (Hg & Hrx & Hax).
  pose proof (grounded_falls p Hg) as Hfall.
  assert (Hjump : scared_jump p
            (y (position p) + (velocityY p - GRAVITY / TICK_RATE)) = false).
  { unfold scared_jump, Rgtb. apply Rltb_true in Hfall.
    replace (Rltb GROUND_Y _) with false; [apply andb_false_r|].
    symmetry. apply Rltb_false. lra. }
  unfold level_x, grounded, integrate.
  destruct (car_friction _ _ _) as [vx2 vz2].
  destruct (clamp_speed vx2 vz2) as [vx3 vz3].
  cbn [y]. rewrite Hjump, Hfall.
  cbn [position velocityY rotationX angularVelocityX y].
  rewrite Hrx, Hax, ?or_zero_id.
  replace (0 + 0 * 0.9) with 0 by ring.
  replace ((0 * 0.9 - 0 * TILT_RECOVERY_FORCE) * TILT_RECOVERY_DAMPING)
    with 0 by ring.
  repeat match goal with
  | |- context [if ?c then _ else _] => destruct c
  end; repeat split; reflexivity.
Qed.

Lemma physics_entity_level_x (inputs : gmap string InputState) (id : string)
  (p : Player) (g : Rng) :
  level_x p -> level_x (fst (fst (physics_entity inputs id p g))).
Proof.
  intros Hl. destruct (isDead p) eqn:Hd.
  - rewrite physics_entity_dead by assumption. cbn [fst].
    unfold physics_dead. destruct (Rleb _ _); [|exact Hl].
    unfold respawn_position, RESPAWN_AT_SPAWN, getRandomSpawn, random.
    destruct (spawn p); repeat split; reflexivity.
  - rewrite physics_entity_alive by assumption. cbn [fst].
    unfold physics_alive.
    pose proof (integrate_level_x (default no_input (inputs !! id)) p Hl) as H.
    destruct (lifecycle_check_shape id
                (integrate (default no_input (inputs !! id)) p))
      as (dead & timer & ->). exact H.
Qed.

(** X15.  In every state the server reaches, every entity has
    rotationX = 0 and angularVelocityX = 0: nothing but the scare override
    writes the tilt rate about x, and that override never applies.  The
    record the integrator makes of such an entity, which is the record the
    tilt check tests, has them 0 too, whatever the input: on it the
    condition of the tilt check is the test of the tilt about z, the lean
    into a turn, against the death angle, and the test of the tilt about x
    adds nothing. *)
Theorem tilt_about_x_always_zero
  (world : World) (id : string) (p : Player) :
  reachable world ->
  get_player id (players world) = Some p ->
  rotationX p = 0 /\ angularVelocityX p = 0
  /\ forall input : InputState,
       let q := integrate input p in
       rotationX q = 0 /\ angularVelocityX q = 0
       /\ tilt_death_condition q
          = negb (isRecentlyScaredTimid q)
            && Rgtb (Rabs (rotationZ q)) TILT_DEATH_RAD
            && negb (isDead q).
Proof.
  intros Hreach Hget.
  assert (H : level_x p).
  { apply (reachable_all (fun _ q => level_x q))
      with (world := world) (id := id); [| | |exact Hreach|].
    - intros k pers g _. unfold createAISheep, random.
      repeat split; reflexivity.
    - intros k g _ _. unfold connected_player, getRandomSpawn, random.
      repeat split; reflexivity.
    - intros world' g _ _. apply tick_all.
      + intros. now apply physics_entity_level_x.
      + intros k ps q g' (Hg & Hrx & Hax) _.
        pose proof (ai_sheep_grounded k ps q g' Hg) as Hg'.
        destruct (ai_sheep_frame k ps q g')
          as (_ & _ & _ & _ & _ & H1 & _ & H2 & _).
        split; [exact Hg'|]. now rewrite H1, H2.
    - now apply get_player_In. }
  pose proof H as (_ & Hrx & Hax). split; [exact Hrx|]. split; [exact Hax|].
  intros input. cbv zeta.
  destruct (integrate_level_x input p H) as (_ & Hqx & Hqa).
  split; [exact Hqx|]. split; [exact Hqa|].
  unfold tilt_death_condition. rewrite Hqx, !or_zero_id, Rabs_R0. unfold Rgtb.
  replace (Rltb TILT_DEATH_RAD 0) with false
    by (symmetry; apply Rltb_false; pose proof TILT_DEATH_RAD_pos; lra).
  now rewrite orb_false_r.
Qed.

Lemma tilt_about_x_always_zero_witness :
  exists p : Player,
    get_player "ai-sheep-0" (players (initial_world zero_rng)) = Some p
    /\ rotationX p = 0.
Proof.
  destruct (initial_world_sheep zero_rng "ai-sheep-0" zero_rng_valid
              first_sheep_id) as (p & Hget & _).
  exists p. split; [exact Hget|].
  exact (proj1 (tilt_about_x_always_zero (initial_world zero_rng)
                  "ai-sheep-0" p
                  (reachable_initial zero_rng zero_rng_valid) Hget)).
Defined.

(** ** The AI sheep and their personalities *)

Lemma create_all_In (indices : list nat) (ps : list (string * Player))
  (g : Rng) (id : string) (p : Player) :
  In (id, p) (fst (create_all indices ps g)) ->
  In (id, p) ps
  \/ exists (i : nat) (g' : Rng),
       In i indices /\ id = ai_sheep_id i
       /\ p = fst (createAISheep id (personality_of_index i) g').
Proof.
  revert ps g. induction indices as [|i rest IH]; intros ps g Hin.
  - now left.
  - cbn [create_all] in Hin.
    fold (personality_of_index i) in Hin.
    destruct (createAISheep (ai_sheep_id i) (personality_of_index i) g)
      as [sheep g1] eqn:E.
    destruct (IH _ _ Hin) as [H|(j & g' & Hj & H1 & H2)].
    + destruct (In_set_player _ _ _ _ _ H) as [[-> ->]|H'].
      * right. exists i, g. rewrite E. repeat split. now left.
      * now left.
    + right. exists j, g'. repeat split; try assumption. now right.
Qed.

Lemma NoDup_map_injective_on {A B : Type} (f : A -> B) (l : list A)
  (i j : A) :
  List.NoDup (map f l) -> In i l -> In j l -> f i = f j -> i = j.
Proof.
  induction l as [|h t IH]; cbn; [tauto|].
  intros Hnd Hi Hj Heq. inversion Hnd as [|? ? Hh Ht]; subst.
  destruct Hi as [->|Hi], Hj as [->|Hj]; try reflexivity.
  - exfalso. apply Hh. rewrite Heq. now apply in_map.
  - exfalso. apply Hh. rewrite <- Heq. now apply in_map.
  - now apply IH.
Qed.

Lemma aiSheepIds_spec (id : string) :
  In id aiSheepIds
  <-> exists i : nat, (i < AI_SHEEP_COUNT)%nat /\ id = ai_sheep_id i.
Proof.
  with_strategy transparent [aiSheepIds] (unfold aiSheepIds).
  rewrite in_map_iff. split.
  - intros (i & <- & Hi). apply in_seq in Hi. exists i. split; [lia|reflexivity].
  - intros (i & Hi & ->). exists i. split; [reflexivity|]. apply in_seq. lia.
Qed.

Lemma ai_sheep_id_injective (i j : nat) :
  (i < AI_SHEEP_COUNT)%nat -> (j < AI_SHEEP_COUNT)%nat ->
  ai_sheep_id i = ai_sheep_id j -> i = j.
Proof.
  intros Hi Hj. pose proof aiSheepIds_NoDup as Hnd.
  with_strategy transparent [aiSheepIds] (unfold aiSheepIds in Hnd).
  apply (NoDup_map_injective_on ai_sheep_id _ i j Hnd); apply in_seq; lia.
Qed.

(** X16.  There are always AI_SHEEP_COUNT = 50 AI sheep: in every state
    the server reaches, for every i below 50 the id ai-sheep-i holds a
    record with AI fields whose personality is the one assigned at start,
    AI_PERSONALITIES[i mod 5] (timid, brave, curious, hyper, aggressive in
    turn).  No tick, connection, message or disconnection removes an AI
    sheep or changes its personality. *)
Theorem ai_sheep_keep_their_personality (world : World) (i : nat) :
  reachable world ->
  (i < AI_SHEEP_COUNT)%nat ->
  exists (p : Player) (st : AIState),
    get_player (ai_sheep_id i) (players world) = Some p
    /\ ai p = Some st
    /\ personality st = personality_of_index i
    /\ personality_of_index i
       = nth (i mod 5) [timid; brave; curious; hyper; aggressive] timid
    /\ AI_SHEEP_COUNT = 50%nat.
Proof.
  intros Hreach Hi.
  assert (Hid : In (ai_sheep_id i) aiSheepIds)
    by (apply aiSheepIds_spec; eauto).
  destruct (reachable_ai_records world (ai_sheep_id i) Hreach Hid)
    as (p & st & Hget & Hai).
  exists p, st. split; [exact Hget|]. split; [exact Hai|].
  split; [|split; [reflexivity|
                   with_strategy transparent [AI_SHEEP_COUNT] reflexivity]].
  assert (H : forall j : nat,
             (j < AI_SHEEP_COUNT)%nat -> ai_sheep_id i = ai_sheep_id j ->
             exists st', ai p = Some st'
                         /\ personality st' = personality_of_index j).
  { apply (reachable_all_valid
             (fun k q => forall j : nat,
                  (j < AI_SHEEP_COUNT)%nat -> k = ai_sheep_id j ->
                  exists st', ai q = Some st'
                              /\ personality st' = personality_of_index j))
      with (world := world) (id := ai_sheep_id i); [| | | |exact Hreach|].
    - intros g Hv k q Hin j Hj ->. unfold initial_world in Hin.
      cbn [players] in Hin.
      destruct (create_all_In _ _ _ _ _ Hin) as [[]|(j' & g' & Hj' & H1 & ->)].
      apply in_seq in Hj'.
      assert (j = j') by (apply ai_sheep_id_injective; [lia|lia|exact H1]).
      subst j'. unfold createAISheep, random. cbn [fst ai]. eauto.
    - intros k g Hk _ j Hj ->. exfalso. apply Hk, aiSheepIds_spec. eauto.
    - intros inputs k q g _ Hq j Hj Hk.
      destruct (physics_entity_ai inputs k q g) as [-> _]. now apply Hq.
    - intros k ps q g _ Hq _ j Hj Hk.
      destruct (Hq j Hj Hk) as (st0 & Hst0 & Hp0).
      destruct (ai_sheep_shape k ps q st0 g Hst0) as (st' & -> & _ & Hp').
      unfold heading_to_motion. cbn [ai]. exists st'. split; congruence.
    - now apply get_player_In. }
  destruct (H i Hi eq_refl) as (st' & Hst' & Hp'). congruence.
Qed.

Lemma ai_sheep_keep_their_personality_witness :
  exists (p : Player) (st : AIState),
    get_player "ai-sheep-7" (players one_player_world) = Some p
    /\ ai p = Some st /\ personality st = curious.
Proof.
  assert (Hi : (7 < AI_SHEEP_COUNT)%nat)
    by (with_strategy transparent [AI_SHEEP_COUNT] (unfold AI_SHEEP_COUNT); lia).
  destruct (ai_sheep_keep_their_personality one_player_world 7
              one_player_world_reachable Hi) as (p & st & H1 & H2 & H3 & _).
  exists p, st. auto.
Defined.

(** ** The two stores agree *)

Lemma ids_delete_player_iff (id k : string) (ps : list (string * Player)) :
  In k (ids (delete_player id ps)) <-> k <> id /\ In k (ids ps).
Proof.
  induction ps as [|[k' q] rest IH]; cbn; [tauto|].
  destruct (String.eqb k' id) eqn:E.
  - apply String.eqb_eq in E. subst k'. rewrite IH. intuition congruence.
  - apply String.eqb_neq in E. cbn. rewrite IH. intuition congruence.
Qed.

Lemma is_input_domain (m : gmap string InputState) (id k : string)
  (record : InputState) :
  <[id := record]> m !! k <> None <-> k = id \/ m !! k <> None.
Proof.
  destruct (String.eqb id k) eqn:E.
  - apply String.eqb_eq in E. subst k. rewrite lookup_insert_eq.
    split; [now left|discriminate].
  - apply String.eqb_neq in E. rewrite lookup_insert_ne by assumption.
    intuition congruence.
Qed.

(** X17.  In every state the server reaches, the two stores agree: an id
    has an input record exactly when it is the id of a stored player that
    is no AI sheep.  AI sheep never have an input record (the integrator
    reads them as no key pressed), every connected player has one, and no
    input record outlives its player. *)
Theorem input_records_match_players (world : World) (id : string) :
  reachable world ->
  (inputStates world !! id <> None
   <-> In id (ids (players world)) /\ ~ In id aiSheepIds)
  /\ (In id aiSheepIds -> In id (ids (players world))).
Proof.
  intros Hreach. split.
  - induction Hreach as [g Hv|world world' Hreach IH Hstep].
    + cbn [initial_world inputStates players]. rewrite lookup_empty.
      split; [congruence|]. intros [Hin Hn]. exfalso. apply Hn.
      unfold ids in Hin. apply in_map_iff in Hin as ([k q] & <- & Hin).
      destruct (create_all_In _ _ _ _ _ Hin) as [[]|(j & g' & Hj & -> & _)].
      apply aiSheepIds_spec. exists j. apply in_seq in Hj.
      split; [lia|reflexivity].
    + destruct Hstep
        as [world g Hv|world k g Hv Hk|world k parsed|world k Hk].
      * now rewrite tick_ids, tick_inputStates.
      * rewrite on_connection_players, ids_set_player_In.
        assert (Hin : inputStates (fst (fst (on_connection k world g)))
                      = <[k := no_input]> (inputStates world)).
        { unfold on_connection. destruct (getRandomSpawn g) as [sp g1].
          now destruct (random g1). }
        rewrite Hin, is_input_domain, IH. intuition congruence.
      * rewrite on_message_players. rewrite <- IH.
        pose proof (on_message_domain k parsed world id). tauto.
      * cbn [on_close fst players inputStates]. rewrite ids_delete_player_iff.
        destruct (String.eqb k id) eqn:E.
        -- apply String.eqb_eq in E. subst k. rewrite lookup_delete_eq.
           intuition congruence.
        -- apply String.eqb_neq in E. rewrite lookup_delete_ne by assumption.
           rewrite IH. intuition congruence.
  - intros Hid.
    destruct (reachable_ai_records world id Hreach Hid) as (p & st & Hget & _).
    apply get_player_In in Hget. unfold ids.
    change id with (fst (id, p)). now apply in_map.
Qed.

Lemma input_records_match_players_witness :
  inputStates one_player_world !! "player-1" <> None
  <-> In "player-1" (ids (players one_player_world))
      /\ ~ In "player-1" aiSheepIds.
Proof.
  exact (proj1 (input_records_match_players one_player_world "player-1"
                  one_player_world_reachable)).
Defined.

(** ** The nearest other live entity *)

Lemma nearest_scan_general (id : string) (sheep : Player)
  (ps : list (string * Player)) (c t : option R) :
  (nearest_scan id sheep ps c t = (c, t)
   /\ forall e, In e ps -> scan_candidate id e ->
        exists cd, c = Some cd /\ cd <= scan_distance sheep (snd e))
  \/ exists e,
       In e ps /\ scan_candidate id e
       /\ nearest_scan id sheep ps c t
          = (Some (scan_distance sheep (snd e)),
             Some (scan_heading sheep (snd e)))
       /\ (forall e', In e' ps -> scan_candidate id e' ->
             scan_distance sheep (snd e) <= scan_distance sheep (snd e'))
       /\ (forall cd, c = Some cd -> scan_distance sheep (snd e) < cd).
Proof.
  revert c t. induction ps as [|[k q] rest IH]; intros c t.
  - left. split; [reflexivity|]. intros e [].
  - cbn [nearest_scan].
    destruct (String.eqb k id || isDead q) eqn:Eskip.
    + assert (Hno : ~ scan_candidate id (k, q)).
      { unfold scan_candidate. cbn. intros [Hk Hd].
        apply orb_prop in Eskip as [E|E]; [|congruence].
        apply String.eqb_eq in E. contradiction. }
      destruct (IH c t) as [[Heq Hall]|(e & He & Hc & Heq & Hmin & Hlt)].
      * left. split; [exact Heq|]. intros e [<-|He] Hc; [contradiction|auto].
      * right. exists e. split; [now right|]. repeat split; try assumption;
          try apply Hc.
        intros e' [<-|He'] Hc'; [contradiction|auto].
    + assert (Hyes : scan_candidate id (k, q)).
      { unfold scan_candidate. cbn. apply orb_false_elim in Eskip as [E1 E2].
        apply String.eqb_neq in E1. now split. }
      fold (scan_distance sheep q). fold (scan_heading sheep q).
      set (dq := scan_distance sheep q).
      destruct (match c with None => true | Some c0 => Rltb dq c0 end)
        eqn:Ebetter.
      * assert (Hlt0 : forall cd, c = Some cd -> dq < cd).
        { intros cd ->. now apply Rltb_true. }
        destruct (IH (Some dq) (Some (scan_heading sheep q)))
          as [[Heq Hall]|(e & He & Hc & Heq & Hmin & Hlt)].
        -- right. exists (k, q). split; [now left|]. split; [exact Hyes|].
           split; [exact Heq|]. split; [|exact Hlt0].
           intros e' [<-|He'] Hc'; [cbn; fold dq; lra|].
           destruct (Hall e' He' Hc') as (cd & [= <-] & Hle). exact Hle.
        -- right. exists e. split; [now right|]. split; [exact Hc|].
           split; [exact Heq|]. pose proof (Hlt dq eq_refl) as Hlt'. split.
           ++ intros e' [<-|He'] Hc'; [cbn; fold dq; lra|auto].
           ++ intros cd Hcd. specialize (Hlt0 cd Hcd). lra.
      * assert (Hge : exists cd, c = Some cd /\ cd <= dq).
        { destruct c as [cd|]; [|discriminate]. exists cd.
          split; [reflexivity|]. now apply Rltb_false. }
        destruct Hge as (cd & -> & Hge).
        destruct (IH (Some cd) t)
          as [[Heq Hall]|(e & He & Hc & Heq & Hmin & Hlt)].
        -- left. split; [exact Heq|]. intros e' [<-|He'] Hc'; [|auto].
           exists cd. split; [reflexivity|exact Hge].
        -- right. exists e. split; [now right|]. split; [exact Hc|].
           split; [exact Heq|]. split; [|exact Hlt].
           pose proof (Hlt cd eq_refl) as Hlt'.
           intros e' [<-|He'] Hc'; [cbn; fold dq; lra|auto].
Qed.

(** X18.  The scan for the nearest other live entity, started empty,
    returns nothing exactly when the store holds no alive entity under
    another id; otherwise it returns the distance and the heading
    atan2(dx, dz) of an alive entity under another id that is at least as
    near as every other such entity.  It never picks the sheep itself or a
    dead entity.  With nothing to pick, an aggressive sheep keeps its
    target angle and draws no random number. *)
Theorem nearest_scan_finds_the_nearest
  (id : string) (sheep : Player) (ps : list (string * Player)) :
  ((forall e, In e ps -> ~ scan_candidate id e)
   /\ nearest_scan id sheep ps None None = (None, None)
   /\ forall (st : AIState) (g : Rng),
        personality st = aggressive ->
        ai_personality id ps sheep st g = (st, g))
  \/ exists (k : string) (q : Player),
       In (k, q) ps /\ k <> id /\ isDead q = false
       /\ nearest_scan id sheep ps None None
          = (Some (scan_distance sheep q), Some (scan_heading sheep q))
       /\ forall (k' : string) (q' : Player),
            In (k', q') ps -> k' <> id -> isDead q' = false ->
            scan_distance sheep q <= scan_distance sheep q'.
Proof.
  destruct (nearest_scan_general id sheep ps None None)
    as [[Heq Hall]|([k q] & He & [Hk Hd] & Heq & Hmin & _)].
  - left. split; [|split; [exact Heq|]].
    + intros e He Hc. destruct (Hall e He Hc) as (cd & Hcd & _). discriminate.
    + intros st g Hp. unfold ai_personality. now rewrite Hp, Heq.
  - right. exists k, q. cbn [fst snd] in *. repeat split; try assumption.
    intros k' q' He' Hk' Hd'. apply (Hmin (k', q') He'). now split.
Qed.

(** ** The random walk and the turn of the AI controller *)

(** X19.  With draws in [0, 1), the random-walk step either re-rolls, when
    the decremented aiTimer is 0 or below (and, for a timid sheep,
    aiAvoidTimer is too): the target angle becomes a value in [0, 2 pi)
    and aiTimer a value in [0.5, 1) for a hyper sheep and in [2, 5) for
    the others, using two draws; or it only lowers aiTimer by
    1 / TICK_RATE, keeps the target angle and draws nothing. *)
Theorem random_walk_ranges (st : AIState) (g : Rng) :
  valid_rng g ->
  let st' := fst (random_walk st g) in
  let g' := snd (random_walk st g) in
  (reroll_condition st (aiTimer st - 1 / TICK_RATE) = true
   /\ 0 <= aiTargetAngle st' < 2 * PI
   /\ (personality st = hyper -> 0.5 <= aiTimer st' < 1)
   /\ (personality st <> hyper -> 2 <= aiTimer st' < 5)
   /\ g' = rng_tail (rng_tail g))
  \/ (reroll_condition st (aiTimer st - 1 / TICK_RATE) = false
      /\ aiTargetAngle st' = aiTargetAngle st
      /\ aiTimer st' = aiTimer st - 1 / TICK_RATE
      /\ g' = g).
Proof.
  intros Hv. cbv zeta. unfold random_walk, random. rewrite or_zero_id.
  destruct (reroll_condition st (aiTimer st - 1 / TICK_RATE)) eqn:E.
  - left. cbn. pose proof (Hv 0%nat) as H0. pose proof (Hv 1%nat) as H1.
    pose proof PI_RGT_0 as Hpi. unfold rng_tail.
    split; [reflexivity|]. split; [nra|]. split; [|split; [|reflexivity]].
    + intros ->. cbn. lra.
    + intros Hp. destruct (personality st); cbn; try lra. congruence.
  - right. cbn. repeat split.
Qed.

Lemma random_walk_ranges_witness :
  aiTimer (fst (random_walk (mkAI 1 0 0 brave 0) zero_rng))
  = 1 - 1 / TICK_RATE.
Proof.
  destruct (random_walk_ranges (mkAI 1 0 0 brave 0) zero_rng zero_rng_valid)
    as [(H & _)|(_ & _ & H & _)]; [|exact H].
  exfalso. unfold reroll_condition in H. cbn [aiTimer] in H.
  apply andb_prop in H as [H _]. apply Rleb_true in H.
  unfold TICK_RATE in H. lra.
Defined.

Lemma atan2_range (n m : R) : - PI <= atan2 n m <= PI.
Proof.
  pose proof PI_RGT_0 as Hpi. pose proof (atan_bound (n / m)) as Hb.
  unfold atan2.
  destruct (Rltb 0 m) eqn:E1; [lra|]. apply Rltb_false in E1.
  destruct (Rltb m 0) eqn:E2.
  - apply Rltb_true in E2. destruct (Rleb 0 n) eqn:E3.
    + apply Rleb_true in E3.
      assert (Hq : n / m <= 0).
      { unfold Rdiv. assert (/ m < 0) by now apply Rinv_lt_0_compat. nra. }
      assert (atan (n / m) <= 0).
      { destruct Hq as [Hq|Hq]; [|rewrite Hq, atan_0; lra].
        pose proof (atan_increasing _ _ Hq). rewrite atan_0 in *. lra. }
      lra.
    + apply Rleb_false in E3.
      assert (Hq : 0 < n / m).
      { unfold Rdiv. assert (/ m < 0) by now apply Rinv_lt_0_compat. nra. }
      pose proof (atan_increasing _ _ Hq) as H. rewrite atan_0 in H. lra.
  - destruct (Rltb 0 n); [lra|]. destruct (Rltb n 0); lra.
Qed.

(** X20.  The heading-to-motion stage turns an AI sheep by at most
    pi * turnSpeed per tick: the yaw rate it sets is the normalised angle
    difference, which lies in [-pi, pi], times the turnSpeed of the
    personality (at most 0.13), and the yaw moves by exactly that yaw
    rate.  A sheep already heading at its target angle is not turned. *)
Theorem heading_to_motion_turn_is_bounded (sheep : Player) (st : AIState) :
  let sheep' := heading_to_motion sheep st in
  Rabs (angularVelocity sheep') <= PI * turnSpeed (personality st)
  /\ turnSpeed (personality st) <= 0.13
  /\ rotation sheep' = rotation sheep + angularVelocity sheep'
  /\ (aiTargetAngle st = rotation sheep ->
      angularVelocity sheep' = 0 /\ rotation sheep' = rotation sheep).
Proof.
  cbv zeta. unfold heading_to_motion. cbn [angularVelocity rotation].
  set (diff := atan2 _ _).
  pose proof (atan2_range (sin (aiTargetAngle st - rotation sheep))
                (cos (aiTargetAngle st - rotation sheep))) as Hr.
  fold diff in Hr.
  assert (Hts : 0 < turnSpeed (personality st) <= 0.13)
    by (destruct (personality st); cbn; lra).
  split; [|split; [lra|split; [reflexivity|]]].
  - rewrite Rabs_mult, (Rabs_right (turnSpeed _)) by lra.
    assert (Rabs diff <= PI) by (apply Rabs_le; lra). nra.
  - intros Heq. unfold diff.
    rewrite Heq, Rminus_diag, sin_0, cos_0, atan2_ahead. split; ring.
Qed.

(** ** Friction and clamp, case by case *)

(** X21.  Friction keeps the direction of a velocity along the heading and
    scales it by FRICTION = 0.95; it keeps the direction of a velocity
    across the heading and scales it by 0.85.  For any velocity the speed
    after friction is between 0.85 and 0.95 times the speed before: each
    tick removes between 5 and 15 percent. *)
Theorem car_friction_along_and_across (yaw v velX velZ : R) :
  car_friction yaw (sin yaw * v) (cos yaw * v)
  = (sin yaw * (v * 0.95), cos yaw * (v * 0.95))
  /\ car_friction yaw (cos yaw * v) (- sin yaw * v)
     = (cos yaw * (v * 0.85), - sin yaw * (v * 0.85))
  /\ 0.85 * sqrt (velX ^ 2 + velZ ^ 2)
     <= sqrt (fst (car_friction yaw velX velZ) ^ 2
              + snd (car_friction yaw velX velZ) ^ 2)
     <= 0.95 * sqrt (velX ^ 2 + velZ ^ 2).
Proof.
  pose proof (sin_cos_1 yaw) as H1.
  split; [|split; [|split]].
  - unfold car_friction, FRICTION, SIDEWAYS_FRICTION_MULTIPLIER.
    replace (1 - (1 - 0.95) * 3.0) with 0.85 by lra.
    set (sn := sin yaw) in *. set (cs := cos yaw) in *.
    replace (sn * v * sn + cs * v * cs) with (v * (sn * sn + cs * cs)) by ring.
    replace (sn * v * cs + cs * v * - sn) with 0 by ring.
    rewrite H1. f_equal; ring.
  - unfold car_friction, FRICTION, SIDEWAYS_FRICTION_MULTIPLIER.
    replace (1 - (1 - 0.95) * 3.0) with 0.85 by lra.
    set (sn := sin yaw) in *. set (cs := cos yaw) in *.
    replace (cs * v * sn + - sn * v * cs) with 0 by ring.
    replace (cs * v * cs + - sn * v * - sn) with (v * (sn * sn + cs * cs))
      by ring.
    rewrite H1. f_equal; ring.
  - unfold car_friction, FRICTION, SIDEWAYS_FRICTION_MULTIPLIER.
    cbn [fst snd].
    replace (1 - (1 - 0.95) * 3.0) with 0.85 by lra.
    set (sn := sin yaw) in *. set (cs := cos yaw) in *.
    set (fwd := velX * sn + velZ * cs). set (side := velX * cs + velZ * - sn).
    assert (Hout :
      (sn * (fwd * 0.95) + cs * (side * 0.85)) ^ 2
      + (cs * (fwd * 0.95) + - sn * (side * 0.85)) ^ 2
      = (sn * sn + cs * cs) * ((0.95 * fwd) ^ 2 + (0.85 * side) ^ 2))
      by ring.
    assert (Hin : fwd ^ 2 + side ^ 2
                  = (sn * sn + cs * cs) * (velX ^ 2 + velZ ^ 2))
      by (unfold fwd, side; ring).
    rewrite Hout, H1. rewrite H1 in Hin. clearbody fwd side.
    replace (0.85 * sqrt (velX ^ 2 + velZ ^ 2))
      with (sqrt (0.85 * 0.85 * (velX ^ 2 + velZ ^ 2)))
      by (rewrite sqrt_mult by nra; now rewrite sqrt_square by lra).
    apply sqrt_le_1_alt. nra.
  - pose proof (car_friction_contracts yaw velX velZ) as H.
    unfold FRICTION in H. exact H.
Qed.

(** X22.  The speed clamp has three cases on the speed it is given: above
    MAX_SPEED it scales both components by MAX_SPEED / speed, a factor in
    (0, 1), and the speed becomes exactly MAX_SPEED; below 0.01 it returns
    zero; from 0.01 to MAX_SPEED it returns the velocity unchanged. *)
Theorem clamp_speed_three_cases (velX velZ : R) :
  let speed := sqrt (velX ^ 2 + velZ ^ 2) in
  (MAX_SPEED < speed ->
   clamp_speed velX velZ
   = (velX * (MAX_SPEED / speed), velZ * (MAX_SPEED / speed))
   /\ 0 < MAX_SPEED / speed < 1
   /\ sqrt (fst (clamp_speed velX velZ) ^ 2 + snd (clamp_speed velX velZ) ^ 2)
      = MAX_SPEED)
  /\ (speed < 0.01 -> clamp_speed velX velZ = (0, 0))
  /\ (0.01 <= speed <= MAX_SPEED -> clamp_speed velX velZ = (velX, velZ)).
Proof.
  cbv zeta. unfold clamp_speed, Rgtb, MAX_SPEED.
  set (speed := sqrt (velX ^ 2 + velZ ^ 2)).
  split; [|split].
  - intros Hs.
    replace (Rltb 1.5 speed) with true by (symmetry; apply Rltb_true; lra).
    replace (Rltb speed 0.01) with false by (symmetry; apply Rltb_false; lra).
    assert (Hf : 0 < 1.5 / speed) by (apply Rdiv_lt_0_compat; lra).
    split; [reflexivity|]. split.
    + split; [exact Hf|]. apply Rmult_lt_reg_r with speed; [lra|].
      replace (1.5 / speed * speed) with 1.5 by (field; lra). lra.
    + cbn [fst snd]. rewrite sqrt_scaled by lra. fold speed. field. lra.
  - intros Hs.
    replace (Rltb speed 0.01) with true by (symmetry; apply Rltb_true; lra).
    now destruct (Rltb 1.5 speed).
  - intros [H1 H2].
    replace (Rltb 1.5 speed) with false by (symmetry; apply Rltb_false; lra).
    now replace (Rltb speed 0.01) with false
      by (symmetry; apply Rltb_false; lra).
Qed.

Lemma clamp_speed_three_cases_witness : clamp_speed 0 1 = (0, 1).
Proof.
  apply (proj2 (proj2 (clamp_speed_three_cases 0 1))).
  replace (0 ^ 2 + 1 ^ 2) with 1 by ring. rewrite sqrt_1.
  unfold MAX_SPEED. lra.
Defined.

(** ** Where entities are put *)

(** X23.  With draws in [0, 1), getRandomSpawn returns a point at ground
    height whose distance from the centre is the second draw times
    SPAWN_RADIUS, hence below SPAWN_RADIUS = 50, using two draws.
    createAISheep makes, with four draws, a record that is alive, at rest,
    on the ground, at a distance of the second draw times 0.7 SPAWN_RADIUS
    (below 35) from the centre, with yaw and target angle in [0, 2 pi),
    aiTimer 0, the personality it is given and no stored spawn point. *)
Theorem spawn_placement (id : string) (pers : Personality) (g : Rng) :
  valid_rng g ->
  (y (fst (getRandomSpawn g)) = GROUND_Y
   /\ planar_distance (fst (getRandomSpawn g)) = g 1%nat * SPAWN_RADIUS
   /\ planar_distance (fst (getRandomSpawn g)) < SPAWN_RADIUS
   /\ snd (getRandomSpawn g) = rng_tail (rng_tail g))
  /\ (let p := fst (createAISheep id pers g) in
      isDead p = false /\ still p /\ grounded p
      /\ planar_distance (position p) = g 1%nat * (SPAWN_RADIUS * 0.7)
      /\ planar_distance (position p) < SPAWN_RADIUS * 0.7
      /\ 0 <= rotation p < 2 * PI
      /\ spawn p = None
      /\ ai p = Some (mkAI 0 (g 3%nat * PI * 2) 0 pers 0)
      /\ 0 <= g 3%nat * PI * 2 < 2 * PI
      /\ snd (createAISheep id pers g)
         = rng_tail (rng_tail (rng_tail (rng_tail g)))).
Proof.
  intros Hv. pose proof (Hv 1%nat) as H1. pose proof (Hv 2%nat) as H2.
  pose proof (Hv 3%nat) as H3. pose proof PI_RGT_0 as Hpi. split.
  - unfold getRandomSpawn, random, rng_tail. cbn [fst snd y].
    rewrite polar_distance by (unfold SPAWN_RADIUS; lra).
    unfold SPAWN_RADIUS. repeat split; try reflexivity; lra.
  - cbv zeta. unfold createAISheep, random, rng_tail, still, grounded.
    cbn [fst snd isDead velocityX velocityZ velocityY angularVelocity
         rotationX rotationZ angularVelocityX angularVelocityZ position
         rotation spawn ai y].
    rewrite polar_distance by (unfold SPAWN_RADIUS; lra).
    unfold SPAWN_RADIUS. repeat split; try reflexivity; nra.
Qed.

Lemma spawn_placement_witness :
  planar_distance (fst (getRandomSpawn zero_rng)) < SPAWN_RADIUS.
Proof.
  exact (proj1 (proj2 (proj2 (proj1 (spawn_placement "ai-sheep-0" timid
                                       zero_rng zero_rng_valid))))).
Defined.

(** ** The ground *)

(** X24.  From any state, the integrator never leaves an entity below the
    ground: after it position.y is at least GROUND_Y.  An entity that
    gravity would take below GROUND_Y is put at GROUND_Y with vertical
    velocity 0; otherwise it has moved by its vertical velocity lowered by
    GRAVITY / TICK_RATE. *)
Theorem integrate_never_below_ground (input : InputState) (p : Player) :
  let fallen := y (position p) + (velocityY p - GRAVITY / TICK_RATE) in
  GROUND_Y <= y (position (integrate input p))
  /\ (fallen < GROUND_Y ->
      y (position (integrate input p)) = GROUND_Y
      /\ velocityY (integrate input p) = 0)
  /\ (GROUND_Y <= fallen ->
      y (position (integrate input p)) = fallen
      /\ velocityY (integrate input p) = velocityY p - GRAVITY / TICK_RATE).
Proof.
  cbv zeta. destruct (integrate_vertical input p) as [Hy Hv].
  rewrite Hy, Hv.
  destruct (Rltb _ GROUND_Y) eqn:E.
  - apply Rltb_true in E. repeat split; try lra.
  - apply Rltb_false in E. repeat split; try lra.
Qed.

(** ** Players do not interact *)

(** X25.  An alive player (an id that is no AI sheep) ends a tick with the
    record that the integrator and the death checks compute from its own
    record and its own input record alone: the other entities of the
    world, however near, and the random draws have no effect on it. *)
Theorem player_tick_depends_on_own_state_only
  (world : World) (g : Rng) (id : string) (p : Player) :
  ~ In id aiSheepIds ->
  get_player id (players world) = Some p ->
  isDead p = false ->
  get_player id (players (fst (fst (tick world g))))
  = Some (fst (physics_alive id (default no_input (inputStates world !! id)) p))
  /\ forall (world2 : World) (g2 : Rng),
       get_player id (players world2) = Some p ->
       inputStates world2 !! id = inputStates world !! id ->
       get_player id (players (fst (fst (tick world2 g2))))
       = get_player id (players (fst (fst (tick world g)))).
Proof.
  intros Hid Hget Hd.
  assert (Hgen : forall w g0,
             get_player id (players w) = Some p ->
             get_player id (players (fst (fst (tick w g0))))
             = Some (fst (physics_alive id
                            (default no_input (inputStates w !! id)) p))).
  { intros w g0 Hw. rewrite tick_players.
    destruct (physics_pass_get (inputStates w) (players w) g0 id p Hw)
      as (g' & _ & Hp & _).
    rewrite physics_entity_alive in Hp by assumption.
    rewrite ai_pass_get_skipped by now left. exact Hp. }
  split; [now apply Hgen|].
  intros world2 g2 H2 Hin. rewrite (Hgen world2 g2 H2), (Hgen world g Hget).
  now rewrite Hin.
Qed.

Lemma player_tick_depends_on_own_state_only_witness :
  get_player "player-1"
    (players (fst (fst (tick straggler_world zero_rng))))
  = Some (fst (physics_alive "player-1"
                 (default no_input (inputStates straggler_world !! "player-1"))
                 straggler)).
Proof.
  exact (proj1 (player_tick_depends_on_own_state_only straggler_world zero_rng
                  "player-1" straggler player_1_no_sheep eq_refl eq_refl)).
Defined.

(** ** The brave sheep *)

Lemma sqrt_ratio_pos (n m : R) :
  0 < m -> sqrt (1 + (n / m)²) = sqrt (n ^ 2 + m ^ 2) / m.
Proof.
  intros Hm. unfold Rsqr.
  replace (1 + n / m * (n / m)) with ((n ^ 2 + m ^ 2) / (m * m))
    by (field; lra).
  rewrite sqrt_div_alt by nra.
  now rewrite sqrt_square by lra.
Qed.

Lemma atan_direction (n m : R) :
  0 < m ->
  sin (atan (n / m)) = n / sqrt (n ^ 2 + m ^ 2)
  /\ cos (atan (n / m)) = m / sqrt (n ^ 2 + m ^ 2).
Proof.
  intros Hm.
  assert (Hs : 0 < sqrt (n ^ 2 + m ^ 2)) by (apply sqrt_lt_R0; nra).
  rewrite sin_atan, cos_atan, sqrt_ratio_pos by assumption.
  split; field; lra.
Qed.

Lemma atan2_direction (n m : R) :
  0 < sqrt (n ^ 2 + m ^ 2) ->
  sin (atan2 n m) = n / sqrt (n ^ 2 + m ^ 2)
  /\ cos (atan2 n m) = m / sqrt (n ^ 2 + m ^ 2).
Proof.
  intros Hs. unfold atan2.
  destruct (Rltb 0 m) eqn:E1.
  - apply Rltb_true in E1. now apply atan_direction.
  - apply Rltb_false in E1. destruct (Rltb m 0) eqn:E2.
    + apply Rltb_true in E2.
      assert (Hneg : 0 < - m) by lra.
      destruct (atan_direction (- n) (- m) Hneg) as [Hsin Hcos].
      replace (- n / - m) with (n / m) in Hsin, Hcos by (field; lra).
      replace ((- n) ^ 2 + (- m) ^ 2) with (n ^ 2 + m ^ 2) in Hsin, Hcos
        by ring.
      destruct (Rleb 0 n).
      * rewrite neg_sin, neg_cos, Hsin, Hcos. split; field; lra.
      * unfold Rminus. rewrite sin_plus, cos_plus, sin_neg, cos_neg,
          sin_PI, cos_PI, Hsin, Hcos.
        split; field; lra.
    + apply Rltb_false in E2. assert (Hm : m = 0) by lra. subst m.
      replace (n ^ 2 + 0 ^ 2) with (n * n) in * by ring.
      destruct (Rltb 0 n) eqn:E3.
      * apply Rltb_true in E3. rewrite sqrt_square by lra.
        rewrite sin_PI2, cos_PI2. split; field; lra.
      * apply Rltb_false in E3. destruct (Rltb n 0) eqn:E4.
        -- apply Rltb_true in E4.
           replace (n * n) with (- n * - n) by ring.
           rewrite sqrt_square by lra.
           rewrite sin_neg, cos_neg, sin_PI2, cos_PI2. split; field; lra.
        -- apply Rltb_false in E4. assert (Hn : n = 0) by lra. subst n.
           rewrite Rmult_0_l, sqrt_0 in Hs. lra.
Qed.

(** X26.  With draws in [0, 1), a brave sheep always uses one draw for its
    80 percent roll.  When the roll is below 0.8 and the sheep is farther
    than 0.9 FENCE_RADIUS from the centre, it uses a second draw and its
    target angle becomes a heading that points at the centre, one whose
    sine and cosine are -x / distance and -z / distance, plus the offset
    (draw - 0.5) * 0.4, which lies in [-0.2, 0.2); otherwise its AI fields
    are unchanged.  In both cases aiTimer, aiAvoidTimer, scaredTimer and
    the personality are as before. *)
Theorem brave_sheep_fence_avoidance
  (id : string) (ps : list (string * Player)) (sheep : Player)
  (st : AIState) (g : Rng) :
  valid_rng g ->
  personality st = brave ->
  let st' := fst (ai_personality id ps sheep st g) in
  let g' := snd (ai_personality id ps sheep st g) in
  let dist := planar_distance (position sheep) in
  (aiTimer st' = aiTimer st /\ aiAvoidTimer st' = aiAvoidTimer st
   /\ scaredTimer st' = scaredTimer st /\ personality st' = personality st)
  /\ ((g 0%nat < 0.8
       /\ FENCE_RADIUS * 0.9 < dist
       /\ (exists toCenter : R,
             aiTargetAngle st' = toCenter + (g 1%nat - 0.5) * 0.4
             /\ - 0.2 <= (g 1%nat - 0.5) * 0.4 < 0.2
             /\ sin toCenter = - x (position sheep) / dist
             /\ cos toCenter = - z (position sheep) / dist)
       /\ g' = rng_tail (rng_tail g))
      \/ ((0.8 <= g 0%nat \/ dist <= FENCE_RADIUS * 0.9)
          /\ st' = st /\ g' = rng_tail g)).
Proof.
  intros Hv Hp. cbv zeta. unfold ai_personality. rewrite Hp.
  unfold random, angle_to_center, random. cbn [fst snd].
  pose proof (Hv 1%nat) as H1. unfold Rgtb.
  destruct (Rltb (g 0%nat) 0.8) eqn:E1.
  - apply Rltb_true in E1.
    destruct (Rltb (FENCE_RADIUS * 0.9) _) eqn:E2.
    + apply Rltb_true in E2.
      cbn [fst snd aiTimer aiAvoidTimer scaredTimer personality aiTargetAngle
           set_aiTargetAngle].
      split; [repeat split; (reflexivity || exact Hp)|]. left.
      split; [exact E1|]. split; [exact E2|]. split; [|reflexivity].
      exists (atan2 (- x (position sheep)) (- z (position sheep))).
      split; [reflexivity|]. split; [unfold rng_tail; lra|].
      assert (Hd : 0 < sqrt ((- x (position sheep)) ^ 2
                             + (- z (position sheep)) ^ 2)).
      { replace ((- x (position sheep)) ^ 2 + (- z (position sheep)) ^ 2)
          with (x (position sheep) ^ 2 + z (position sheep) ^ 2) by ring.
        fold (planar_distance (position sheep)).
        unfold FENCE_RADIUS in E2. lra. }
      destruct (atan2_direction _ _ Hd) as [Hsin Hcos].
      rewrite Hsin, Hcos. unfold planar_distance.
      replace ((- x (position sheep)) ^ 2 + (- z (position sheep)) ^ 2)
        with (x (position sheep) ^ 2 + z (position sheep) ^ 2) by ring.
      split; reflexivity.
    + apply Rltb_false in E2. cbn [fst snd].
      split; [repeat split; (reflexivity || exact Hp)|]. right.
      repeat split. now right.
  - apply Rltb_false in E1. cbn [fst snd].
    split; [repeat split; (reflexivity || exact Hp)|]. right.
    repeat split. now left.
Qed.

Lemma brave_sheep_fence_avoidance_witness :
  aiTimer (fst (ai_personality "ai-sheep-1" [] straggler
                  (mkAI 1 0 0 brave 0) zero_rng)) = 1.
Proof.
  exact (proj1 (proj1 (brave_sheep_fence_avoidance "ai-sheep-1" [] straggler
                         (mkAI 1 0 0 brave 0) zero_rng zero_rng_valid
                         eq_refl))).
Defined.

(** ** The client's positional sound *)

(** X27.  For a base volume that is not negative, the volume of a
    positional sound lies between 0 and the base volume: it is the base
    volume at the listener's own position, falls off linearly with the
    planar distance and is 0 from the fence radius (100) on.  The stereo
    pan lies between -1 and 1, and the distance between two points does not
    depend on their order. *)
Theorem positional_sound_bounds (localPos position : Vec3) (baseVolume : R) :
  0 <= baseVolume ->
  0 <= sound_volume localPos position baseVolume <= baseVolume
  /\ sound_volume localPos localPos baseVolume = baseVolume
  /\ (FENCE_RADIUS <= get2DDistance localPos position ->
      sound_volume localPos position baseVolume = 0)
  /\ (get2DDistance localPos position <= FENCE_RADIUS ->
      sound_volume localPos position baseVolume
      = baseVolume * (1 - get2DDistance localPos position / 100))
  /\ - 1 <= sound_pan localPos position <= 1
  /\ get2DDistance localPos position = get2DDistance position localPos.
Proof.
  intros Hb. unfold sound_volume, PROXIMITY_SENSITIVITY, FENCE_RADIUS.
  replace (100 * 1.0) with 100 by lra.
  pose proof (sqrt_pos ((x localPos - x position) ^ 2
                        + (z localPos - z position) ^ 2)) as Hd.
  fold (get2DDistance localPos position) in Hd.
  set (dist := get2DDistance localPos position) in *.
  assert (Hself : get2DDistance localPos localPos = 0).
  { unfold get2DDistance. rewrite !Rminus_diag. apply sqrt_zero_vector. }
  split; [|split; [|split; [|split; [|split]]]].
  - unfold Rmax. destruct (Rle_dec _ _); nra.
  - rewrite Hself. unfold Rmax. destruct (Rle_dec _ _); lra.
  - intros Hfar. unfold Rmax. destruct (Rle_dec _ _); nra.
  - intros Hnear. unfold Rmax. destruct (Rle_dec _ _); nra.
  - unfold sound_pan. apply SIN_bound.
  - unfold dist, get2DDistance. f_equal. ring.
Qed.

Lemma positional_sound_bounds_witness :
  sound_volume (mkVec3 0 0 0) (mkVec3 3 0 4) 0.5 <= 0.5.
Proof.
  assert (Hb : 0 <= 0.5) by lra.
  exact (proj2 (proj1 (positional_sound_bounds (mkVec3 0 0 0) (mkVec3 3 0 4)
                         0.5 Hb))).
Defined.
